(** * Momentus: the species-resolution engine (services/RobustSpeciesService.js)

    A shallow embedding of [RobustSpeciesService]: the name normalizer
    (regular-expression pipeline), the location-clustered cache (a JS [Map],
    kept as an association list in insertion order), the GBIF client with its
    circuit breaker (explicit state passing over a simulated world: clock,
    network replies, random draws), the tiered fallback cascade and the
    cooldown-aware selection.

    Conventions.
    - A JS string is the list of its UTF-16 code units ([N]).
    - A JS number that is a timestamp or duration is a [Z] (milliseconds);
      [NaN] only arises for [openUntil] and is kept as [None].
    - Latitudes and longitudes are rationals ([Q]); [Math.round] is
      [floor (x + 1/2)].  The cache key rounds as binary64 does
      ([binary64]); the comparisons with the boxes of regions and with the
      location threshold are made in exact arithmetic.
    - [toLowerCase]/[toUpperCase] fold the letters A-Z/a-z and leave every
      other code unit unchanged, which is what the code does on Basic
      Latin; where a statement depends on the case of other code units it
      assumes [ascii_only]. *)

From Stdlib Require Import List Bool Arith NArith ZArith QArith Qround Qabs.
From Stdlib Require Import Lia Lqa.
From Stdlib Require Import Strings.String Strings.Ascii DecimalString.
From Stdlib Require DecimalPos DecimalZ.
Import ListNotations.

Set Implicit Arguments.

(* ================================================================= *)
(** ** JS strings *)

Module JsString.

Definition jsstring := list N.

(** An ASCII literal as a JS string. *)
Definition js (s : string) : jsstring :=
  List.map N_of_ascii (list_ascii_of_string s).

Definition jsstring_eqb (a b : jsstring) : bool :=
  if list_eq_dec N.eq_dec a b then true else false.

Definition in_range (lo hi c : N) : bool := (lo <=? c)%N && (c <=? hi)%N.

(** [\d] *)
Definition is_digit (c : N) : bool := in_range 48 57 c.

Definition is_upper (c : N) : bool := in_range 65 90 c.
Definition is_lower (c : N) : bool := in_range 97 122 c.

(** [\w] = [A-Za-z0-9_] (no /u flag) *)
Definition is_word (c : N) : bool :=
  is_upper c || is_lower c || is_digit c || (c =? 95)%N.

(** [\s]: WhiteSpace and LineTerminator code units; the same set is removed
    by [String.prototype.trim]. *)
Definition is_space (c : N) : bool :=
  in_range 9 13 c || (c =? 32)%N || (c =? 160)%N || (c =? 5760)%N
  || in_range 8192 8202 c || (c =? 8232)%N || (c =? 8233)%N
  || (c =? 8239)%N || (c =? 8287)%N || (c =? 12288)%N || (c =? 65279)%N.

(** The case mappings of a code unit of Basic Latin (below 128), where
    [toLowerCase] and [toUpperCase] map code unit by code unit.  Other code
    units are left as they are, which is not what the code does with
    letters outside Basic Latin; the statements whose truth depends on
    those letters take their strings in Basic Latin. *)
Definition lower_cu (c : N) : N := if is_upper c then (c + 32)%N else c.
Definition upper_cu (c : N) : N := if is_lower c then (c - 32)%N else c.

Definition toLowerCase (s : jsstring) : jsstring := List.map lower_cu s.
Definition toUpperCase (s : jsstring) : jsstring := List.map upper_cu s.

Fixpoint drop_space (s : jsstring) : jsstring :=
  match s with
  | x :: s' => if is_space x then drop_space s' else s
  | [] => []
  end.

(** [s.trim()] *)
Definition trim (s : jsstring) : jsstring :=
  rev (drop_space (rev (drop_space s))).

(** [s.split(sep)] for a one-code-unit separator. *)
Fixpoint split (sep : N) (s : jsstring) : list jsstring :=
  match s with
  | [] => [[]]
  | x :: s' =>
      if (x =? sep)%N then [] :: split sep s'
      else match split sep s' with
           | h :: t => (x :: h) :: t
           | [] => [[x]]
           end
  end.

(** [parts.join(sep)] *)
Fixpoint join (sep : jsstring) (parts : list jsstring) : jsstring :=
  match parts with
  | [] => []
  | [p] => p
  | p :: rest => p ++ sep ++ join sep rest
  end.

(** JS truthiness of a string: non-empty. *)
Definition truthy (s : jsstring) : bool :=
  match s with [] => false | _ => true end.

(** [a || b] on strings. *)
Definition or_else (a b : jsstring) : jsstring := if truthy a then a else b.

(** [parts.filter(Boolean)] *)
Definition filter_nonempty (parts : list jsstring) : list jsstring :=
  List.filter truthy parts.

Fixpoint is_prefix (p s : jsstring) : bool :=
  match p, s with
  | [], _ => true
  | a :: p', b :: s' => (a =? b)%N && is_prefix p' s'
  | _ :: _, [] => false
  end.

(** [s.startsWith(p)] *)
Definition startsWith (s p : jsstring) : bool := is_prefix p s.

(** [s.endsWith(p)] *)
Definition endsWith (s p : jsstring) : bool := is_prefix (rev p) (rev s).

(** [s.includes(p)] *)
Fixpoint includes (s p : jsstring) : bool :=
  is_prefix p s || match s with [] => false | _ :: s' => includes s' p end.

End JsString.
Import JsString.

(* ================================================================= *)
(** ** Regular expressions

    The fragment of ECMAScript regular expressions the service uses:
    character classes, sequence, ordered alternation, greedy [?], greedy
    [*] and [{lo,hi}] over a character class, [\b] and [$].  Matching is
    backtracking with the ECMAScript priorities (leftmost alternative first,
    longest repetition first). *)

Module Regex.

Inductive regex : Type :=
| Eps
| Cls (c : N -> bool)
| Seq (r1 r2 : regex)
| Alt (r1 r2 : regex)
| Opt (r : regex)
| Star (c : N -> bool)
| Rep (c : N -> bool) (lo hi : nat)
| WordB
| Eos.

(** A continuation receives the code unit before the current position, the
    rest of the input and the number of code units consumed so far. *)
Definition cont := option N -> jsstring -> nat -> option nat.

Definition word_before (prev : option N) : bool :=
  match prev with Some c => is_word c | None => false end.

Definition word_after (s : jsstring) : bool :=
  match s with c :: _ => is_word c | [] => false end.

Fixpoint star (c : N -> bool) (prev : option N) (s : jsstring) (n : nat)
  (k : cont) : option nat :=
  match s with
  | x :: s' =>
      if c x then
        match star c (Some x) s' (S n) k with
        | Some r => Some r
        | None => k prev s n
        end
      else k prev s n
  | [] => k prev s n
  end.

Fixpoint rep (c : N -> bool) (lo hi : nat) (prev : option N) (s : jsstring)
  (n : nat) (k : cont) : option nat :=
  let stop := if Nat.eqb lo 0 then k prev s n else None in
  match hi with
  | O => stop
  | S hi' =>
      match s with
      | x :: s' =>
          if c x then
            match rep c (Nat.pred lo) hi' (Some x) s' (S n) k with
            | Some r => Some r
            | None => stop
            end
          else stop
      | [] => stop
      end
  end.

Fixpoint rmatch (r : regex) (prev : option N) (s : jsstring) (n : nat)
  (k : cont) : option nat :=
  match r with
  | Eps => k prev s n
  | Cls c =>
      match s with
      | x :: s' => if c x then k (Some x) s' (S n) else None
      | [] => None
      end
  | Seq r1 r2 => rmatch r1 prev s n (fun p s' n' => rmatch r2 p s' n' k)
  | Alt r1 r2 =>
      match rmatch r1 prev s n k with
      | Some m => Some m
      | None => rmatch r2 prev s n k
      end
  | Opt r1 =>
      match rmatch r1 prev s n k with
      | Some m => Some m
      | None => k prev s n
      end
  | Star c => star c prev s n k
  | Rep c lo hi => rep c lo hi prev s n k
  | WordB => if xorb (word_before prev) (word_after s) then k prev s n else None
  | Eos => match s with [] => k prev s n | _ :: _ => None end
  end.

Definition accept : cont := fun _ _ n => Some n.

(** The length of the match of [r] that starts at the current position. *)
Definition match_at (r : regex) (prev : option N) (s : jsstring) : option nat :=
  rmatch r prev s 0 accept.

(** [s.replace(/r/g, by)] for a replacement without [$] patterns.  [skip]
    counts the code units of the current match that are still to be
    dropped. *)
Fixpoint replace_go (r : regex) (by_ : jsstring) (prev : option N)
  (s : jsstring) (skip : nat) : jsstring :=
  match s with
  | [] =>
      match skip, match_at r prev [] with
      | O, Some _ => by_
      | _, _ => []
      end
  | x :: s' =>
      match skip with
      | S m => replace_go r by_ (Some x) s' m
      | O =>
          match match_at r prev s with
          | Some O => by_ ++ x :: replace_go r by_ (Some x) s' 0
          | Some (S m) => by_ ++ replace_go r by_ (Some x) s' m
          | None => x :: replace_go r by_ (Some x) s' 0
          end
      end
  end.

Definition replace_all (r : regex) (by_ : jsstring) (s : jsstring) : jsstring :=
  replace_go r by_ None s 0.

(** [/r/.test(s)] *)
Fixpoint test_go (r : regex) (prev : option N) (s : jsstring) : bool :=
  match match_at r prev s with
  | Some _ => true
  | None =>
      match s with
      | [] => false
      | x :: s' => test_go r (Some x) s'
      end
  end.

Definition test (r : regex) (s : jsstring) : bool := test_go r None s.

(** Literal text, and literal text under the [i] flag. *)
Definition chr (a : N) : regex := Cls (N.eqb a).
Definition chr_ci (a : N) : regex :=
  Cls (fun x => (x =? lower_cu a)%N || (x =? upper_cu a)%N).

Fixpoint lit_ci (w : jsstring) : regex :=
  match w with
  | [] => Eps
  | [a] => chr_ci a
  | a :: w' => Seq (chr_ci a) (lit_ci w')
  end.

Fixpoint alts (rs : list regex) : regex :=
  match rs with
  | [] => Cls (fun _ => false)
  | [r] => r
  | r :: rs' => Alt r (alts rs')
  end.

Definition plus (c : N -> bool) : regex := Seq (Cls c) (Star c).

End Regex.
Import Regex.

(* ================================================================= *)
(** ** Name normalizer *)

Module Names.

Definition comma : N := 44.
Definition dot : N := 46.
Definition hyphen : N := 45.
Definition apostrophe : N := 39.
Definition space : N := 32.
Definition lparen : N := 40.
Definition rparen : N := 41.

(** [/\s+/g] *)
Definition re_spaces : regex := plus is_space.

(** [/\([^)]*\)/g] *)
Definition re_parenthetical : regex :=
  Seq (chr lparen) (Seq (Star (fun x => negb (x =? rparen)%N)) (chr rparen)).

(** [/,?\s*[^,\d]*\d{3,4}\b/g] *)
Definition re_author_year : regex :=
  Seq (Opt (chr comma))
    (Seq (Star is_space)
       (Seq (Star (fun x => negb ((x =? comma)%N || is_digit x)))
          (Seq (Rep is_digit 3 4) WordB))).

(** [/\b(sp|spp|cf|aff|var|subsp|forma?)\b\.?/gi] *)
Definition re_shorthand : regex :=
  Seq WordB
    (Seq (alts [lit_ci (js "sp"); lit_ci (js "spp"); lit_ci (js "cf");
                lit_ci (js "aff"); lit_ci (js "var"); lit_ci (js "subsp");
                Seq (lit_ci (js "form")) (Opt (chr_ci 97))])
       (Seq WordB (Opt (chr dot)))).

(** [/[\d]/g] *)
Definition re_digit : regex := Cls is_digit.

(** [/[‘’“”]/g] *)
Definition is_curly_quote (x : N) : bool :=
  (x =? 8216)%N || (x =? 8217)%N || (x =? 8220)%N || (x =? 8221)%N.
Definition re_curly : regex := Cls is_curly_quote.

(** [/[^\w\s'\-\.]/g] *)
Definition is_name_char (x : N) : bool :=
  is_word x || is_space x || (x =? apostrophe)%N || (x =? hyphen)%N
  || (x =? dot)%N.
Definition re_not_name_char : regex := Cls (fun x => negb (is_name_char x)).

(** [/[,\-\.\s]+$/g] *)
Definition is_trailing_punct (x : N) : bool :=
  (x =? comma)%N || (x =? hyphen)%N || (x =? dot)%N || is_space x.
Definition re_trailing : regex := Seq (plus is_trailing_punct) Eos.

(** [sanitizeDisplayName(name)], for a string argument. *)
Definition sanitizeDisplayName (name : jsstring) : jsstring :=
  if negb (truthy name) then []
  else
    let cleaned := trim (replace_all re_spaces [space] name) in
    let cleaned := replace_all re_parenthetical [] cleaned in
    let cleaned := replace_all re_author_year [] cleaned in
    let cleaned := replace_all re_shorthand [] cleaned in
    let cleaned := replace_all re_digit [] cleaned in
    let cleaned := replace_all re_curly [apostrophe] cleaned in
    let cleaned := replace_all re_not_name_char [] cleaned in
    let cleaned :=
      trim (replace_all re_spaces [space]
              (replace_all re_trailing [] cleaned)) in
    if negb (truthy cleaned) || (List.length cleaned <? 2) then []
    else cleaned.

(** [/\d/] *)
Definition re_any_digit : regex := Cls is_digit.

(** [/\b(sp|spp|species|unidentified|unknown|indet|gen\.?)\b/i] *)
Definition re_placeholder : regex :=
  Seq WordB
    (Seq (alts [lit_ci (js "sp"); lit_ci (js "spp"); lit_ci (js "species");
                lit_ci (js "unidentified"); lit_ci (js "unknown");
                lit_ci (js "indet");
                Seq (lit_ci (js "gen")) (Opt (chr dot))])
       WordB).

(** [isValidCommonName(name)], for a string argument. *)
Definition isValidCommonName (name : jsstring) : bool :=
  if negb (truthy name) then false
  else
    let s := trim name in
    if List.length s <? 3 then false
    else if test re_any_digit s then false
    else if test re_placeholder s then false
    else true.

(** [/,?\s*\d{3,4}/g] *)
Definition re_year : regex :=
  Seq (Opt (chr comma)) (Seq (Star is_space) (Rep is_digit 3 4)).

(** [extractBinomial(scientific)], for a string argument. *)
Definition extractBinomial (scientific : jsstring) : jsstring :=
  if negb (truthy scientific) then []
  else
    let s := replace_all re_year []
               (replace_all re_parenthetical [] scientific) in
    let s := trim (replace_all re_spaces [space] s) in
    let parts := filter_nonempty (split space s) in
    match parts with
    | p0 :: p1 :: _ => p0 ++ [space] ++ p1
    | _ => []
    end.

(** [word.charAt(0).toUpperCase() + word.slice(1).toLowerCase()] *)
Definition capitalize (word : jsstring) : jsstring :=
  match word with
  | [] => []
  | c :: rest => upper_cu c :: toLowerCase rest
  end.

(** [capitalizeWords(str)] *)
Definition capitalizeWords (str : jsstring) : jsstring :=
  join [space] (List.map capitalize (split space str)).

(** [singularize(className)], for a string argument. *)
Definition singularize (className : jsstring) : jsstring :=
  if negb (truthy className) then className
  else
    let lower := toLowerCase className in
    if jsstring_eqb lower (js "fish") then js "fish"
    else if endsWith lower (js "s") then removelast lower
    else lower.

(** [formatDisplayForUI(name, scientific)] *)
Definition formatDisplayForUI (name scientific : jsstring) : jsstring :=
  if isValidCommonName name then capitalizeWords name
  else if truthy scientific then
    match filter_nonempty (split space scientific) with
    | p0 :: p1 :: _ => capitalize p0 ++ [space] ++ toLowerCase p1
    | _ => capitalize scientific
    end
  else if truthy name then capitalizeWords name
  else js "Unknown Species".

End Names.
Import Names.

(* ================================================================= *)
(** ** The simulated world: clock, network, random draws *)

Module Env.

(** One vernacular entry of a GBIF record ([n.language], [n.lang],
    [n.vernacularName]). *)
Record VernName := {
  language : option jsstring;
  lang : option jsstring;
  vernacular : option jsstring
}.

(** The [vernacularName] field of a legacy occurrence record: absent, a
    string, or an array of entries. *)
Inductive VernField :=
| VFAbsent
| VFString (s : jsstring)
| VFArray (ns : list VernName).

(** A record of [data.results], with the fields the service reads. *)
Record GbifRecord := {
  rec_key : option N;
  rec_vernacularNames : option (list VernName);
  rec_vernacularName : VernField;
  rec_commonName : option jsstring;
  rec_scientificName : option jsstring;
  rec_canonicalName : option jsstring
}.

(** What [JSON.parse(responseText)] gives, as far as the service looks:
    a syntax error; a value on which reading or iterating [data.results]
    raises, with the message of that error; a value without [results]; the
    records; or an array that has a [null] after the records [before], so
    that the loop body raises at [species.key] when it reaches it, with the
    message of that error.  An element that is neither [null] nor an
    object reads as a record without fields. *)
Inductive Parsed :=
| ParseError
| DataMalformed (message : jsstring)
| DataNoResults
| DataResults (records : list GbifRecord)
| DataNullAt (before : list GbifRecord) (message : jsstring).

Record HttpResponse := {
  status : Z;
  statusText : jsstring;
  contentType : option jsstring;
  retryAfter : option jsstring;
  responseText : jsstring;
  parsed : Parsed
}.

(** [response.ok] *)
Definition ok (r : HttpResponse) : bool :=
  (200 <=? status r)%Z && (status r <=? 299)%Z.

(** The outcome of [await fetch(...)] followed by [await response.text()]:
    either one of them raises, or there is a response. *)
Inductive FetchResult :=
| NetworkError (message : jsstring)
| Response (r : HttpResponse).

(** The outcome of the request to the vernacular-names endpoint. *)
Inductive VernResult :=
| VernError
| VernNotOk
| VernOk (results : option (list VernName)).

Inductive Event :=
| Sleep (ms : Z)
| Request.

(** The world is scripted: the [i]-th network request is answered by
    [search i] or [vern i] after [latency i] milliseconds, and the [i]-th
    call of [Math.random] returns [random i].  [trace] logs timers and
    requests, most recent first. *)
Record World := {
  clock : Z;
  requests : nat;
  draws : nat;
  trace : list Event;
  search : nat -> FetchResult;
  vern : nat -> VernResult;
  latency : nat -> Z;
  random : nat -> Q
}.

Definition tick (ms : Z) (e : Event) (w : World) : World :=
  {| clock := (clock w + ms)%Z; requests := requests w; draws := draws w;
     trace := e :: trace w; search := search w; vern := vern w;
     latency := latency w; random := random w |}.

Definition sent (w : World) : World :=
  {| clock := clock w; requests := S (requests w); draws := draws w;
     trace := trace w; search := search w; vern := vern w;
     latency := latency w; random := random w |}.

(** [await sleep(ms)] *)
Definition sleep (ms : Z) (w : World) : World := tick ms (Sleep ms) w.

(** [await fetch(gbifUrl, ...)] and [await response.text()] *)
Definition fetch_search (w : World) : FetchResult * World :=
  (search w (requests w), sent (tick (latency w (requests w)) Request w)).

(** [await fetch(`.../vernacularNames?limit=10`, ...)] and its [json()] *)
Definition fetch_vern (w : World) : VernResult * World :=
  (vern w (requests w), sent (tick (latency w (requests w)) Request w)).

(** [Math.random()] *)
Definition draw (w : World) : Q * World :=
  (random w (draws w),
   {| clock := clock w; requests := requests w; draws := S (draws w);
      trace := trace w; search := search w; vern := vern w;
      latency := latency w; random := random w |}).

(** [Math.floor(Math.random() * n)] *)
Definition floor_scaled (r : Q) (n : Z) : Z := Qfloor (r * inject_Z n).

End Env.
Import Env.

(* ================================================================= *)
(** ** Service state *)

Module Service.

Record TaxonomicClass := {
  cls_name : jsstring;
  cls_key : N;
  cls_displayName : jsstring
}.

(** [this.taxonomicClasses] *)
Definition taxonomicClasses : list TaxonomicClass :=
  [ {| cls_name := js "birds"; cls_key := 212; cls_displayName := js "Birds" |};
    {| cls_name := js "mammals"; cls_key := 359; cls_displayName := js "Mammals" |};
    {| cls_name := js "fish"; cls_key := 204; cls_displayName := js "Fish" |};
    {| cls_name := js "reptiles"; cls_key := 358; cls_displayName := js "Reptiles" |};
    {| cls_name := js "amphibians"; cls_key := 131;
       cls_displayName := js "Amphibians" |} ].

(** [this.maxCacheSize] *)
Definition maxCacheSize : nat := 200.

(** Lookup of an own property of an object literal with string keys. *)
Fixpoint prop {A : Type} (o : list (jsstring * A)) (k : jsstring) : option A :=
  match o with
  | [] => None
  | (k', v) :: o' => if jsstring_eqb k' k then Some v else prop o' k
  end.

(** [this.globalFallbacks] *)
Definition globalFallbacks : list (jsstring * list jsstring) :=
  [ (js "birds", [js "House Sparrow"; js "Rock Dove"; js "European Starling";
                  js "House Finch"; js "American Robin"]);
    (js "mammals", [js "House Mouse"; js "Brown Rat"; js "Domestic Cat";
                    js "Domestic Dog"; js "White-tailed Deer"]);
    (js "fish", [js "Goldfish"; js "Carp"; js "Bass"; js "Trout"; js "Catfish"]);
    (js "reptiles", [js "House Gecko"; js "Green Anole"; js "Garter Snake";
                     js "Box Turtle"; js "Fence Lizard"]);
    (js "amphibians", [js "American Bullfrog"; js "Green Frog";
                       js "Spring Peeper"; js "Red-eared Slider"; js "Wood Frog"]) ].

(** [this.scientificToCommon] *)
Definition scientificToCommon : list (jsstring * jsstring) :=
  [ (js "Passer domesticus", js "House Sparrow");
    (js "Columba livia", js "Rock Dove");
    (js "Sturnus vulgaris", js "European Starling");
    (js "Haemorhous mexicanus", js "House Finch");
    (js "Turdus migratorius", js "American Robin");
    (js "Corvus brachyrhynchos", js "American Crow");
    (js "Poecile atricapillus", js "Black-capped Chickadee");
    (js "Sitta carolinensis", js "White-breasted Nuthatch");
    (js "Falco sparverius", js "American Kestrel");
    (js "Buteo jamaicensis", js "Red-tailed Hawk");
    (js "Mus musculus", js "House Mouse");
    (js "Rattus norvegicus", js "Brown Rat");
    (js "Felis catus", js "Domestic Cat");
    (js "Canis lupus", js "Gray Wolf");
    (js "Odocoileus virginianus", js "White-tailed Deer");
    (js "Procyon lotor", js "Raccoon");
    (js "Sciurus carolinensis", js "Eastern Gray Squirrel");
    (js "Tamias striatus", js "Eastern Chipmunk");
    (js "Anolis carolinensis", js "Green Anole");
    (js "Sceloporus undulatus", js "Fence Lizard");
    (js "Thamnophis sirtalis", js "Garter Snake");
    (js "Terrapene carolina", js "Box Turtle");
    (js "Lithobates catesbeianus", js "American Bullfrog");
    (js "Lithobates clamitans", js "Green Frog");
    (js "Pseudacris crucifer", js "Spring Peeper");
    (js "Anaxyrus americanus", js "American Toad");
    (js "Carassius auratus", js "Goldfish");
    (js "Cyprinus carpio", js "Common Carp");
    (js "Micropterus salmoides", js "Largemouth Bass");
    (js "Salmo trutta", js "Brown Trout") ].

(** [this.regionalFallbacks] *)
Definition regionalFallbacks : list (jsstring * list (jsstring * list jsstring)) :=
  [ (js "california",
      [ (js "birds", [js "Anna's Hummingbird"; js "California Scrub-Jay";
                      js "Western Bluebird"; js "Red-tailed Hawk"]);
        (js "mammals", [js "California Ground Squirrel"; js "Coyote";
                        js "Mule Deer"; js "Bobcat"]);
        (js "reptiles", [js "Western Fence Lizard"; js "Alligator Lizard";
                         js "Gopher Snake"; js "Rattlesnake"]) ]);
    (js "pacific_northwest",
      [ (js "birds", [js "Steller's Jay"; js "Dark-eyed Junco";
                      js "Pacific Wren"; js "Varied Thrush"]);
        (js "mammals", [js "Douglas Squirrel"; js "Black Bear"; js "Elk";
                        js "Raccoon"]);
        (js "fish", [js "Chinook Salmon"; js "Coho Salmon";
                     js "Steelhead Trout"; js "Pacific Cod"]) ]);
    (js "eastern_forests",
      [ (js "birds", [js "Blue Jay"; js "Cardinal"; js "Wood Thrush";
                      js "Pileated Woodpecker"]);
        (js "mammals", [js "Eastern Gray Squirrel"; js "White-tailed Deer";
                        js "Black Bear"; js "Raccoon"]);
        (js "amphibians", [js "Wood Frog"; js "Spring Peeper";
                           js "Red-backed Salamander"; js "American Toad"]) ]) ].

(** A species object as [fetchFromGBIF], [getRegionalFallback],
    [getGlobalFallback] and [cacheSpecies] build it.  These objects carry
    no [commonName] or [species] property; [lastUsed] is [None] until
    [cacheSpecies] sets it. *)
Record Species := {
  name : jsstring;
  scientificName : jsstring;
  type : jsstring;
  habitat : jsstring;
  source : jsstring;
  lastUsed : option Z
}.

Record CacheEntry := {
  species : list Species;
  timestamp : Z;
  location : Q * Q;
  seededByGBIF : bool
}.

Record CacheStats := { hits : nat; misses : nat; evictions : nat }.

(** [this.gbifCircuit]; [openUntil = None] is [NaN]. *)
Record Circuit := {
  open : bool;
  openUntil : option Z;
  lastOpenedReason : option jsstring;
  consecutiveFailures : Z
}.

(** [this.lastGBIFError], by the place that sets it. *)
Inductive GBIFError :=
| CircuitOpenError
| RateLimited (raw : jsstring) (retryAfterMs : option Z)
| UnexpectedContent (st : Z) (ct : jsstring) (raw : jsstring)
| NotOk (st : Z) (stText : jsstring) (raw : jsstring)
| InvalidJSON (st : Z) (raw : jsstring)
| Raised (message : jsstring).

(** A JS [Map] with string keys: the entries in insertion order. *)
Definition Map (V : Type) := list (jsstring * V).

Fixpoint map_get {V} (m : Map V) (k : jsstring) : option V :=
  match m with
  | [] => None
  | (k', v) :: m' => if jsstring_eqb k' k then Some v else map_get m' k
  end.

(** [m.set(k, v)]: an existing key keeps its position. *)
Fixpoint map_set {V} (m : Map V) (k : jsstring) (v : V) : Map V :=
  match m with
  | [] => [(k, v)]
  | (k', v') :: m' =>
      if jsstring_eqb k' k then (k', v) :: m' else (k', v') :: map_set m' k v
  end.

Fixpoint map_delete {V} (m : Map V) (k : jsstring) : Map V :=
  match m with
  | [] => []
  | (k', v') :: m' =>
      if jsstring_eqb k' k then m' else (k', v') :: map_delete m' k
  end.

Definition map_keys {V} (m : Map V) : list jsstring := List.map fst m.

Record State := {
  cache : Map CacheEntry;
  cacheStats : CacheStats;
  gbifCircuit : Circuit;
  lastGBIFError : option GBIFError;
  noRepeatDays : Z
}.

(** The state the constructor builds when [SPECIES_NO_REPEAT_DAYS] is
    unset. *)
Definition initial : State :=
  {| cache := [];
     cacheStats := {| hits := 0; misses := 0; evictions := 0 |};
     gbifCircuit := {| open := false; openUntil := Some 0%Z;
                       lastOpenedReason := None; consecutiveFailures := 0 |};
     lastGBIFError := None;
     noRepeatDays := 2 |}.

Definition set_cache (c : Map CacheEntry) (st : State) : State :=
  {| cache := c; cacheStats := cacheStats st; gbifCircuit := gbifCircuit st;
     lastGBIFError := lastGBIFError st; noRepeatDays := noRepeatDays st |}.

Definition set_stats (cs : CacheStats) (st : State) : State :=
  {| cache := cache st; cacheStats := cs; gbifCircuit := gbifCircuit st;
     lastGBIFError := lastGBIFError st; noRepeatDays := noRepeatDays st |}.

Definition set_circuit (g : Circuit) (st : State) : State :=
  {| cache := cache st; cacheStats := cacheStats st; gbifCircuit := g;
     lastGBIFError := lastGBIFError st; noRepeatDays := noRepeatDays st |}.

Definition set_error (e : option GBIFError) (st : State) : State :=
  {| cache := cache st; cacheStats := cacheStats st;
     gbifCircuit := gbifCircuit st; lastGBIFError := e;
     noRepeatDays := noRepeatDays st |}.

(** *** Location keys *)

(** The binary64 number nearest to a rational, ties to the even
    significand: 53 bits in the normal range, multiples of [2^-1074] below
    it.  Overflow to an infinity is not modelled. *)
Definition binary64 (x : Q) : Q :=
  let n := Z.abs (Qnum x) in
  let d := Zpos (Qden x) in
  if (n =? 0)%Z then 0%Q
  else
    let e0 := (Z.log2 n - Z.log2 d)%Z in
    let above :=
      if (0 <=? e0)%Z then (d * 2 ^ e0 <=? n)%Z else (d <=? n * 2 ^ (- e0))%Z in
    let e := if above then e0 else (e0 - 1)%Z in
    let q := Z.max (e - 52) (-1074) in
    let num := if (q <? 0)%Z then (n * 2 ^ (- q))%Z else n in
    let den := if (q <? 0)%Z then d else (d * 2 ^ q)%Z in
    let m := (num / den)%Z in
    let r := (num mod den)%Z in
    let m :=
      if (2 * r <? den)%Z then m
      else if (den <? 2 * r)%Z then (m + 1)%Z
      else if Z.even m then m else (m + 1)%Z in
    let m := if (Qnum x <? 0)%Z then (- m)%Z else m in
    if (q <? 0)%Z then Qmake m (Z.to_pos (2 ^ (- q)))
    else inject_Z (m * 2 ^ q).

(** [Math.round(x)]: the nearest integer, ties upwards. *)
Definition Math_round (x : Q) : Z := Qfloor (x + (1 # 2))%Q.

(** [Math.round(x * 100)] for the number [x]: a rational stands for the
    binary64 number nearest to it, and the product is rounded to binary64
    before [Math.round] sees it. *)
Definition rounded (x : Q) : Z := Math_round (binary64 (binary64 x * 100)).

Arguments binary64 : simpl never.
Arguments rounded : simpl never.
Strategy 100 [binary64].

Definition decimal (n : Z) : jsstring :=
  js (DecimalString.NilZero.string_of_int (Z.to_int n)).

(** The text of the number [h / 100], as the template literal prints the
    binary64 quotient: the decimal with at most two places ([0] for a
    negative zero), for [h] of up to 15 digits. *)
Definition render_hundredths (h : Z) : jsstring :=
  let a := Z.abs h in
  let whole := (a / 100)%Z in
  let frac := (a mod 100)%Z in
  (if (h <? 0)%Z then js "-" else [])
  ++ decimal whole
  ++ (if (frac =? 0)%Z then []
      else if (frac mod 10 =? 0)%Z then js "." ++ decimal (frac / 10)
      else if (frac <? 10)%Z then js ".0" ++ decimal frac
      else js "." ++ decimal frac).

(** [generateLocationKey(latitude, longitude, taxonomicClass)] *)
Definition generateLocationKey (latitude longitude : Q)
  (taxonomicClass : TaxonomicClass) : jsstring :=
  render_hundredths (rounded latitude) ++ js "_"
  ++ render_hundredths (rounded longitude) ++ js "_"
  ++ cls_name taxonomicClass.

(** [getCachedEntry(latitude, longitude, taxonomicClass)] *)
Definition getCachedEntry (latitude longitude : Q)
  (taxonomicClass : TaxonomicClass) (st : State) : option CacheEntry :=
  map_get (cache st) (generateLocationKey latitude longitude taxonomicClass).

(** [x.lastUsed || 0] *)
Definition lastUsed_or_0 (s : Species) : Z :=
  match lastUsed s with
  | Some z => z
  | None => 0%Z
  end.

(** The body of [species.map(s => ...)] in [cacheSpecies]. *)
Definition normalize (taxonomicClass : TaxonomicClass) (s : Species) : Species :=
  let rawName := name s in
  let cleaned := sanitizeDisplayName rawName in
  let cleaned :=
    if negb (isValidCommonName cleaned)
    then or_else (extractBinomial (scientificName s)) cleaned
    else cleaned in
  {| name := or_else (capitalizeWords cleaned) (name s);
     scientificName :=
       or_else (extractBinomial (scientificName s)) (scientificName s);
     type := if truthy (type s) then singularize (type s)
             else singularize (cls_name taxonomicClass);
     habitat := habitat s;
     source := source s;
     lastUsed := Some (lastUsed_or_0 s) |}.

(** The keys of the class: [key.endsWith(`_${taxonomicClass.name}`)] *)
Definition classKeys (taxonomicClass : TaxonomicClass) (c : Map CacheEntry)
  : list jsstring :=
  List.filter (fun key => endsWith key (js "_" ++ cls_name taxonomicClass))
    (map_keys c).

(** [cacheSpecies(latitude, longitude, taxonomicClass, species)], with
    [now] the value of [Date.now()]. *)
Definition cacheSpecies (now : Z) (latitude longitude : Q)
  (taxonomicClass : TaxonomicClass) (sp : list Species) (st : State) : State :=
  let cacheKey := generateLocationKey latitude longitude taxonomicClass in
  let keys := classKeys taxonomicClass (cache st) in
  let st :=
    if maxCacheSize <=? List.length keys then
      set_stats {| hits := hits (cacheStats st);
                   misses := misses (cacheStats st);
                   evictions := S (evictions (cacheStats st)) |}
        (set_cache
           match keys with
           | oldestKey :: _ => map_delete (cache st) oldestKey
           | [] => cache st
           end st)
    else st in
  let normalized := List.map (normalize taxonomicClass) sp in
  let seeded :=
    existsb (fun s => truthy (source s)
                      && startsWith (toLowerCase (source s)) (js "gbif"))
      normalized in
  set_cache
    (map_set (cache st) cacheKey
       {| species := normalized; timestamp := now;
          location := (latitude, longitude); seededByGBIF := seeded |})
    st.

(** [getCachedSpecies(latitude, longitude, taxonomicClass)]; [None] is
    [null]. *)
Definition getCachedSpecies (latitude longitude : Q)
  (taxonomicClass : TaxonomicClass) (st : State)
  : option (list Species) * State :=
  let stats := cacheStats st in
  match map_get (cache st)
          (generateLocationKey latitude longitude taxonomicClass) with
  | Some cached =>
      (Some (species cached),
       set_stats {| hits := S (hits stats); misses := misses stats;
                    evictions := evictions stats |} st)
  | None =>
      (None,
       set_stats {| hits := hits stats; misses := S (misses stats);
                    evictions := evictions stats |} st)
  end.

(** [this.locationChangeThreshold] *)
Definition locationChangeThreshold : Q := 0.01.

(** [hasLocationChanged(lat1, lng1, lat2, lng2)] *)
Definition hasLocationChanged (lat1 lng1 lat2 lng2 : Q) : bool :=
  let latDiff := Qabs (lat1 - lat2) in
  let lngDiff := Qabs (lng1 - lng2) in
  negb (Qle_bool latDiff locationChangeThreshold)
  || negb (Qle_bool lngDiff locationChangeThreshold).

(** One element of [details] in [getCacheStats]. *)
Record CacheDetail := {
  det_key : jsstring;
  det_count : nat;
  det_seededByGBIF : bool;
  det_timestamp : Z
}.

Record CacheReport := {
  totalEntries : nat;
  details : list CacheDetail
}.

(** [getCacheStats()] *)
Definition getCacheStats (st : State) : CacheReport :=
  let entries :=
    List.map
      (fun kv : jsstring * CacheEntry =>
         {| det_key := fst kv;
            det_count := List.length (species (snd kv));
            det_seededByGBIF := seededByGBIF (snd kv);
            det_timestamp := timestamp (snd kv) |})
      (cache st) in
  {| totalEntries := List.length entries; details := firstn 200 entries |}.

End Service.
Import Service.

(* ================================================================= *)
(** ** The GBIF client and its circuit breaker *)

Module Gbif.

Definition opt_truthy (o : option jsstring) : bool :=
  match o with Some s => truthy s | None => false end.

Definition opt_string (o : option jsstring) : jsstring :=
  match o with Some s => s | None => [] end.

Definition opt_is (o : option jsstring) (lit : jsstring) : bool :=
  match o with Some s => jsstring_eqb s lit | None => false end.

Fixpoint leading_digits (s : jsstring) : jsstring :=
  match s with
  | c :: s' => if is_digit c then c :: leading_digits s' else []
  | [] => []
  end.

(** [parseInt(s, 10)]; [None] is [NaN]. *)
Definition parseInt (s : jsstring) : option Z :=
  let s := drop_space s in
  let '(neg, s) :=
    match s with
    | c :: s' =>
        if (c =? 45)%N then (true, s')
        else if (c =? 43)%N then (false, s') else (false, s)
    | [] => (false, s)
    end in
  match leading_digits s with
  | [] => None
  | ds =>
      let v := fold_left (fun acc c => (acc * 10 + Z.of_N (c - 48))%Z) ds 0%Z in
      Some (if neg then (- v)%Z else v)
  end.

(** [inferHabitat(speciesName, animalType)] *)
Definition inferHabitat (speciesName animalType : jsstring) : jsstring :=
  let nm := toLowerCase speciesName in
  if includes nm (js "fish") || includes nm (js "salmon")
     || includes nm (js "trout") || includes nm (js "frog")
     || includes nm (js "turtle") || includes nm (js "duck")
  then js "aquatic"
  else if includes nm (js "wood") || includes nm (js "tree")
          || includes nm (js "forest")
  then js "forest"
  else if includes nm (js "house") || includes nm (js "city")
          || includes nm (js "urban")
  then js "urban"
  else
    match prop [ (js "birds", js "woodland"); (js "mammals", js "terrestrial");
                 (js "fish", js "freshwater"); (js "reptiles", js "terrestrial");
                 (js "amphibians", js "wetland"); (js "insects", js "terrestrial") ]
            animalType with
    | Some h => h
    | None => js "terrestrial"
    end.

(** Sanitize a vernacular name and keep it when it is a valid common
    name. *)
Definition valid_cleaned (raw : jsstring) : option jsstring :=
  let cleaned := sanitizeDisplayName raw in
  if isValidCommonName cleaned then Some cleaned else None.

Definition try_entry (found : option VernName) : option jsstring :=
  match found with
  | Some n => if opt_truthy (vernacular n)
              then valid_cleaned (opt_string (vernacular n)) else None
  | None => None
  end.

(** [for (const n of entries) { if (n && n.vernacularName) ... return }] *)
Fixpoint first_valid (entries : list VernName) : option jsstring :=
  match entries with
  | [] => None
  | n :: rest =>
      match (if opt_truthy (vernacular n)
             then valid_cleaned (opt_string (vernacular n)) else None) with
      | Some c => Some c
      | None => first_valid rest
      end
  end.

Definition or_opt {A} (a : option A) (b : option A) : option A :=
  match a with Some _ => a | None => b end.

(** [/^en/i.test(s)] *)
Definition english_like (s : jsstring) : bool :=
  match s with
  | e :: n :: _ =>
      ((e =? 101)%N || (e =? 69)%N) && ((n =? 110)%N || (n =? 78)%N)
  | _ => false
  end.

(** [getBestVernacular(record)] *)
Definition getBestVernacular (record : GbifRecord) : jsstring :=
  let from_names :=
    match rec_vernacularNames record with
    | Some names =>
        or_opt
          (try_entry
             (find (fun n => (opt_is (language n) (js "eng")
                              || opt_is (language n) (js "en"))
                             && opt_truthy (vernacular n)) names))
          (or_opt
             (try_entry
                (find (fun n => opt_truthy (language n)
                                && english_like (opt_string (language n))
                                && opt_truthy (vernacular n)) names))
             (first_valid names))
    | None => None
    end in
  let from_legacy :=
    match rec_vernacularName record with
    | VFString s => if truthy s then valid_cleaned s else None
    | VFArray names =>
        or_opt
          (try_entry
             (find (fun n => (opt_is (language n) (js "en")
                              || (opt_truthy (lang n) && opt_is (lang n) (js "en")))
                             && opt_truthy (vernacular n)) names))
          (first_valid names)
    | VFAbsent => None
    end in
  let from_common :=
    if opt_truthy (rec_commonName record)
    then valid_cleaned (opt_string (rec_commonName record)) else None in
  match or_opt from_names (or_opt from_legacy from_common) with
  | Some c => c
  | None => []
  end.

(** [`GBIF-${radius}km`] *)
Definition gbif_source (radius : Z) : jsstring :=
  js "GBIF-" ++ decimal radius ++ js "km".

(** The request to the vernacular-names endpoint for a record without a
    usable name ([if (!display && species.key && seen.size < 20)]). *)
Definition vernacular_lookup (rec : GbifRecord) (display : jsstring)
  (seen : Map Species) (w : World) : jsstring * World :=
  let key_truthy :=
    match rec_key rec with Some k => negb (k =? 0)%N | None => false end in
  if negb (truthy display) && key_truthy && (List.length seen <? 20)
  then
    let w := sleep 100 w in
    let '(res, w) := fetch_vern w in
    match res with
    | VernOk (Some results) =>
        match find (fun v => opt_is (language v) (js "eng")
                             && opt_truthy (vernacular v)
                             && isValidCommonName
                                  (sanitizeDisplayName (opt_string (vernacular v))))
                results with
        | Some englishName =>
            (sanitizeDisplayName (opt_string (vernacular englishName)), w)
        | None => (display, w)
        end
    | _ => (display, w)
    end
  else (display, w).

(** The rest of the loop body: the entry added to [seen], if any. *)
Definition remember (taxonomicClass : TaxonomicClass) (radius : Z)
  (rec : GbifRecord) (display : jsstring) (seen : Map Species) : Map Species :=
  let rawScientific :=
    or_else (opt_string (rec_scientificName rec))
      (opt_string (rec_canonicalName rec)) in
  let scientific := extractBinomial rawScientific in
  let display :=
    if negb (truthy display) && truthy scientific then
      match prop scientificToCommon scientific with
      | Some common => if truthy common then common else display
      | None => display
      end
    else display in
  let cleanedDisplay :=
    if truthy display then sanitizeDisplayName display else [] in
  let cleanedDisplay :=
    if negb (isValidCommonName cleanedDisplay) then scientific
    else cleanedDisplay in
  if negb (truthy cleanedDisplay) then seen
  else
    let key := toLowerCase cleanedDisplay in
    match map_get seen key with
    | Some _ => seen
    | None =>
        map_set seen key
          {| name := capitalizeWords (sanitizeDisplayName cleanedDisplay);
             scientificName := scientific;
             type := singularize (cls_name taxonomicClass);
             habitat := inferHabitat cleanedDisplay (cls_name taxonomicClass);
             source := gbif_source radius;
             lastUsed := None |}
    end.

(** The body of [for (const species of data.results.slice(0, 50))]: one
    record, the [seen] map and the world. *)
Definition process_record (taxonomicClass : TaxonomicClass) (radius : Z)
  (rec : GbifRecord) (seen : Map Species) (w : World) : Map Species * World :=
  let '(display, w) :=
    vernacular_lookup rec (getBestVernacular rec) seen w in
  (remember taxonomicClass radius rec display seen, w).

Fixpoint process_records (taxonomicClass : TaxonomicClass) (radius : Z)
  (recs : list GbifRecord) (seen : Map Species) (w : World)
  : Map Species * World :=
  match recs with
  | [] => (seen, w)
  | rec :: rest =>
      let '(seen, w) := process_record taxonomicClass radius rec seen w in
      process_records taxonomicClass radius rest seen w
  end.

(** The post-processing [species.map(...).filter(...)]. *)
Definition post_process (taxonomicClass : TaxonomicClass) (radius : Z)
  (s : Species) : Species :=
  let binomial := extractBinomial (or_else (scientificName s) (name s)) in
  let cleanedCommon := sanitizeDisplayName (name s) in
  let cleanedCommon :=
    if negb (isValidCommonName cleanedCommon) && truthy binomial then
      match prop scientificToCommon binomial with
      | Some common => if truthy common then common else cleanedCommon
      | None => cleanedCommon
      end
    else cleanedCommon in
  let finalDisplay := formatDisplayForUI cleanedCommon binomial in
  {| name := finalDisplay;
     scientificName := binomial;
     type := singularize (or_else (type s) (cls_name taxonomicClass));
     habitat := or_else (habitat s)
                  (inferHabitat finalDisplay (cls_name taxonomicClass));
     source := or_else (source s) (gbif_source radius);
     lastUsed := None |}.

Definition finish (taxonomicClass : TaxonomicClass) (radius : Z)
  (seen : Map Species) : list Species :=
  List.filter
    (fun s => truthy (name s)
              && negb (jsstring_eqb (toLowerCase (name s)) (js "unknown species")))
    (List.map (post_process taxonomicClass radius)
       (firstn 200 (List.map snd seen))).

Definition maxRetries : Z := 3.

Definition set_failures (n : Z) (g : Circuit) : Circuit :=
  {| open := open g; openUntil := openUntil g;
     lastOpenedReason := lastOpenedReason g; consecutiveFailures := n |}.

(** [Math.min(retryAfterMs + 5000, 1000 * 60 * 10)] *)
Definition open_ms (retryAfterMs : option Z) : option Z :=
  match retryAfterMs with
  | Some ms => Some (Z.min (ms + 5000) (1000 * 60 * 10))
  | None => None
  end.

(** The [catch (err)] block of an attempt. *)
Definition caught (attempt : Z) (message : jsstring) (st : State) (w : World)
  : State * World :=
  (set_error (Some (Raised message)) st,
   if (attempt <? maxRetries)%Z then sleep (1000 * attempt) w else w).

(** [retryAfter ? parseInt(retryAfter, 10) * 1000 : (1000 * 60)] *)
Definition retryAfterMs (r : HttpResponse) : option Z :=
  if opt_truthy (retryAfter r)
  then option_map (fun n => n * 1000)%Z (parseInt (opt_string (retryAfter r)))
  else Some (1000 * 60)%Z.

(** The [if (response.status === 429)] block: the state it leaves, with
    [now] the value of [Date.now()]. *)
Definition on_rate_limit (r : HttpResponse) (now : Z) (st : State) : State :=
  let st :=
    set_error
      (Some (RateLimited (firstn 512 (responseText r)) (retryAfterMs r))) st in
  let g := gbifCircuit st in
  set_circuit
    {| open := true;
       openUntil := option_map (Z.add now) (open_ms (retryAfterMs r));
       lastOpenedReason :=
         Some (js "429 rate limit: retry-after "
               ++ match retryAfter r with
                  | Some h => h
                  | None => js "null"
                  end);
       consecutiveFailures := (consecutiveFailures g + 1)%Z |} st.

(** [this.gbifCircuit.consecutiveFailures += 1] *)
Definition count_failure (st : State) : State :=
  set_circuit
    (set_failures (consecutiveFailures (gbifCircuit st) + 1) (gbifCircuit st)) st.

(** The [if (this.gbifCircuit.consecutiveFailures >= 2)] block. *)
Definition open_if_repeated (now : Z) (st : State) : State :=
  let g := gbifCircuit st in
  if (2 <=? consecutiveFailures g)%Z then
    set_circuit
      {| open := true;
         openUntil := Some (now + 1000 * 60 * 2)%Z;
         lastOpenedReason := Some (js "Repeated 5xx errors");
         consecutiveFailures := consecutiveFailures g |} st
  else st.

(** The [for (let attempt = 1; attempt <= maxRetries; attempt++)] loop of
    [fetchFromGBIF]; [left] is the number of attempts that remain. *)
Fixpoint attempts (left : nat) (attempt : Z) (taxonomicClass : TaxonomicClass)
  (radius : Z) (st : State) (w : World) : list Species * State * World :=
  match left with
  | O => ([], st, w)
  | S left' =>
      let w := sleep 250 w in
      let '(res, w) := fetch_search w in
      match res with
      | NetworkError message =>
          let '(st, w) := caught attempt message st w in
          attempts left' (attempt + 1) taxonomicClass radius st w
      | Response r =>
          let raw := firstn 512 (responseText r) in
          let ct := opt_string (contentType r) in
          if (status r =? 429)%Z then
            ([], on_rate_limit r (clock w) st, w)
          else if startsWith (trim (responseText r)) (js "<")
                  || negb (includes ct (js "application/json")) then
            ([], set_error (Some (UnexpectedContent (status r) ct raw)) st, w)
          else if negb (ok r) then
            let st := set_error (Some (NotOk (status r) (statusText r) raw)) st in
            if (500 <=? status r)%Z && (attempt <? maxRetries)%Z then
              let waitMs := (1000 * 2 ^ attempt)%Z in
              let '(rnd, w) := draw w in
              let jitter := floor_scaled rnd 250 in
              let w := sleep (waitMs + jitter) w in
              let st := count_failure st in
              attempts left' (attempt + 1) taxonomicClass radius st w
            else
              ([], open_if_repeated (clock w) st, w)
          else
            match parsed r with
            | ParseError =>
                ([], set_error (Some (InvalidJSON (status r) raw)) st, w)
            | DataMalformed message =>
                let '(st, w) := caught attempt message st w in
                attempts left' (attempt + 1) taxonomicClass radius st w
            | DataNoResults =>
                (finish taxonomicClass radius [], set_error None st, w)
            | DataResults records =>
                let '(seen, w) :=
                  process_records taxonomicClass radius (firstn 50 records) [] w in
                (finish taxonomicClass radius seen, set_error None st, w)
            | DataNullAt before message =>
                if (50 <=? List.length before)%nat then
                  let '(seen, w) :=
                    process_records taxonomicClass radius (firstn 50 before) [] w in
                  (finish taxonomicClass radius seen, set_error None st, w)
                else
                  let '(_, w) :=
                    process_records taxonomicClass radius before [] w in
                  let '(st, w) := caught attempt message st w in
                  attempts left' (attempt + 1) taxonomicClass radius st w
            end
      end
  end.

(** [x > y] and [x <= y] on numbers where [x] may be [NaN]. *)
Definition num_gt (x : option Z) (y : Z) : bool :=
  match x with Some a => (y <? a)%Z | None => false end.
Definition num_le (x : option Z) (y : Z) : bool :=
  match x with Some a => (a <=? y)%Z | None => false end.

(** The reset of the circuit once [openUntil] has passed. *)
Definition close_circuit (st : State) : State :=
  set_circuit
    {| open := false; openUntil := openUntil (gbifCircuit st);
       lastOpenedReason := None; consecutiveFailures := 0 |} st.

(** [fetchFromGBIF(latitude, longitude, taxonomicClass, radius)].  The
    coordinates only reach the log (through the ecoregion), so they are not
    arguments here. *)
Definition fetchFromGBIF (taxonomicClass : TaxonomicClass) (radius : Z)
  (st : State) (w : World) : list Species * State * World :=
  let st := set_error None st in
  let now := clock w in
  let g := gbifCircuit st in
  if open g && num_gt (openUntil g) now then
    ([], set_error (Some CircuitOpenError) st, w)
  else
    let st :=
      if open g && num_le (openUntil g) now then close_circuit st else st in
    attempts (Z.to_nat maxRetries) 1 taxonomicClass radius st w.

End Gbif.
Import Gbif.

(* ================================================================= *)
(** ** The fallback cascade *)

Module Cascade.

Definition between (lo x hi : Q) : bool := Qle_bool lo x && Qle_bool x hi.

(** The region of [getRegionalFallback]. *)
Definition region_of (latitude longitude : Q) : jsstring :=
  if between 32 latitude 42 && between (-125) longitude (-114)
  then js "california"
  else if between 42 latitude 49 && between (-125) longitude (-116)
  then js "pacific_northwest"
  else if between 25 latitude 47 && between (-100) longitude (-66)
  then js "eastern_forests"
  else js "default".

(** [getRegionalFallback(latitude, longitude, animalType)] *)
Definition getRegionalFallback (latitude longitude : Q) (animalType : jsstring)
  : list Species :=
  let region := region_of latitude longitude in
  match prop regionalFallbacks region with
  | Some regionalData =>
      match prop regionalData animalType with
      | Some names =>
          List.map
            (fun nm =>
               let clean :=
                 or_else (sanitizeDisplayName nm)
                   (or_else (extractBinomial nm) nm) in
               {| name := capitalizeWords clean;
                  scientificName := extractBinomial nm;
                  type := singularize animalType;
                  habitat := inferHabitat nm animalType;
                  source := js "regional-" ++ region;
                  lastUsed := None |})
            names
      | None => []
      end
  | None => []
  end.

(** [getGlobalFallback(animalType)].  A class name that is not a key of
    [globalFallbacks] gets the birds. *)
Definition getGlobalFallback (animalType : jsstring) : list Species :=
  let globalSpecies :=
    match prop globalFallbacks animalType with
    | Some names => names
    | None =>
        match prop globalFallbacks (js "birds") with
        | Some names => names
        | None => []
        end
    end in
  List.map
    (fun nm =>
       {| name := capitalizeWords
                    (or_else (sanitizeDisplayName nm)
                       (or_else (extractBinomial nm) nm));
          scientificName := extractBinomial nm;
          type := singularize animalType;
          habitat := inferHabitat nm animalType;
          source := js "global-fallback";
          lastUsed := None |})
    globalSpecies.

(** [arr.slice(0, count)] for an integer [count]. *)
Definition slice0 {A} (l : list A) (count : Z) : list A :=
  if (0 <=? count)%Z then firstn (Z.to_nat count) l
  else firstn (List.length l - Z.to_nat (- count)) l.

(** [arr.length >= count] *)
Definition at_least {A} (l : list A) (count : Z) : bool :=
  (count <=? Z.of_nat (List.length l))%Z.

(** [getSpeciesForClass(latitude, longitude, taxonomicClass, count)] *)
Definition getSpeciesForClass (latitude longitude : Q)
  (taxonomicClass : TaxonomicClass) (count : Z) (st : State) (w : World)
  : list Species * State * World :=
  let cached :=
    match getCachedEntry latitude longitude taxonomicClass st with
    | Some e => match species e with [] => None | _ => Some e end
    | None => None
    end in
  match cached with
  | Some cachedEntry => (slice0 (species cachedEntry) count, st, w)
  | None =>
      let '(sp, st, w) := fetchFromGBIF taxonomicClass 50 st w in
      if at_least sp count then
        (sp, cacheSpecies (clock w) latitude longitude taxonomicClass sp st, w)
      else
        let '(sp, st, w) := fetchFromGBIF taxonomicClass 200 st w in
        if at_least sp count then
          (sp, cacheSpecies (clock w) latitude longitude taxonomicClass sp st, w)
        else
          let regionalSpecies :=
            getRegionalFallback latitude longitude (cls_name taxonomicClass) in
          let sp :=
            match regionalSpecies with
            | [] => sp
            | _ => sp ++ regionalSpecies
            end in
          if match regionalSpecies with [] => false | _ => at_least sp count end
          then
            (sp, cacheSpecies (clock w) latitude longitude taxonomicClass sp st, w)
          else
            let globalSpecies := getGlobalFallback (cls_name taxonomicClass) in
            let sp := sp ++ globalSpecies in
            (sp, cacheSpecies (clock w) latitude longitude taxonomicClass sp st, w)
  end.

(** One element of the array [getSpeciesForMeditation] returns when no
    type is requested. *)
Record ClassResult := {
  res_type : jsstring;
  res_species : list Species;
  res_count : nat;
  res_source : jsstring
}.

Inductive MeditationResult :=
| ForType (sp : list Species)
| ForAll (results : list ClassResult).

(** The [for (const taxonomicClass of classesToFetch)] loop. *)
Fixpoint fetch_classes (latitude longitude : Q)
  (classesToFetch : list TaxonomicClass) (count : Z) (st : State) (w : World)
  : list ClassResult * State * World :=
  match classesToFetch with
  | [] => ([], st, w)
  | taxonomicClass :: rest =>
      let '(sp, st, w) :=
        getSpeciesForClass latitude longitude taxonomicClass count st w in
      let result :=
        {| res_type := cls_name taxonomicClass;
           res_species := slice0 sp count;
           res_count := List.length sp;
           res_source := match sp with
                         | s :: _ => or_else (source s) (js "fallback")
                         | [] => js "fallback"
                         end |} in
      let '(results, st, w) := fetch_classes latitude longitude rest count st w in
      (result :: results, st, w)
  end.

(** [getSpeciesForMeditation(latitude, longitude, animalType, count)];
    [animalType = None] is [null].  Nothing in the [try] block raises in
    this model, so the [catch] branch ([getEmergencyFallback]) does not
    appear. *)
Definition getSpeciesForMeditation (latitude longitude : Q)
  (animalType : option jsstring) (count : Z) (st : State) (w : World)
  : MeditationResult * State * World :=
  let requested := opt_truthy animalType in
  let classesToFetch :=
    if requested
    then List.filter
           (fun cls => jsstring_eqb (cls_name cls) (opt_string animalType))
           taxonomicClasses
    else taxonomicClasses in
  let '(results, st, w) :=
    fetch_classes latitude longitude classesToFetch count st w in
  (if requested
   then ForType match results with
                | r :: _ => res_species r
                | [] => []
                end
   else ForAll results, st, w).

(** The object [getEcoregionFromCoordinates] returns. *)
Record Ecoregion := {
  eco_name : jsstring;
  eco_code : jsstring;
  eco_state : jsstring
}.

Definition ecoregion (n c s : string) : Ecoregion :=
  {| eco_name := js n; eco_code := js c; eco_state := js s |}.

(** [getEcoregionFromCoordinates(latitude, longitude)] *)
Definition getEcoregionFromCoordinates (latitude longitude : Q) : Ecoregion :=
  if between 40.5 latitude 49.5 && between (-124.7) longitude (-121.5)
  then ecoregion "Marine West Coast Forest" "1" "Washington"
  else if between 40 latitude 49 && between (-123) longitude (-120)
  then ecoregion "Cascades" "9" "Oregon"
  else if between 35.5 latitude 40 && between (-121) longitude (-118.5)
  then ecoregion "Sierra Nevada" "5" "California"
  else if between 34 latitude 38.5 && between (-123) longitude (-119)
  then ecoregion "Central California Foothills" "6" "California"
  else if between 35 latitude 40 && between (-122) longitude (-119)
  then ecoregion "Central California Valley" "7" "California"
  else if between 32.5 latitude 35.5 && between (-119) longitude (-116)
  then ecoregion "Southern California Mountains" "8" "California"
  else if between 33.5 latitude 38 && between (-118) longitude (-114)
  then ecoregion "Mojave Basin and Range" "14" "California"
  else if between 36 latitude 49 && between (-104) longitude (-96)
  then ecoregion "Great Plains" "92" "Nebraska"
  else if between 40 latitude 43.5 && between (-96) longitude (-90)
  then ecoregion "Western Corn Belt Plains" "93" "Iowa"
  else if between 28.5 latitude 33.5 && between (-97.5) longitude (-95.5)
  then ecoregion "Texas Blackland Prairies" "94" "Texas"
  else if between 30 latitude 35 && between (-98) longitude (-92)
  then ecoregion "South Central Plains" "95" "Texas"
  else if between 30 latitude 37 && between (-92) longitude (-82)
  then ecoregion "Southeastern Plains" "96" "Virginia"
  else if between 35 latitude 40.5 && between (-80) longitude (-74)
  then ecoregion "Middle Atlantic Coastal Plain" "97" "Virginia"
  else if between 43.5 latitude 47.5 && between (-71) longitude (-67)
  then ecoregion "Northern Appalachian/Boreal Forest" "98" "Maine"
  else if between 40 latitude 45 && between (-80) longitude (-73)
  then ecoregion "Mixed Wood Plains" "99" "New York"
  else if between 25.8 latitude 36.5 && between (-106.6) longitude (-93.5)
  then ecoregion "Texas" "TX" "Texas"
  else if between 32.5 latitude 42 && between (-124.5) longitude (-114)
  then ecoregion "California" "CA" "California"
  else ecoregion "Unknown" "00" "".

(** [getStateFromCoordinates(latitude, longitude)] *)
Definition getStateFromCoordinates (latitude longitude : Q) : jsstring :=
  eco_state (getEcoregionFromCoordinates latitude longitude).

(** One element of the array [getEmergencyFallback] returns when no type
    is given; [em_count] is the [count] argument itself. *)
Record EmergencyClass := {
  em_type : jsstring;
  em_species : list Species;
  em_count : Z;
  em_source : jsstring
}.

Inductive EmergencyResult :=
| EmergencyForType (sp : list Species)
| EmergencyForAll (results : list EmergencyClass).

(** [getEmergencyFallback(animalType, count)] *)
Definition getEmergencyFallback (animalType : option jsstring) (count : Z)
  : EmergencyResult :=
  if opt_truthy animalType
  then EmergencyForType
         (slice0 (getGlobalFallback (opt_string animalType)) count)
  else EmergencyForAll
         (List.map
            (fun cls =>
               {| em_type := cls_name cls;
                  em_species := slice0 (getGlobalFallback (cls_name cls)) count;
                  em_count := count;
                  em_source := js "emergency-fallback" |})
            taxonomicClasses).

End Cascade.
Import Cascade.

(* ================================================================= *)
(** ** Selection with the no-repeat window *)

Module Selection.

(** [s => !s.lastUsed || (now - s.lastUsed) >= twoDaysMs] *)
Definition eligible (now twoDaysMs : Z) (s : Species) : bool :=
  match lastUsed s with
  | None => true
  | Some t => (t =? 0)%Z || (twoDaysMs <=? now - t)%Z
  end.

(** Stable insertion for the comparator
    [(a, b) => (a.lastUsed || 0) - (b.lastUsed || 0)]. *)
Fixpoint insert_by_lastUsed (a : Species) (l : list Species) : list Species :=
  match l with
  | [] => [a]
  | b :: l' =>
      if (lastUsed_or_0 a <=? lastUsed_or_0 b)%Z then a :: l
      else b :: insert_by_lastUsed a l'
  end.

(** [species.slice().sort(...)]; [Array.prototype.sort] is stable. *)
Definition sort_by_lastUsed (l : list Species) : list Species :=
  fold_right insert_by_lastUsed [] l.

(** [species.findIndex(s => String(s.name).toLowerCase() === key)] and the
    assignment [species[foundIdx].lastUsed = now]. *)
Fixpoint stamp (key : jsstring) (now : Z) (l : list Species) : list Species :=
  match l with
  | [] => []
  | s :: l' =>
      if jsstring_eqb (toLowerCase (name s)) key
      then {| name := name s; scientificName := scientificName s;
              type := type s; habitat := habitat s; source := source s;
              lastUsed := Some now |} :: l'
      else s :: stamp key now l'
  end.

(** The cache-entry branch of [selectSpecies]: the candidate that is
    chosen from a non-empty [cacheEntry.species], and the entry with the
    stamp.  [None] when the drawn index is outside the array (the source
    then raises and returns [getFallbackSpecies()]). *)
Definition choose (now twoDaysMs : Z) (entry : CacheEntry) (w : World)
  : option (Species * CacheEntry) * World :=
  let unused := List.filter (eligible now twoDaysMs) (species entry) in
  let '(candidate, w) :=
    match unused with
    | _ :: _ =>
        let '(r, w) := draw w in
        let i := floor_scaled r (Z.of_nat (List.length unused)) in
        (if (0 <=? i)%Z then nth_error unused (Z.to_nat i) else None, w)
    | [] => (hd_error (sort_by_lastUsed (species entry)), w)
    end in
  match candidate with
  | Some c =>
      (Some (c, {| species := stamp (toLowerCase (name c)) now (species entry);
                   timestamp := timestamp entry;
                   location := location entry;
                   seededByGBIF := seededByGBIF entry |}), w)
  | None => (None, w)
  end.

Record Selected := {
  sel_name : jsstring;
  sel_scientificName : jsstring;
  sel_type : jsstring
}.

(** [getFallbackSpecies()] *)
Definition getFallbackSpecies : Selected :=
  {| sel_name := js "Anna's Hummingbird";
     sel_scientificName := js "Calypte anna";
     sel_type := js "bird" |}.

(** The class that [animalType] names, singular or plural. *)
Definition matches_class (requested : jsstring) (cls : TaxonomicClass) : bool :=
  let clsName := toLowerCase (cls_name cls) in
  jsstring_eqb clsName requested
  || (endsWith clsName (js "s") && jsstring_eqb (removelast clsName) requested)
  || (endsWith requested (js "s") && jsstring_eqb (removelast requested) clsName)
  || jsstring_eqb (toLowerCase (cls_displayName cls)) requested.

(** The object [selectSpecies] returns for a candidate. *)
Definition format_selected (targetClass : TaxonomicClass) (candidate : Species)
  : Selected :=
  let displaySanitized :=
    or_else (capitalizeWords (sanitizeDisplayName (name candidate)))
      (js "Unknown Species") in
  let scientificSanitized :=
    if truthy (scientificName candidate)
    then extractBinomial (scientificName candidate)
    else js "Unknown" in
  {| sel_name := displaySanitized;
     sel_scientificName := or_else scientificSanitized (js "Unknown");
     sel_type := singularize (cls_name targetClass) |}.

(** The part of [selectSpecies] that follows the choice of [targetClass]:
    the species list, the candidate and the stamp.  The returned object is
    built from the candidate chosen first; the later re-assignment of
    [candidate] on a type mismatch does not reach it.  The candidate chosen
    is returned next to the formatted object. *)
Definition select_in_class (latitude longitude : Q)
  (targetClass : TaxonomicClass) (st : State) (w : World)
  : (Selected * option Species) * State * World :=
  let '(speciesList, st, w) :=
    getSpeciesForClass latitude longitude targetClass 50 st w in
  match speciesList with
  | [] => ((getFallbackSpecies, None), st, w)
  | _ :: _ =>
      let twoDaysMs := (noRepeatDays st * 24 * 60 * 60 * 1000)%Z in
      let now := clock w in
      let usable :=
        match getCachedEntry latitude longitude targetClass st with
        | Some e => match species e with [] => None | _ => Some e end
        | None => None
        end in
      match usable with
      | Some cacheEntry =>
          match choose now twoDaysMs cacheEntry w with
          | (Some (candidate, stamped), w) =>
              ((format_selected targetClass candidate, Some candidate),
               set_cache
                 (map_set (cache st)
                    (generateLocationKey latitude longitude targetClass)
                    stamped) st,
               w)
          | (None, w) => ((getFallbackSpecies, None), st, w)
          end
      | None =>
          let '(r, w) := draw w in
          let i := floor_scaled r (Z.of_nat (List.length speciesList)) in
          let st :=
            cacheSpecies (clock w) latitude longitude targetClass
              speciesList st in
          match (if (0 <=? i)%Z then nth_error speciesList (Z.to_nat i)
                 else None) with
          | Some candidate =>
              ((format_selected targetClass candidate, Some candidate), st, w)
          | None => ((getFallbackSpecies, None), st, w)
          end
      end
  end.

(** [selectSpecies({ latitude, longitude, preferences })], with
    [animalType = preferences?.speciesType]. *)
Definition selectSpecies (latitude longitude : Q) (animalType : option jsstring)
  (st : State) (w : World) : (Selected * option Species) * State * World :=
  let targetClass :=
    if opt_truthy animalType
    then find (matches_class (toLowerCase (opt_string animalType)))
           taxonomicClasses
    else None in
  let '(targetClass, w) :=
    match targetClass with
    | Some c => (Some c, w)
    | None =>
        let '(r, w) := draw w in
        let i := floor_scaled r (Z.of_nat (List.length taxonomicClasses)) in
        (if (0 <=? i)%Z then nth_error taxonomicClasses (Z.to_nat i) else None, w)
    end in
  match targetClass with
  | None => ((getFallbackSpecies, None), st, w)
  | Some targetClass => select_in_class latitude longitude targetClass st w
  end.

End Selection.
Import Selection.

(* ================================================================= *)
(** ** Vocabulary of the statements

    The predicates, read-off functions and sample inputs that the
    lemmas below are stated with. *)

Local Open Scope nat_scope.

(** The length of the longest prefix inside the class. *)
Fixpoint run (c : N -> bool) (s : jsstring) : nat :=
  match s with
  | x :: s' => if c x then S (run c s') else 0
  | [] => 0
  end.

(** [s.replace(/[c]+/g, by)] read off directly. *)
Fixpoint squeeze (c : N -> bool) (by_ : jsstring) (in_run : bool)
  (s : jsstring) : jsstring :=
  match s with
  | [] => []
  | x :: s' =>
      if c x then
        (if in_run then squeeze c by_ true s' else by_ ++ squeeze c by_ true s')
      else x :: squeeze c by_ false s'
  end.

(** [s.replace(/[c]+$/g, '')] read off directly. *)
Fixpoint strip (c : N -> bool) (s : jsstring) : jsstring :=
  match s with
  | [] => []
  | x :: s' => if forallb c s then [] else x :: strip c s'
  end.

Definition no_space (s : jsstring) : Prop :=
  Forall (fun x => is_space x = false) s.

Definition raw_bullfrog : jsstring := js "Lithobates catesbeianus, (Shaw, 1802)".

(** A world without network: every request raises. *)
Definition offline : World :=
  {| clock := 1700000000000; requests := 0; draws := 0; trace := [];
     search := fun _ => NetworkError (js "fetch failed");
     vern := fun _ => VernError;
     latency := fun _ => 0%Z;
     random := fun _ => 0%Q |}.

(** The entry that [getSpeciesForClass] treats as a cache hit. *)
Definition cache_hit (latitude longitude : Q) (cls : TaxonomicClass)
  (st : State) : Prop :=
  exists e, getCachedEntry latitude longitude cls st = Some e /\ species e <> [].

Definition birds : TaxonomicClass :=
  {| cls_name := js "birds"; cls_key := 212; cls_displayName := js "Birds" |}.

Local Open Scope Z_scope.

(** The world after the 250 ms pause and the request of one attempt. *)
Definition after_request (w : World) : World := snd (fetch_search (sleep 250 w)).

(** The world after a failed attempt that is retried: the request, the
    draw of the jitter and the backoff sleep. *)
Definition after_backoff (attempt : Z) (w : World) : World :=
  let w1 := after_request w in
  sleep (1000 * 2 ^ attempt + floor_scaled (fst (draw w1)) 250) (snd (draw w1)).

(** A 5xx response with a JSON content type and a body that is not
    markup: the case of the [if (!response.ok)] block. *)
Definition server_error (r : HttpResponse) : Prop :=
  500 <= status r
  /\ startsWith (trim (responseText r)) (js "<") = false
  /\ includes (opt_string (contentType r)) (js "application/json") = true.

Definition not_ok_error (r : HttpResponse) : option GBIFError :=
  Some (NotOk (status r) (statusText r) (firstn 512 (responseText r))).

(** A circuit that a 429 opened at 1 700 000 000 000 for 35 s. *)
Definition tripped : State :=
  set_circuit
    {| open := true; openUntil := Some 1700000035000;
       lastOpenedReason := Some (js "429 rate limit: retry-after 30");
       consecutiveFailures := 1 |} initial.

Definition json_response (code : Z) (ra : option jsstring) (p : Parsed)
  : HttpResponse :=
  {| status := code; statusText := [];
     contentType := Some (js "application/json");
     retryAfter := ra; responseText := js "{}"; parsed := p |}.

(** A world whose every reply is a 429 with [retry-after: 30]. *)
Definition throttled : World :=
  {| clock := 1700000000000; requests := 0; draws := 0; trace := [];
     search := fun _ => Response (json_response 429 (Some (js "30")) ParseError);
     vern := fun _ => VernError;
     latency := fun _ => 120;
     random := fun _ => 0%Q |}.

(** A world whose every reply is a 503 with a JSON body. *)
Definition failing : World :=
  {| clock := 1700000000000; requests := 0; draws := 0; trace := [];
     search := fun _ => Response (json_response 503 None ParseError);
     vern := fun _ => VernError;
     latency := fun _ => 120;
     random := fun _ => (1 # 2)%Q |}.

(** A 200 JSON response whose records are parsed and returned. *)
Definition success_reply (r : HttpResponse) : Prop :=
  status r <> 429
  /\ startsWith (trim (responseText r)) (js "<") = false
  /\ includes (opt_string (contentType r)) (js "application/json") = true
  /\ ok r = true
  /\ (parsed r = DataNoResults \/ exists records, parsed r = DataResults records).

Definition house_sparrow_record : GbifRecord :=
  {| rec_key := Some 5231190%N;
     rec_vernacularNames :=
       Some [ {| language := Some (js "eng"); lang := None;
                 vernacular := Some (js "House Sparrow") |} ];
     rec_vernacularName := VFAbsent;
     rec_commonName := None;
     rec_scientificName := Some (js "Passer domesticus (Linnaeus, 1758)");
     rec_canonicalName := Some (js "Passer domesticus") |}.

(** A world whose first reply is a 503 and whose later replies are 200
    with one record. *)
Definition recovering : World :=
  {| clock := 1700000000000; requests := 0; draws := 0; trace := [];
     search := fun i =>
       match i with
       | O => Response (json_response 503 None ParseError)
       | S _ => Response (json_response 200 None
                            (DataResults [house_sparrow_record]))
       end;
     vern := fun _ => VernError;
     latency := fun _ => 120;
     random := fun _ => (1 # 2)%Q |}.

Local Open Scope nat_scope.

(** The entry [cacheSpecies] writes. *)
Definition new_entry (now : Z) (latitude longitude : Q) (cls : TaxonomicClass)
  (sp : list Species) : CacheEntry :=
  let normalized := List.map (normalize cls) sp in
  {| species := normalized; timestamp := now;
     location := (latitude, longitude);
     seededByGBIF :=
       existsb (fun s => truthy (source s)
                         && startsWith (toLowerCase (source s)) (js "gbif"))
         normalized |}.

(** The cache after the eviction step of [cacheSpecies]. *)
Definition after_eviction (cls : TaxonomicClass) (c : Map CacheEntry)
  : Map CacheEntry :=
  if maxCacheSize <=? List.length (classKeys cls c) then
    match classKeys cls c with
    | oldestKey :: _ => map_delete c oldestKey
    | [] => c
    end
  else c.

(** Every key is unique and every class holds at most [maxCacheSize]
    keys. *)
Definition cache_ok (c : Map CacheEntry) : Prop :=
  NoDup (map_keys c)
  /\ forall cls, In cls taxonomicClasses ->
       List.length (classKeys cls c) <= maxCacheSize.

(** All keys of a well-formed cache are generated keys of the five
    classes. *)
Definition generated (k : jsstring) : Prop :=
  exists latitude longitude cls,
    In cls taxonomicClasses /\ k = generateLocationKey latitude longitude cls.

Definition cache_inv (c : Map CacheEntry) : Prop :=
  cache_ok c /\ Forall generated (map_keys c).

(** The states of a service: it starts with an empty cache and then runs
    its operations, in any order and in any world. *)
Inductive reachable : State -> Prop :=
| reach_new st :
    cache st = [] -> reachable st
| reach_cacheSpecies st now latitude longitude cls sp :
    reachable st -> In cls taxonomicClasses ->
    reachable (cacheSpecies now latitude longitude cls sp st)
| reach_fetchFromGBIF st cls radius w :
    reachable st ->
    reachable (snd (fst (fetchFromGBIF cls radius st w)))
| reach_getSpeciesForClass st latitude longitude cls count w :
    reachable st -> In cls taxonomicClasses ->
    reachable (snd (fst (getSpeciesForClass latitude longitude cls count st w)))
| reach_getSpeciesForMeditation st latitude longitude animalType count w :
    reachable st ->
    reachable (snd (fst (getSpeciesForMeditation latitude longitude animalType
                           count st w)))
| reach_selectSpecies st latitude longitude animalType w :
    reachable st ->
    reachable (snd (fst (selectSpecies latitude longitude animalType st w))).

(** One call of [cacheSpecies]: the time, the coordinates, the species. *)
Definition Put : Type := Z * Q * Q * list Species.

Definition put (cls : TaxonomicClass) (st : State) (a : Put) : State :=
  let '(now, latitude, longitude, sp) := a in
  cacheSpecies now latitude longitude cls sp st.

Definition key_of (cls : TaxonomicClass) (a : Put) : jsstring :=
  let '(_, latitude, longitude, _) := a in
  generateLocationKey latitude longitude cls.

Fixpoint distinct (l : list jsstring) : bool :=
  match l with
  | [] => true
  | x :: l' => negb (existsb (jsstring_eqb x) l') && distinct l'
  end.

(** Clusters one hundredth of a degree apart along the meridian. *)
Definition cluster (i : nat) : Put :=
  (1700000000000%Z, (inject_Z (Z.of_nat i) / 100)%Q, 0%Q, []).

Local Open Scope Z_scope.


(** The lower-cased name, the key [findIndex] compares. *)
Definition lname (s : Species) : jsstring := toLowerCase (name s).







Local Open Scope nat_scope.

(** Whether the last code unit is in the class. *)
Fixpoint last_in (c : N -> bool) (s : jsstring) : bool :=
  match s with
  | [] => false
  | x :: s' => match s' with [] => c x | _ :: _ => last_in c s' end
  end.

Definition nonspace_head (s : jsstring) : Prop :=
  match s with [] => True | h :: _ => is_space h = false end.

(** Every white-space code unit is a single U+0020 followed by something
    that is not white space. *)
Fixpoint spaced (s : jsstring) : Prop :=
  match s with
  | [] => True
  | x :: s' => (is_space x = true -> x = space /\ nonspace_head s') /\ spaced s'
  end.

Definition no_digit (s : jsstring) : Prop := Forall (fun x => is_digit x = false) s.

Definition name_chars (s : jsstring) : Prop :=
  Forall (fun x => is_name_char x = true) s.

(** The shape of a non-empty result: no digit, only name characters, single
    interior spaces, no trailing punctuation, at least two code units. *)
Definition clean (y : jsstring) : Prop :=
  no_digit y /\ name_chars y /\ spaced y /\ nonspace_head y
  /\ last_in is_trailing_punct y = false /\ 2 <= List.length y.

Local Open Scope nat_scope.

(** A word of a binomial: not empty, without U+0020. *)
Definition plain_word (w : jsstring) : Prop :=
  w <> [] /\ Forall (fun x => (x =? space)%N = false) w.

(** The five singular class names. *)
Definition singular_names : list jsstring :=
  [js "bird"; js "mammal"; js "fish"; js "reptile"; js "amphibian"].

(** The string keys that every object literal inherits from
    [Object.prototype]; [prop] looks up own properties only, so a lookup by
    one of these names is outside the model. *)
Definition inherited_names : list jsstring :=
  [js "constructor"; js "__proto__"; js "hasOwnProperty"; js "isPrototypeOf";
   js "propertyIsEnumerable"; js "toLocaleString"; js "toString";
   js "valueOf"; js "__defineGetter__"; js "__defineSetter__";
   js "__lookupGetter__"; js "__lookupSetter__"].

(** A fallback candidate: a valid common name, the singular of the
    requested class as its type, never used. *)
Definition candidate_of (animalType src : jsstring) (s : Species) : Prop :=
  isValidCommonName (name s) = true
  /\ type s = singularize animalType
  /\ source s = src
  /\ lastUsed s = None.

(** A species as [fetchFromGBIF] returns it for a class and a radius. *)
Definition gbif_result (cls : TaxonomicClass) (radius : Z) (s : Species)
  : Prop :=
  name s <> []
  /\ toLowerCase (name s) <> js "unknown species"
  /\ type s = singularize (cls_name cls)
  /\ source s = gbif_source radius
  /\ lastUsed s = None.

(** The entries of [seen] carry the class and the source of the call. *)
Definition seen_entry (cls : TaxonomicClass) (radius : Z) (s : Species) : Prop :=
  type s = singularize (cls_name cls) /\ source s = gbif_source radius.

Local Open Scope Z_scope.

(** A reply that ends the call at once without being a rate limit: markup
    or a content type other than JSON, whatever the status, or a 2xx reply
    whose body [JSON.parse] rejects. *)
Definition unusable_reply (r : HttpResponse) : Prop :=
  status r <> 429
  /\ (startsWith (trim (responseText r)) (js "<") = true
      \/ includes (opt_string (contentType r)) (js "application/json") = false
      \/ (ok r = true /\ parsed r = ParseError)).

(** The error [fetchFromGBIF] records for an unusable reply. *)
Definition content_error (r : HttpResponse) : GBIFError :=
  if startsWith (trim (responseText r)) (js "<")
     || negb (includes (opt_string (contentType r)) (js "application/json"))
  then UnexpectedContent (status r) (opt_string (contentType r))
         (firstn 512 (responseText r))
  else InvalidJSON (status r) (firstn 512 (responseText r)).

(** A 503 with an HTML body, as a proxy sends it. *)
Definition gateway_page : HttpResponse :=
  {| status := 503; statusText := js "Service Unavailable";
     contentType := Some (js "text/html");
     retryAfter := None;
     responseText := js "<html><body>503</body></html>";
     parsed := ParseError |}.

Definition behind_proxy : World :=
  {| clock := 1700000000000; requests := 0; draws := 0; trace := [];
     search := fun _ => Response gateway_page;
     vern := fun _ => VernError;
     latency := fun _ => 120;
     random := fun _ => 0%Q |}.

(** A world whose every reply is a 429 with an HTTP date in
    [retry-after]. *)
Definition throttled_until_date : World :=
  {| clock := 1700000000000; requests := 0; draws := 0; trace := [];
     search := fun _ =>
       Response (json_response 429 (Some (js "Wed, 21 Oct 2026 07:28:00 GMT"))
                   ParseError);
     vern := fun _ => VernError;
     latency := fun _ => 120;
     random := fun _ => 0%Q |}.

Local Open Scope nat_scope.

(** Two worlds that run the same script of replies, latencies and random
    numbers. *)
Definition same_script (w w' : World) : Prop :=
  search w' = search w /\ vern w' = vern w
  /\ latency w' = latency w /\ random w' = random w.

(** The entry that a lookup may use: present, with species. *)
Definition usable_entry (latitude longitude : Q) (cls : TaxonomicClass)
  (st : State) : option CacheEntry :=
  match getCachedEntry latitude longitude cls st with
  | Some e => match species e with [] => None | _ => Some e end
  | None => None
  end.

(** One element of the answer for all classes: species are there, no more
    than requested, and [count] is the size of the list they were cut
    from. *)
Definition class_result_ok (count : Z) (r : ClassResult) : Prop :=
  res_species r <> []
  /\ (Z.of_nat (List.length (res_species r)) <= count)%Z
  /\ List.length (res_species r) <= res_count r
  /\ res_source r <> [].


(** The habitats [inferHabitat] knows. *)
Definition habitats : list jsstring :=
  [js "aquatic"; js "forest"; js "urban"; js "woodland"; js "terrestrial";
   js "freshwater"; js "wetland"].

Local Open Scope Z_scope.

(** The fractional part of a rendered number of hundredths. *)
Definition frac_text (frac : Z) : jsstring :=
  if frac =? 0 then []
  else if frac mod 10 =? 0 then js "." ++ decimal (frac / 10)
  else if frac <? 10 then js ".0" ++ decimal frac
  else js "." ++ decimal frac.

Definition hundredths : list Z := List.map Z.of_nat (seq 0 100).

(** Nothing, or a dot followed by digits. *)
Definition dot_digits (t : jsstring) : bool :=
  match t with
  | [] => true
  | c :: r => (c =? 46)%N && forallb is_digit r
  end.

Definition no_digit_head (t : jsstring) : Prop :=
  match t with [] => True | c :: _ => is_digit c = false end.

Local Open Scope nat_scope.

Local Open Scope Z_scope.

(** A JSON reply with a status outside 2xx and below 500, not a 429. *)
Definition client_error (r : HttpResponse) : Prop :=
  status r <> 429 /\ status r < 500 /\ ok r = false
  /\ startsWith (trim (responseText r)) (js "<") = false
  /\ includes (opt_string (contentType r)) (js "application/json") = true.

(** A world whose every reply is a 404 with a JSON body. *)
Definition not_found : World :=
  {| clock := 1700000000000; requests := 0; draws := 0; trace := [];
     search := fun _ => Response (json_response 404 None ParseError);
     vern := fun _ => VernError;
     latency := fun _ => 120;
     random := fun _ => 0%Q |}.

Local Open Scope nat_scope.

(** The hundredth-of-a-degree cell of a coordinate in exact arithmetic. *)
Definition round100 (x : Q) : Z := Qfloor (x * 100 + (1 # 2))%Q.

Local Open Scope Q_scope.

(** A latitude and a longitude in degrees. *)
Definition on_globe (latitude longitude : Q) : Prop :=
  (-90 <= latitude /\ latitude <= 90) /\ (-180 <= longitude /\ longitude <= 180).

Local Open Scope nat_scope.

(** Code units of Basic Latin only, on which the case mappings of the
    model are those of the code. *)
Definition ascii_only (s : jsstring) : Prop := Forall (fun c => (c < 128)%N) s.

Local Open Scope Z_scope.

(** The first candidate, in the order of the list, among those with the
    smallest [lastUsed]: what [lru[0]] is after the stable sort. *)
Definition first_min (c : Species) (l : list Species) : Prop :=
  exists pre post,
    l = pre ++ c :: post
    /\ (forall s, In s pre -> lastUsed_or_0 c < lastUsed_or_0 s)
    /\ (forall s, In s post -> lastUsed_or_0 c <= lastUsed_or_0 s).





Local Open Scope nat_scope.

Local Open Scope Z_scope.

(** A record with a key and no name of any kind. *)
Definition keyed_record : GbifRecord :=
  {| rec_key := Some 1%N; rec_vernacularNames := None;
     rec_vernacularName := VFAbsent; rec_commonName := None;
     rec_scientificName := None; rec_canonicalName := None |}.

(** A world whose every search reply is a 200 with 49 such records and
    then a [null], and whose vernacular lookups fail. *)
Definition nulls : World :=
  {| clock := 1700000000000; requests := 0; draws := 0; trace := [];
     search := fun _ =>
       Response (json_response 200 None
                   (DataNullAt (List.repeat keyed_record 49)
                      (js "Cannot read properties of null (reading 'key')")));
     vern := fun _ => VernError;
     latency := fun _ => 120;
     random := fun _ => 0%Q |}.

Local Open Scope nat_scope.

(* ================================================================= *)
(** ** Properties of the regular-expression engine *)

Local Open Scope nat_scope.

Section RegexFacts.

Variable r : regex.
Variable by_ : jsstring.

(** Replacing only ever copies code units of the input or of the
    replacement. *)
Lemma replace_go_Forall (P : N -> Prop) :
  Forall P by_ ->
  forall s prev skip, Forall P s -> Forall P (replace_go r by_ prev s skip).
Proof.
  intros Hby s; induction s as [|x s IH]; intros prev skip Hs; simpl.
  - destruct skip; [destruct (match_at r prev [])|]; auto.
  - inversion Hs; subst.
    destruct skip as [|m]; [|auto].
    destruct (match_at r prev (x :: s)) as [[|m]|].
    + apply Forall_app; split; auto.
    + apply Forall_app; split; auto.
    + constructor; auto.
Qed.

Lemma replace_all_Forall (P : N -> Prop) s :
  Forall P by_ -> Forall P s -> Forall P (replace_all r by_ s).
Proof. intros; apply replace_go_Forall; assumption. Qed.

(** Where the expression matches at no position of a string whose code
    units all satisfy [Q], the replacement leaves the string as it is. *)
Lemma replace_go_id (Q : N -> Prop) :
  (forall p s, Forall Q s -> match_at r p s = None) ->
  forall s prev, Forall Q s -> replace_go r by_ prev s 0 = s.
Proof.
  intros Hno s; induction s as [|x s IH]; intros prev Hs; simpl.
  - rewrite Hno; auto.
  - rewrite (Hno _ _ Hs). inversion Hs; subst. f_equal; auto.
Qed.

End RegexFacts.

(** A match needs its continuation to succeed somewhere. *)
Lemma star_fail (Q : N -> Prop) c (k : cont) :
  (forall p s n, Forall Q s -> k p s n = None) ->
  forall s p n, Forall Q s -> star c p s n k = None.
Proof.
  intros Hk s; induction s as [|x s IH]; intros p n Hs; simpl; auto.
  inversion Hs; subst.
  destruct (c x); auto. rewrite IH; auto.
Qed.

Lemma rep_fail (Q : N -> Prop) c (k : cont) :
  (forall p s n, Forall Q s -> k p s n = None) ->
  forall hi lo s p n, Forall Q s -> rep c lo hi p s n k = None.
Proof.
  intros Hk hi; induction hi as [|hi IH]; intros lo s p n Hs; simpl.
  - destruct (Nat.eqb lo 0); auto.
  - assert (Hstop : (if Nat.eqb lo 0 then k p s n else None) = None)
      by (destruct (Nat.eqb lo 0); auto).
    destruct s as [|x s]; auto.
    inversion Hs; subst.
    destruct (c x); auto. rewrite IH; auto.
Qed.

Lemma rmatch_fail (Q : N -> Prop) :
  forall r (k : cont),
    (forall p s n, Forall Q s -> k p s n = None) ->
    forall s p n, Forall Q s -> rmatch r p s n k = None.
Proof.
  induction r as [|c|r1 IH1 r2 IH2|r1 IH1 r2 IH2|r1 IH1|c|c lo hi| |];
    intros k Hk s p n Hs; simpl.
  - auto.
  - destruct s as [|x s]; auto. inversion Hs; subst. destruct (c x); auto.
  - apply IH1; auto.
  - rewrite IH1; auto.
  - rewrite IH1; auto.
  - eapply star_fail; eauto.
  - eapply rep_fail; eauto.
  - destruct (xorb _ _); auto.
  - destruct s; auto.
Qed.

(** *** Replacement by a character class, a run of a class, a trailing run *)

Section ClassFacts.

Variable c : N -> bool.

Lemma star_accept s : forall p n, star c p s n accept = Some (n + run c s).
Proof.
  induction s as [|x s IH]; intros p n; simpl.
  - unfold accept; f_equal; lia.
  - destruct (c x).
    + rewrite IH. f_equal; lia.
    + unfold accept; f_equal; lia.
Qed.

Lemma match_at_cls p s :
  match_at (Cls c) p s =
  match s with x :: _ => if c x then Some 1 else None | [] => None end.
Proof. destruct s; reflexivity. Qed.

Lemma replace_cls by_ s :
  forall p, replace_go (Cls c) by_ p s 0
            = flat_map (fun x => if c x then by_ else [x]) s.
Proof.
  induction s as [|x s IH]; intros p; simpl.
  - reflexivity.
  - rewrite match_at_cls. destruct (c x); rewrite IH; reflexivity.
Qed.

Lemma replace_cls_delete s :
  replace_all (Cls c) [] s = filter (fun x => negb (c x)) s.
Proof.
  unfold replace_all. rewrite replace_cls.
  induction s as [|x s IH]; simpl; auto.
  destruct (c x); simpl; rewrite IH; reflexivity.
Qed.

Lemma match_at_plus p s :
  match_at (plus c) p s =
  match s with
  | x :: s' => if c x then Some (S (run c s')) else None
  | [] => None
  end.
Proof.
  destruct s as [|x s]; [reflexivity|].
  unfold match_at, plus; simpl. destruct (c x); auto.
  apply star_accept.
Qed.

Lemma replace_plus by_ s :
  forall p, replace_go (plus c) by_ p s 0 = squeeze c by_ false s
            /\ replace_go (plus c) by_ p s (run c s) = squeeze c by_ true s.
Proof.
  induction s as [|x s IH]; intros p.
  - cbn [replace_go squeeze run]. rewrite match_at_plus. auto.
  - assert (H0 : replace_go (plus c) by_ p (x :: s) 0
                 = squeeze c by_ false (x :: s)).
    { cbn [replace_go squeeze]. rewrite match_at_plus.
      destruct (c x).
      - f_equal. apply IH.
      - f_equal. apply IH. }
    split; [exact H0|].
    cbn [run]. destruct (c x) eqn:E.
    + cbn [replace_go squeeze]. rewrite E. apply IH.
    + rewrite H0. cbn [squeeze]. rewrite E. reflexivity.
Qed.

Lemma star_eos s :
  forall p n,
    star c p s n (fun p' s' n' => rmatch Eos p' s' n' accept)
    = if forallb c s then Some (n + List.length s) else None.
Proof.
  induction s as [|x s IH]; intros p n; simpl.
  - unfold accept; f_equal; lia.
  - destruct (c x); simpl; auto.
    rewrite IH. destruct (forallb c s); auto; f_equal; lia.
Qed.

Lemma match_at_trailing p s :
  match_at (Seq (plus c) Eos) p s =
  if forallb c s then
    match s with [] => None | _ :: _ => Some (List.length s) end
  else None.
Proof.
  destruct s as [|x s]; [reflexivity|].
  unfold match_at, plus; simpl. destruct (c x); simpl; auto.
  rewrite star_eos. destruct (forallb c s); auto.
Qed.

Lemma replace_go_skip_all r by_ :
  (forall p, match_at r p [] = None) ->
  forall s p, replace_go r by_ p s (List.length s) = [].
Proof.
  intros Hno s; induction s as [|x s IH]; intros p; simpl.
  - rewrite Hno; reflexivity.
  - apply IH.
Qed.

Lemma replace_trailing s :
  forall p, replace_go (Seq (plus c) Eos) [] p s 0 = strip c s.
Proof.
  induction s as [|x s IH]; intros p.
  - reflexivity.
  - cbn [replace_go strip]. rewrite match_at_trailing.
    destruct (forallb c (x :: s)).
    + cbn [List.length app]. apply replace_go_skip_all.
      intros q. rewrite match_at_trailing. reflexivity.
    + f_equal. apply IH.
Qed.

End ClassFacts.

(* ================================================================= *)
(** ** Strings without white space *)

Lemma drop_space_no_space s : no_space s -> drop_space s = s.
Proof.
  destruct s as [|x s]; intros H; [reflexivity|].
  inversion H as [|? ? Hx _]; subst. simpl. rewrite Hx. reflexivity.
Qed.

Lemma trim_no_space s : no_space s -> trim s = s.
Proof.
  intros H. unfold trim. rewrite (drop_space_no_space H).
  rewrite drop_space_no_space.
  - apply rev_involutive.
  - apply Forall_rev. exact H.
Qed.

Lemma split_no_sep sep s :
  Forall (fun x => (x =? sep)%N = false) s -> split sep s = [s].
Proof.
  induction s as [|x s IH]; intros H; [reflexivity|].
  inversion H as [|? ? Hx Hs]; subst. simpl. rewrite Hx, (IH Hs). reflexivity.
Qed.

Lemma spaces_id_no_space s : no_space s -> replace_all re_spaces [space] s = s.
Proof.
  intros H. unfold replace_all.
  apply replace_go_id with (Q := fun x => is_space x = false); [|exact H].
  intros p t Ht. unfold re_spaces. rewrite match_at_plus.
  destruct t as [|x t]; [reflexivity|].
  inversion Ht as [|? ? Hx _]; subst. rewrite Hx. reflexivity.
Qed.

(** [extractBinomial] gives the empty string for an input without white
    space: a single word is never presented as a binomial. *)
Lemma extractBinomial_single_word x :
  no_space x -> extractBinomial x = [].
Proof.
  intros H. unfold extractBinomial.
  destruct (truthy x); [|reflexivity]. cbn [negb].
  set (s := replace_all re_year [] (replace_all re_parenthetical [] x)).
  assert (Hs : no_space s).
  { unfold s, no_space. apply replace_all_Forall; [constructor|].
    apply replace_all_Forall; [constructor|exact H]. }
  rewrite (spaces_id_no_space Hs), (trim_no_space Hs).
  rewrite split_no_sep.
  - simpl. destruct (truthy s); reflexivity.
  - unfold no_space in Hs. rewrite Forall_forall in *. intros c Hc.
    specialize (Hs c Hc). unfold space.
    destruct (N.eqb_spec c 32); [subst; discriminate|reflexivity].
Qed.

(* ================================================================= *)
(** ** C9: the bullfrog example *)

(** C9.  On the raw input "Lithobates catesbeianus, (Shaw, 1802)",
    [sanitizeDisplayName] gives "Lithobates catesbeianus", a string without
    digits and without parentheses, but [extractBinomial] gives
    "Lithobates catesbeianus," with the comma that preceded the parenthesis,
    not the binomial "Lithobates catesbeianus". *)
Theorem extractBinomial_bullfrog_keeps_comma :
  sanitizeDisplayName raw_bullfrog = js "Lithobates catesbeianus"
  /\ forallb (fun x => negb (is_digit x) && negb (x =? lparen)%N
                       && negb (x =? rparen)%N)
       (sanitizeDisplayName raw_bullfrog) = true
  /\ extractBinomial raw_bullfrog = js "Lithobates catesbeianus,"
  /\ extractBinomial raw_bullfrog <> js "Lithobates catesbeianus".
Proof.
  repeat split; try (vm_compute; reflexivity).
  vm_compute. discriminate.
Qed.

(* ================================================================= *)
(** ** C10: the public entry point and unknown type names *)

Lemma filter_none {A} (f : A -> bool) l :
  (forall x, In x l -> f x = false) -> List.filter f l = [].
Proof.
  induction l as [|a l IH]; intros H; [reflexivity|].
  simpl. rewrite (H a (or_introl eq_refl)). apply IH.
  intros x Hx. apply H. right. exact Hx.
Qed.

(** The empty string is a non-null type that is none of the five class
    names, yet [getSpeciesForMeditation] then fetches all five classes and
    returns their five result objects. *)
Lemma meditation_empty_type_fetches_all :
  ~ In [] (List.map cls_name taxonomicClasses)
  /\ (let '(res, _, w') :=
        getSpeciesForMeditation 0 0 (Some []) 5 initial offline in
      res <> ForType []
      /\ (exists results, res = ForAll results /\ List.length results = 5)
      /\ requests w' = 30).
Proof.
  split.
  - vm_compute. intuition discriminate.
  - vm_compute. repeat split; try discriminate.
    eexists; split; reflexivity.
Qed.

(** C10 (amended).  With a non-empty [animalType] that is none of the five
    class names, [getSpeciesForMeditation] returns the empty list and
    leaves the service state and the world as they were: no class is
    fetched, no fallback tier runs. *)
Theorem meditation_unknown_type_empty
  (latitude longitude : Q) (animalType : jsstring) (count : Z)
  (st : State) (w : World) :
  animalType <> [] ->
  ~ In animalType (List.map cls_name taxonomicClasses) ->
  getSpeciesForMeditation latitude longitude (Some animalType) count st w
  = (ForType [], st, w).
Proof.
  intros Hne Hnot. unfold getSpeciesForMeditation.
  assert (Ht : opt_truthy (Some animalType) = true)
    by (destruct animalType; [contradiction|reflexivity]).
  rewrite Ht.
  assert (Hf : List.filter
                 (fun cls => jsstring_eqb (cls_name cls)
                               (opt_string (Some animalType)))
                 taxonomicClasses = []).
  { apply filter_none. intros cls Hin. cbn [opt_string].
    unfold jsstring_eqb.
    destruct (list_eq_dec N.eq_dec (cls_name cls) animalType) as [E|E];
      [|reflexivity].
    exfalso. apply Hnot. rewrite <- E. apply in_map. exact Hin. }
  rewrite Hf. reflexivity.
Qed.

Lemma meditation_unknown_type_empty_witness :
  getSpeciesForMeditation 0 0 (Some (js "bird")) 5 initial offline
  = (ForType [], initial, offline).
Proof.
  apply meditation_unknown_type_empty.
  - vm_compute; discriminate.
  - vm_compute. intuition discriminate.
Defined.

(* ================================================================= *)
(** ** C1: the cascade never returns an empty list *)

Lemma getGlobalFallback_length cls :
  In cls taxonomicClasses ->
  List.length (getGlobalFallback (cls_name cls)) = 5.
Proof.
  intros Hin. unfold getGlobalFallback. rewrite length_map.
  repeat (destruct Hin as [<-|Hin]; [reflexivity|]). destruct Hin.
Qed.

Lemma at_least_nonempty {A} (l : list A) count :
  (1 <= count)%Z -> at_least l count = true -> l <> [].
Proof.
  unfold at_least. intros Hc H. apply Z.leb_le in H.
  destruct l; [simpl in H; lia|discriminate].
Qed.

Lemma slice0_nonempty {A} (l : list A) count :
  (1 <= count)%Z -> l <> [] -> slice0 l count <> [].
Proof.
  unfold slice0. intros Hc Hl.
  destruct (Z.leb_spec 0 count); [|lia].
  destruct l as [|a l]; [contradiction|].
  destruct (Z.to_nat count) eqn:E; [lia|discriminate].
Qed.

(** C1.  For every latitude and longitude, each of the five classes and
    every [count >= 1], [getSpeciesForClass] returns a non-empty list; and
    on a cache miss the list either has at least [count] elements or ends
    with the global table of the class, which has five names. *)
Theorem getSpeciesForClass_nonempty
  (latitude longitude : Q) (cls : TaxonomicClass) (count : Z)
  (st : State) (w : World) :
  In cls taxonomicClasses ->
  (1 <= count)%Z ->
  let sp := fst (fst (getSpeciesForClass latitude longitude cls count st w)) in
  sp <> []
  /\ (~ cache_hit latitude longitude cls st ->
      at_least sp count = true
      \/ exists upstream, sp = upstream ++ getGlobalFallback (cls_name cls))
  /\ List.length (getGlobalFallback (cls_name cls)) = 5.
Proof.
  intros Hin Hc sp.
  pose proof (getGlobalFallback_length Hin) as Hg.
  assert (Hgne : forall l, l ++ getGlobalFallback (cls_name cls) <> []).
  { intros l E. apply app_eq_nil in E. destruct E as [_ E].
    rewrite E in Hg. discriminate. }
  subst sp. unfold getSpeciesForClass.
  destruct (getCachedEntry latitude longitude cls st) as [e|] eqn:Ee.
  - destruct (species e) as [|s0 l0] eqn:Es.
    + clear Ee Es.
      destruct (fetchFromGBIF cls 50 st w) as [[sp1 st1] w1].
      destruct (at_least sp1 count) eqn:E1; cbn [fst].
      { repeat split; auto. eapply at_least_nonempty; eauto. }
      destruct (fetchFromGBIF cls 200 st1 w1) as [[sp2 st2] w2].
      destruct (at_least sp2 count) eqn:E2; cbn [fst].
      { repeat split; auto. eapply at_least_nonempty; eauto. }
      destruct (getRegionalFallback latitude longitude (cls_name cls))
        as [|r0 rl] eqn:Er; cbn [fst].
      { repeat split; eauto. }
      destruct (at_least (sp2 ++ r0 :: rl) count) eqn:E3; cbn [fst].
      { repeat split; auto. eapply at_least_nonempty; eauto. }
      repeat split; eauto.
    + cbn [fst]. repeat split; auto.
      * apply slice0_nonempty; [exact Hc|]. rewrite Es. discriminate.
      * intros Hmiss. exfalso. apply Hmiss. exists e. split; auto.
        rewrite Es; discriminate.
  - destruct (fetchFromGBIF cls 50 st w) as [[sp1 st1] w1].
    destruct (at_least sp1 count) eqn:E1; cbn [fst].
    { repeat split; auto. eapply at_least_nonempty; eauto. }
    destruct (fetchFromGBIF cls 200 st1 w1) as [[sp2 st2] w2].
    destruct (at_least sp2 count) eqn:E2; cbn [fst].
    { repeat split; auto. eapply at_least_nonempty; eauto. }
    destruct (getRegionalFallback latitude longitude (cls_name cls))
      as [|r0 rl] eqn:Er; cbn [fst].
    { repeat split; eauto. }
    destruct (at_least (sp2 ++ r0 :: rl) count) eqn:E3; cbn [fst].
    { repeat split; auto. eapply at_least_nonempty; eauto. }
    repeat split; eauto.
Qed.

Lemma getSpeciesForClass_nonempty_witness :
  fst (fst (getSpeciesForClass 0 (-160) birds 5 initial offline)) <> [].
Proof.
  apply (@getSpeciesForClass_nonempty 0 (-160) birds 5 initial offline).
  - left; reflexivity.
  - lia.
Defined.

(* ================================================================= *)
(** ** The circuit breaker *)

Local Open Scope Z_scope.

Lemma vernacular_lookup_requests rec display seen w :
  (requests w <= requests (snd (vernacular_lookup rec display seen w)))%nat.
Proof.
  unfold vernacular_lookup.
  destruct (negb (truthy display) && _ && _)%bool; [|simpl; lia].
  cbn [fetch_vern]. destruct (vern _ _) as [| |[results|]]; try (simpl; lia).
  destruct (find _ results); simpl; lia.
Qed.

Lemma process_records_requests cls radius recs :
  forall seen w,
    (requests w
     <= requests (snd (process_records cls radius recs seen w)))%nat.
Proof.
  induction recs as [|rec recs IH]; intros seen w; [simpl; lia|].
  cbn [process_records]. unfold process_record.
  pose proof (vernacular_lookup_requests rec (getBestVernacular rec) seen w) as H.
  destruct (vernacular_lookup rec (getBestVernacular rec) seen w) as [d w1].
  cbn [snd] in H. etransitivity; [exact H|apply IH].
Qed.

(** Every attempt sends its request: a call that reaches the retry loop
    performs network I/O. *)
Lemma attempts_requests cls radius left :
  forall attempt st w,
    (requests w + (match left with O => 0 | S _ => 1 end)
     <= requests (snd (attempts left attempt cls radius st w)))%nat.
Proof.
  induction left as [|left IH]; intros attempt st w; [simpl; lia|].
  assert (Hrec : forall a st' w', (S (requests w) <= requests w')%nat ->
            (requests w + 1
             <= requests (snd (attempts left a cls radius st' w')))%nat).
  { intros a st' w' Hw. specialize (IH a st' w').
    destruct left; lia. }
  cbn [attempts fetch_search].
  destruct (search _ _) as [message|r].
  - unfold caught. destruct (attempt <? maxRetries); apply Hrec; simpl; lia.
  - destruct (status r =? 429); [simpl; lia|].
    destruct (_ || _)%bool; [simpl; lia|].
    destruct (negb (ok r)).
    + destruct (_ && _)%bool; [apply Hrec; simpl; lia|simpl; lia].
    + destruct (parsed r) as [|message| |records|before message];
        try (simpl; lia).
      * unfold caught. destruct (attempt <? maxRetries); apply Hrec; simpl; lia.
      * match goal with
        | |- context [process_records ?c ?rd ?rs ?sn ?ww] =>
            pose proof (process_records_requests c rd rs sn ww) as H;
            destruct (process_records c rd rs sn ww) as [seen w1]
        end.
        cbn [snd] in *. simpl in H. lia.
      * destruct (50 <=? List.length before)%nat;
          match goal with
          | |- context [process_records ?c ?rd ?rs ?sn ?ww] =>
              pose proof (process_records_requests c rd rs sn ww) as H;
              destruct (process_records c rd rs sn ww) as [seen w1]
          end; cbn [snd] in *; simpl in H; [lia|].
        unfold caught. destruct (attempt <? maxRetries); apply Hrec; simpl; lia.
Qed.

Lemma attempts_sends cls radius left attempt st w :
  (requests w
   < requests (snd (attempts (S left) attempt cls radius st w)))%nat.
Proof.
  pose proof (attempts_requests cls radius (S left) attempt st w) as H.
  cbv beta iota in H. lia.
Qed.

Lemma fetch_short_circuit cls radius st w t :
  open (gbifCircuit st) = true ->
  openUntil (gbifCircuit st) = Some t ->
  clock w < t ->
  fetchFromGBIF cls radius st w = ([], set_error (Some CircuitOpenError) st, w).
Proof.
  intros Ho Hu Hlt. unfold fetchFromGBIF. cbn [set_error gbifCircuit].
  rewrite Ho, Hu. cbn [num_gt andb].
  destruct (Z.ltb_spec (clock w) t); [reflexivity|lia].
Qed.

Lemma fetch_resumes cls radius st w t :
  open (gbifCircuit st) = true ->
  openUntil (gbifCircuit st) = Some t ->
  t <= clock w ->
  fetchFromGBIF cls radius st w
  = attempts 3 1 cls radius (close_circuit (set_error None st)) w.
Proof.
  intros Ho Hu Hle. unfold fetchFromGBIF. cbn [set_error gbifCircuit].
  rewrite Ho, Hu. cbn [num_gt num_le andb].
  destruct (Z.ltb_spec (clock w) t); [lia|].
  destruct (Z.leb_spec t (clock w)); [reflexivity|lia].
Qed.

Lemma fetch_closed cls radius st w :
  open (gbifCircuit st) = false ->
  fetchFromGBIF cls radius st w = attempts 3 1 cls radius (set_error None st) w.
Proof.
  intros Ho. unfold fetchFromGBIF. cbn [set_error gbifCircuit].
  rewrite Ho. reflexivity.
Qed.

Lemma attempts_rate_limited left attempt cls radius st w r :
  search w (requests w) = Response r ->
  status r = 429 ->
  attempts (S left) attempt cls radius st w
  = ([], on_rate_limit r (clock (after_request w)) st, after_request w).
Proof.
  intros Hs H429. cbn [attempts fetch_search].
  change (search (sleep 250 w) (requests (sleep 250 w)))
    with (search w (requests w)).
  rewrite Hs, H429. reflexivity.
Qed.

Lemma server_error_not_ok r :
  server_error r ->
  (status r =? 429) = false /\ negb (ok r) = true /\ (500 <=? status r) = true.
Proof.
  intros [H5 _]. unfold ok. repeat split.
  - apply Z.eqb_neq; lia.
  - destruct (Z.leb_spec (status r) 299); [lia|].
    rewrite andb_false_r. reflexivity.
  - apply Z.leb_le; exact H5.
Qed.

Lemma attempts_server_error_retry left attempt cls radius st w r :
  search w (requests w) = Response r ->
  server_error r ->
  attempt < maxRetries ->
  attempts (S left) attempt cls radius st w
  = attempts left (attempt + 1) cls radius
      (count_failure (set_error (not_ok_error r) st)) (after_backoff attempt w).
Proof.
  intros Hs Hr Hlt.
  destruct (server_error_not_ok Hr) as (H429 & Hok & H500).
  destruct Hr as (_ & Hmark & Hct).
  cbn [attempts fetch_search].
  change (search (sleep 250 w) (requests (sleep 250 w)))
    with (search w (requests w)).
  rewrite Hs, H429, Hmark, Hct, Hok, H500. cbn [negb orb andb].
  destruct (Z.ltb_spec attempt maxRetries); [reflexivity|lia].
Qed.

Lemma attempts_server_error_final left attempt cls radius st w r :
  search w (requests w) = Response r ->
  server_error r ->
  maxRetries <= attempt ->
  attempts (S left) attempt cls radius st w
  = ([], open_if_repeated (clock (after_request w))
           (set_error (not_ok_error r) st), after_request w).
Proof.
  intros Hs Hr Hge.
  destruct (server_error_not_ok Hr) as (H429 & Hok & H500).
  destruct Hr as (_ & Hmark & Hct).
  cbn [attempts fetch_search].
  change (search (sleep 250 w) (requests (sleep 250 w)))
    with (search w (requests w)).
  rewrite Hs, H429, Hmark, Hct, Hok, H500. cbn [negb orb andb].
  destruct (Z.ltb_spec attempt maxRetries); [lia|reflexivity].
Qed.

Lemma floor_scaled_range (r : Q) (n : Z) :
  (0 <= r)%Q -> (r < 1)%Q -> 0 < n -> 0 <= floor_scaled r n < n.
Proof.
  intros H0 H1 Hn. unfold floor_scaled.
  assert (Hn' : (inject_Z 0 < inject_Z n)%Q) by (rewrite <- Zlt_Qlt; exact Hn).
  split.
  - rewrite <- (Qfloor_Z 0). apply Qfloor_resp_le.
    apply Qmult_le_0_compat; [exact H0|apply Qlt_le_weak; exact Hn'].
  - assert (Hlt : (r * inject_Z n < inject_Z n)%Q).
    { setoid_replace (inject_Z n) with (1 * inject_Z n)%Q at 2 by ring.
      apply Qmult_lt_compat_r; assumption. }
    pose proof (Qfloor_le (r * inject_Z n)) as Hfl.
    rewrite Zlt_Qlt. eapply Qle_lt_trans; eassumption.
Qed.

(** A successful attempt clears [lastGBIFError] and leaves the circuit, and
    with it [consecutiveFailures], exactly as it found it. *)
Lemma success_keeps_circuit left attempt cls radius st w r :
  search w (requests w) = Response r ->
  success_reply r ->
  let st' := snd (fst (attempts (S left) attempt cls radius st w)) in
  lastGBIFError st' = None /\ gbifCircuit st' = gbifCircuit st.
Proof.
  intros Hs (H429 & Hmark & Hct & Hok & Hp).
  cbn [attempts fetch_search].
  change (search (sleep 250 w) (requests (sleep 250 w)))
    with (search w (requests w)).
  rewrite Hs. apply Z.eqb_neq in H429. rewrite H429, Hmark, Hct, Hok.
  cbn [negb orb].
  destruct Hp as [Hp|[records Hp]]; rewrite Hp.
  - split; reflexivity.
  - destruct (process_records _ _ _ _ _) as [seen w1]. split; reflexivity.
Qed.

(** *** C2: an open circuit rejects calls without I/O *)

(** C2.  While the circuit is open and the clock is before [openUntil],
    [fetchFromGBIF] returns the empty list and leaves the world untouched
    (no request, no timer).  Once [openUntil] has passed, the call closes the
    circuit: it runs its retry loop from a state whose circuit has
    [open = false], [consecutiveFailures = 0] and no [lastOpenedReason],
    sends at least one request, and, when the first reply is a success,
    ends with the circuit in exactly that closed state.  After a 429 with
    [retry-after: 30], a call 10 s later is rejected without I/O and a call
    35 s later or more runs from the closed circuit and sends a request. *)
Theorem open_circuit_short_circuits
  (cls : TaxonomicClass) (radius : Z) (st : State) (w : World) (t : Z) :
  open (gbifCircuit st) = true ->
  openUntil (gbifCircuit st) = Some t ->
  (clock w < t ->
   fetchFromGBIF cls radius st w = ([], set_error (Some CircuitOpenError) st, w))
  /\ (t <= clock w ->
      fetchFromGBIF cls radius st w
      = attempts 3 1 cls radius
          (set_circuit {| open := false; openUntil := Some t;
                          lastOpenedReason := None;
                          consecutiveFailures := 0 |}
             (set_error None st)) w
      /\ (requests w < requests (snd (fetchFromGBIF cls radius st w)))%nat
      /\ (forall r,
            search w (requests w) = Response r -> success_reply r ->
            gbifCircuit (snd (fst (fetchFromGBIF cls radius st w)))
            = {| open := false; openUntil := Some t;
                 lastOpenedReason := None; consecutiveFailures := 0 |}))
  /\ (forall r st0 w0,
        open (gbifCircuit st0) = false ->
        search w0 (requests w0) = Response r ->
        status r = 429 ->
        retryAfter r = Some (js "30") ->
        let '(res1, st1, w1) := fetchFromGBIF cls radius st0 w0 in
        res1 = []
        /\ open (gbifCircuit st1) = true
        /\ openUntil (gbifCircuit st1) = Some (clock w1 + 35000)
        /\ (forall w2, clock w2 = clock w1 + 10000 ->
              fetchFromGBIF cls radius st1 w2
              = ([], set_error (Some CircuitOpenError) st1, w2))
        /\ (forall w3, clock w1 + 35000 <= clock w3 ->
              fetchFromGBIF cls radius st1 w3
              = attempts 3 1 cls radius
                  (set_circuit {| open := false;
                                  openUntil := Some (clock w1 + 35000);
                                  lastOpenedReason := None;
                                  consecutiveFailures := 0 |}
                     (set_error None st1)) w3
              /\ (requests w3
                  < requests (snd (fetchFromGBIF cls radius st1 w3)))%nat)).
Proof.
  assert (Hclosed : forall s u,
            openUntil (gbifCircuit s) = Some u ->
            close_circuit (set_error None s)
            = set_circuit {| open := false; openUntil := Some u;
                             lastOpenedReason := None;
                             consecutiveFailures := 0 |}
                (set_error None s)).
  { intros s u Hs. unfold close_circuit. cbn [set_error gbifCircuit].
    rewrite Hs. reflexivity. }
  intros Ho Hu. split; [|split].
  - intros Hlt. eapply fetch_short_circuit; eauto.
  - intros Hle. rewrite (fetch_resumes cls radius st w Ho Hu Hle).
    rewrite (Hclosed st t Hu).
    split; [reflexivity|]. split; [apply attempts_sends|].
    intros r Hs Hr.
    destruct (@success_keeps_circuit 2 1 cls radius
                (set_circuit {| open := false; openUntil := Some t;
                                lastOpenedReason := None;
                                consecutiveFailures := 0 |}
                   (set_error None st)) w r Hs Hr) as [_ Hg].
    exact Hg.
  - intros r st0 w0 Hc Hs H429 Hra.
    rewrite (fetch_closed cls radius st0 w0 Hc).
    rewrite (attempts_rate_limited 2 1 cls radius (set_error None st0) w0 Hs H429).
    set (st1 := on_rate_limit r (clock (after_request w0)) (set_error None st0)).
    assert (Ho1 : open (gbifCircuit st1) = true) by reflexivity.
    assert (Hu1 : openUntil (gbifCircuit st1)
                  = Some (clock (after_request w0) + 35000)).
    { unfold st1, on_rate_limit, retryAfterMs. rewrite Hra. reflexivity. }
    repeat split; auto.
    + intros w2 Hw2. eapply fetch_short_circuit; eauto. lia.
    + rewrite (fetch_resumes cls radius st1 w3 Ho1 Hu1 H).
      rewrite (Hclosed st1 _ Hu1). reflexivity.
    + rewrite (fetch_resumes cls radius st1 w3 Ho1 Hu1 H).
      apply attempts_sends.
Qed.

Lemma open_circuit_short_circuits_witness :
  fetchFromGBIF birds 50 tripped offline
  = ([], set_error (Some CircuitOpenError) tripped, offline).
Proof.
  apply (proj1 (@open_circuit_short_circuits birds 50 tripped offline
                  1700000035000 eq_refl eq_refl)).
  reflexivity.
Defined.

(** *** C3: a 429 opens the circuit and ends the call *)

(** C3.  When the response of an attempt is a 429 whose [retry-after]
    header parses to [d] seconds, the call ends at once with the empty list,
    after that single request, and the circuit is open with
    [openUntil = now + min(d s + 5 s, 10 min)], [now] being the clock when
    the response is handled.  The same holds at whichever attempt of the
    retry loop the 429 arrives. *)
Theorem rate_limit_opens_circuit
  (cls : TaxonomicClass) (radius : Z) (st : State) (w : World)
  (r : HttpResponse) (h : jsstring) (d : Z) :
  (open (gbifCircuit st) && num_gt (openUntil (gbifCircuit st)) (clock w))%bool
  = false ->
  search w (requests w) = Response r ->
  status r = 429 ->
  retryAfter r = Some h ->
  h <> [] ->
  parseInt h = Some d ->
  (let '(res, st', w') := fetchFromGBIF cls radius st w in
   res = []
   /\ open (gbifCircuit st') = true
   /\ openUntil (gbifCircuit st')
      = Some (clock w' + Z.min (d * 1000 + 5 * 1000) (10 * 60 * 1000))
   /\ requests w' = S (requests w)
   /\ trace w' = Request :: Sleep 250 :: trace w)
  /\ (forall left attempt st0 w0,
        search w0 (requests w0) = Response r ->
        let '(res, st', w') := attempts (S left) attempt cls radius st0 w0 in
        res = []
        /\ open (gbifCircuit st') = true
        /\ openUntil (gbifCircuit st')
           = Some (clock w' + Z.min (d * 1000 + 5 * 1000) (10 * 60 * 1000))
        /\ requests w' = S (requests w0)).
Proof.
  intros Hnb Hs H429 Hra Hne Hd.
  assert (Hms : forall now st0,
            openUntil (gbifCircuit (on_rate_limit r now st0))
            = Some (now + Z.min (d * 1000 + 5 * 1000) (10 * 60 * 1000))).
  { intros now st0. unfold on_rate_limit, retryAfterMs. rewrite Hra.
    cbn [opt_truthy opt_string]. destruct h as [|c h]; [contradiction|].
    cbn [truthy]. rewrite Hd. reflexivity. }
  split.
  - unfold fetchFromGBIF. cbn [set_error gbifCircuit]. rewrite Hnb.
    set (st0 := if (_ && _)%bool then _ else _).
    change (Z.to_nat maxRetries) with 3%nat.
    rewrite (attempts_rate_limited 2 1 cls radius st0 w Hs H429).
    repeat split; auto.
  - intros left attempt st0 w0 Hs0.
    rewrite (attempts_rate_limited left attempt cls radius st0 w0 Hs0 H429).
    repeat split; auto.
Qed.

Lemma rate_limit_opens_circuit_witness :
  let '(res, st', w') := fetchFromGBIF birds 50 initial throttled in
  res = []
  /\ open (gbifCircuit st') = true
  /\ openUntil (gbifCircuit st')
     = Some (clock w' + Z.min (30 * 1000 + 5 * 1000) (10 * 60 * 1000))
  /\ requests w' = S (requests throttled)
  /\ trace w' = Request :: Sleep 250 :: trace throttled.
Proof.
  apply (proj1 (@rate_limit_opens_circuit birds 50 initial throttled
                  (json_response 429 (Some (js "30")) ParseError) (js "30") 30
                  eq_refl eq_refl eq_refl eq_refl
                  ltac:(discriminate) eq_refl)).
Defined.

(** *** C4: repeated server errors *)

(** From a fresh service, three 503 responses leave
    [consecutiveFailures = 2]: the counter moved once per retried attempt,
    not once when the attempts ran out; run alone, the exhausting third
    attempt does not move it. *)
Lemma failures_counted_per_retry :
  (let '(res, st', _) := fetchFromGBIF birds 50 initial failing in
   res = []
   /\ consecutiveFailures (gbifCircuit st') = 2
   /\ consecutiveFailures (gbifCircuit st')
      <> consecutiveFailures (gbifCircuit initial) + 1)
  /\ (let '(res, st', _) := attempts 1 3 birds 50 initial failing in
      res = []
      /\ consecutiveFailures (gbifCircuit st')
         = consecutiveFailures (gbifCircuit initial)).
Proof.
  vm_compute. repeat split; discriminate.
Qed.

(** C4 (amended).  With a closed circuit and three 5xx responses in a row
    that carry a JSON content type and a body that does not start with [<]
    once trimmed, [fetchFromGBIF] makes exactly three requests, each after
    a 250 ms pause, with backoff sleeps of [2000 + jitter] and
    [4000 + jitter] ms between them (jitter in [0, 250) for draws in [0, 1)), and returns the
    empty list.  [consecutiveFailures] is incremented once for each of the
    two retried attempts and is left as it is by the third, exhausting
    attempt; at that third attempt the circuit opens for 2 minutes exactly
    when the counter is at least 2. *)
Theorem server_errors_retry_then_open
  (cls : TaxonomicClass) (radius : Z) (st : State) (w : World)
  (r1 r2 r3 : HttpResponse) :
  open (gbifCircuit st) = false ->
  search w (requests w) = Response r1 ->
  search w (S (requests w)) = Response r2 ->
  search w (S (S (requests w))) = Response r3 ->
  server_error r1 -> server_error r2 -> server_error r3 ->
  let j1 := floor_scaled (random w (draws w)) 250 in
  let j2 := floor_scaled (random w (S (draws w))) 250 in
  let failures := consecutiveFailures (gbifCircuit st) in
  let res := fst (fst (fetchFromGBIF cls radius st w)) in
  let st' := snd (fst (fetchFromGBIF cls radius st w)) in
  let w' := snd (fetchFromGBIF cls radius st w) in
  (res = []
   /\ consecutiveFailures (gbifCircuit st') = failures + 2
   /\ requests w' = S (S (S (requests w)))
   /\ trace w' = [Request; Sleep 250; Sleep (1000 * 2 ^ 2 + j2);
                  Request; Sleep 250; Sleep (1000 * 2 ^ 1 + j1);
                  Request; Sleep 250] ++ trace w
   /\ (2 <= failures + 2 ->
       open (gbifCircuit st') = true
       /\ openUntil (gbifCircuit st') = Some (clock w' + 2 * 60 * 1000))
   /\ (failures + 2 < 2 -> gbifCircuit st' = set_failures (failures + 2)
                                               (gbifCircuit st)))
  /\ ((0 <= random w (draws w))%Q -> (random w (draws w) < 1)%Q ->
      0 <= j1 < 250)
  /\ ((0 <= random w (S (draws w)))%Q -> (random w (S (draws w)) < 1)%Q ->
      0 <= j2 < 250)
  /\ (forall st3 w3,
        search w3 (requests w3) = Response r3 ->
        consecutiveFailures
          (gbifCircuit (snd (fst (attempts 1 3 cls radius st3 w3))))
        = consecutiveFailures (gbifCircuit st3)).
Proof.
  intros Hc H1 H2 H3 E1 E2 E3 j1 j2 failures res st' w'.
  assert (Hfin : forall now s,
     consecutiveFailures (gbifCircuit (open_if_repeated now s))
     = consecutiveFailures (gbifCircuit s)).
  { intros now s. unfold open_if_repeated.
    destruct (2 <=? consecutiveFailures (gbifCircuit s)); reflexivity. }
  split; [|split; [|split]].
  - subst res st' w'. rewrite (fetch_closed cls radius st w Hc).
    rewrite (@attempts_server_error_retry 2 1 cls radius (set_error None st)
               w r1 H1 E1) by (unfold maxRetries; lia).
    rewrite (@attempts_server_error_retry 1 (1 + 1) cls radius _
               (after_backoff 1 w) r2 H2 E2) by (unfold maxRetries; lia).
    rewrite (@attempts_server_error_final 0 (1 + 1 + 1) cls radius _
               (after_backoff (1 + 1) (after_backoff 1 w)) r3 H3 E3)
      by (unfold maxRetries; lia).
    cbn [fst snd].
    split; [reflexivity|]. rewrite Hfin.
    split; [cbn; fold failures; lia|].
    split; [reflexivity|]. split; [reflexivity|].
    unfold open_if_repeated.
    set (s2 := set_error (not_ok_error r3) _).
    assert (Hs2 : consecutiveFailures (gbifCircuit s2) = failures + 2)
      by (cbn; fold failures; lia).
    rewrite Hs2. split.
    + intros Hge. destruct (Z.leb_spec 2 (failures + 2)); [|lia].
      split; reflexivity.
    + intros Hlt. destruct (Z.leb_spec 2 (failures + 2)); [lia|].
      cbn. unfold set_failures. fold failures. f_equal; lia.
  - intros; apply floor_scaled_range; auto; lia.
  - intros; apply floor_scaled_range; auto; lia.
  - intros st3 w3 Hs3.
    rewrite (@attempts_server_error_final 0 3 cls radius st3 w3 r3 Hs3 E3)
      by (unfold maxRetries; lia).
    cbn [fst snd]. rewrite Hfin. reflexivity.
Qed.

Lemma server_errors_retry_then_open_witness :
  fst (fst (fetchFromGBIF birds 50 initial failing)) = [].
Proof.
  assert (E : server_error (json_response 503 None ParseError))
    by (repeat split; vm_compute; congruence).
  exact (proj1 (proj1 (@server_errors_retry_then_open birds 50 initial failing
                         _ _ _ eq_refl eq_refl eq_refl eq_refl E E E))).
Defined.

(** *** C5: what a successful fetch resets *)

(** C5.  From a fresh service, a call whose first attempt gets a 503 and
    whose second attempt gets a 200 JSON response succeeds: it returns the
    parsed species and [lastGBIFError] is cleared, but
    [consecutiveFailures] stays at 1 instead of being reset to 0. *)
Theorem success_leaves_consecutiveFailures :
  let '(res, st', w') := fetchFromGBIF birds 50 initial recovering in
  List.map name res = [js "House Sparrow"]
  /\ lastGBIFError st' = None
  /\ open (gbifCircuit st') = false
  /\ consecutiveFailures (gbifCircuit st') = 1
  /\ requests w' = 2%nat.
Proof.
  vm_compute. repeat split; reflexivity.
Qed.

(* ================================================================= *)
(** ** The cache: a bounded store per class with first-in eviction *)

Local Open Scope nat_scope.

(** *** A key belongs to exactly the class it was generated for *)

Lemma key_shape latitude longitude cls :
  exists pre, generateLocationKey latitude longitude cls
              = pre ++ js "_" ++ cls_name cls.
Proof.
  unfold generateLocationKey.
  exists (render_hundredths (rounded latitude) ++ js "_"
          ++ render_hundredths (rounded longitude)).
  rewrite <- !app_assoc. reflexivity.
Qed.

Lemma endsWith_class pre cls cls' :
  In cls taxonomicClasses -> In cls' taxonomicClasses ->
  endsWith (pre ++ js "_" ++ cls_name cls') (js "_" ++ cls_name cls)
  = jsstring_eqb (cls_name cls') (cls_name cls).
Proof.
  intros H H'. unfold endsWith. rewrite (rev_app_distr pre).
  repeat (destruct H as [<-|H]; [|]); try destruct H;
    (repeat (destruct H' as [<-|H']; [|]); try destruct H'; reflexivity).
Qed.

Lemma class_name_inj cls cls' :
  In cls taxonomicClasses -> In cls' taxonomicClasses ->
  cls_name cls' = cls_name cls -> cls' = cls.
Proof.
  intros H H'.
  repeat (destruct H as [<-|H]; [|]); try destruct H;
    (repeat (destruct H' as [<-|H']; [|]); try destruct H';
     intros E; try reflexivity; vm_compute in E; discriminate).
Qed.

Lemma jsstring_eqb_eq a b : jsstring_eqb a b = true <-> a = b.
Proof.
  unfold jsstring_eqb. destruct (list_eq_dec N.eq_dec a b); split; intros;
    congruence.
Qed.

Lemma jsstring_eqb_refl a : jsstring_eqb a a = true.
Proof. apply jsstring_eqb_eq; reflexivity. Qed.

Lemma jsstring_eqb_neq a b : a <> b -> jsstring_eqb a b = false.
Proof.
  intros H. destruct (jsstring_eqb a b) eqn:E; [|reflexivity].
  apply jsstring_eqb_eq in E. contradiction.
Qed.

(** The test of [classKeys], on a generated key. *)
Lemma key_in_own_class latitude longitude cls :
  In cls taxonomicClasses ->
  endsWith (generateLocationKey latitude longitude cls)
    (js "_" ++ cls_name cls) = true.
Proof.
  intros H. destruct (key_shape latitude longitude cls) as [pre ->].
  rewrite endsWith_class by assumption. apply jsstring_eqb_refl.
Qed.

Lemma key_not_in_other_class latitude longitude cls cls' :
  In cls taxonomicClasses -> In cls' taxonomicClasses -> cls' <> cls ->
  endsWith (generateLocationKey latitude longitude cls')
    (js "_" ++ cls_name cls) = false.
Proof.
  intros H H' Hne. destruct (key_shape latitude longitude cls') as [pre ->].
  rewrite endsWith_class by assumption. apply jsstring_eqb_neq.
  intros E. apply Hne. apply class_name_inj; assumption.
Qed.

(** *** The JS [Map] operations *)

Lemma jsstring_eqb_spec a b : reflect (a = b) (jsstring_eqb a b).
Proof.
  destruct (jsstring_eqb a b) eqn:E; constructor.
  - apply jsstring_eqb_eq; exact E.
  - intros H. apply jsstring_eqb_eq in H. congruence.
Qed.

Section MapFacts.

Variable V : Type.
Implicit Types (m : Map V) (k : jsstring) (f : jsstring -> bool).

Lemma map_get_none m k : map_get m k = None <-> ~ In k (map_keys m).
Proof.
  induction m as [|[k' v'] m IH]; simpl.
  - tauto.
  - destruct (jsstring_eqb_spec k' k).
    + split; [discriminate|]. intros H; exfalso; apply H; auto.
    + rewrite IH. tauto.
Qed.

Lemma map_get_some_in m k v : map_get m k = Some v -> In k (map_keys m).
Proof.
  intros H. destruct (in_dec (list_eq_dec N.eq_dec) k (map_keys m)); auto.
  apply map_get_none in n. congruence.
Qed.

Lemma map_keys_set_present m k v :
  In k (map_keys m) -> map_keys (map_set m k v) = map_keys m.
Proof.
  induction m as [|[k' v'] m IH]; simpl; intros H; [contradiction|].
  destruct (jsstring_eqb_spec k' k); [reflexivity|].
  simpl. f_equal. apply IH. destruct H; [contradiction|assumption].
Qed.

Lemma map_keys_set_absent m k v :
  ~ In k (map_keys m) -> map_keys (map_set m k v) = map_keys m ++ [k].
Proof.
  induction m as [|[k' v'] m IH]; simpl; intros H; [reflexivity|].
  destruct (jsstring_eqb_spec k' k); [exfalso; apply H; auto|].
  simpl. f_equal. apply IH. tauto.
Qed.

Lemma map_get_set_same m k v : map_get (map_set m k v) k = Some v.
Proof.
  induction m as [|[k' v'] m IH]; simpl.
  - rewrite jsstring_eqb_refl. reflexivity.
  - destruct (jsstring_eqb_spec k' k) as [E|E]; simpl.
    + rewrite E, jsstring_eqb_refl. reflexivity.
    + rewrite (jsstring_eqb_neq E). exact IH.
Qed.

Lemma map_get_set_other m k v k0 :
  k0 <> k -> map_get (map_set m k v) k0 = map_get m k0.
Proof.
  intros Hne. induction m as [|[k' v'] m IH]; simpl.
  - rewrite jsstring_eqb_neq by congruence. reflexivity.
  - destruct (jsstring_eqb_spec k' k) as [E|E]; simpl.
    + subst k'. rewrite !(jsstring_eqb_neq (a := k) (b := k0)) by congruence.
      reflexivity.
    + rewrite IH. reflexivity.
Qed.

Lemma map_get_delete_other m k k0 :
  k0 <> k -> map_get (map_delete m k) k0 = map_get m k0.
Proof.
  intros Hne. induction m as [|[k' v'] m IH]; simpl; [reflexivity|].
  destruct (jsstring_eqb_spec k' k) as [E|E]; simpl.
  - subst k'. rewrite jsstring_eqb_neq by congruence. reflexivity.
  - rewrite IH. reflexivity.
Qed.

Lemma map_keys_delete_in m k k0 :
  In k0 (map_keys (map_delete m k)) -> In k0 (map_keys m).
Proof.
  induction m as [|[k' v'] m IH]; simpl; [tauto|].
  destruct (jsstring_eqb_spec k' k); simpl; tauto.
Qed.

Lemma map_delete_NoDup m k :
  NoDup (map_keys m) ->
  NoDup (map_keys (map_delete m k)) /\ ~ In k (map_keys (map_delete m k)).
Proof.
  induction m as [|[k' v'] m IH]; simpl; intros H.
  - split; [constructor|tauto].
  - inversion H as [|? ? Hk' Hm]; subst.
    destruct (jsstring_eqb_spec k' k) as [E|E].
    + subst k'. split; assumption.
    + destruct (IH Hm) as [H1 H2]. simpl. split.
      * constructor; [|exact H1].
        intros Hin. apply Hk'. eapply map_keys_delete_in; eauto.
      * intros [Hin|Hin]; [contradiction|auto].
Qed.

Lemma map_set_NoDup m k v :
  NoDup (map_keys m) -> NoDup (map_keys (map_set m k v)).
Proof.
  intros H. destruct (in_dec (list_eq_dec N.eq_dec) k (map_keys m)) as [Hin|Hin].
  - rewrite map_keys_set_present; assumption.
  - rewrite map_keys_set_absent by assumption.
    apply NoDup_app; [exact H|constructor; [tauto|constructor]|].
    intros x Hx [<-|[]]. contradiction.
Qed.

(** Deleting the first key that passes a filter removes the head of the
    filtered keys. *)
Lemma filter_keys_delete_head m f k rest :
  filter f (map_keys m) = k :: rest ->
  filter f (map_keys (map_delete m k)) = rest.
Proof.
  induction m as [|[k' v'] m IH]; simpl; [discriminate|].
  destruct (f k') eqn:Ef; intros H.
  - inversion H; subst. rewrite jsstring_eqb_refl. reflexivity.
  - destruct (jsstring_eqb_spec k' k) as [E|E].
    + subst k'. assert (Hk : In k (filter f (map_keys m)))
        by (rewrite H; left; reflexivity).
      apply filter_In in Hk. destruct Hk as [_ Hk]. congruence.
    + simpl. rewrite Ef. apply IH. exact H.
Qed.

Lemma filter_keys_delete_other m f k :
  f k = false ->
  filter f (map_keys (map_delete m k)) = filter f (map_keys m).
Proof.
  intros Hf. induction m as [|[k' v'] m IH]; simpl; [reflexivity|].
  destruct (jsstring_eqb_spec k' k) as [E|E].
  - subst k'. rewrite Hf. reflexivity.
  - simpl. rewrite IH. reflexivity.
Qed.

Lemma filter_keys_set m f k v :
  filter f (map_keys (map_set m k v))
  = filter f (map_keys m)
    ++ (if in_dec (list_eq_dec N.eq_dec) k (map_keys m) then []
        else if f k then [k] else []).
Proof.
  destruct (in_dec (list_eq_dec N.eq_dec) k (map_keys m)) as [Hin|Hin].
  - rewrite map_keys_set_present by assumption. rewrite app_nil_r. reflexivity.
  - rewrite map_keys_set_absent by assumption. rewrite filter_app. simpl.
    destruct (f k); reflexivity.
Qed.

End MapFacts.

(** *** [cacheSpecies] and the bound *)

Lemma cacheSpecies_cache now latitude longitude cls sp st :
  cache (cacheSpecies now latitude longitude cls sp st)
  = map_set (after_eviction cls (cache st))
      (generateLocationKey latitude longitude cls)
      (new_entry now latitude longitude cls sp).
Proof.
  unfold cacheSpecies, after_eviction.
  destruct (maxCacheSize <=? List.length (classKeys cls (cache st)));
    reflexivity.
Qed.

Lemma cacheSpecies_evictions now latitude longitude cls sp st :
  evictions (cacheStats (cacheSpecies now latitude longitude cls sp st))
  = if maxCacheSize <=? List.length (classKeys cls (cache st))
    then S (evictions (cacheStats st)) else evictions (cacheStats st).
Proof.
  unfold cacheSpecies.
  destruct (maxCacheSize <=? List.length (classKeys cls (cache st)));
    reflexivity.
Qed.

Lemma after_eviction_keys cls cls' c :
  In cls taxonomicClasses -> In cls' taxonomicClasses ->
  (forall k, In k (classKeys cls c) ->
     endsWith k (js "_" ++ cls_name cls')
     = jsstring_eqb (cls_name cls) (cls_name cls')) ->
  List.length (classKeys cls' (after_eviction cls c))
  <= List.length (classKeys cls' c).
Proof.
  intros H H' Hk. unfold after_eviction.
  destruct (maxCacheSize <=? List.length (classKeys cls c)); [|lia].
  destruct (classKeys cls c) as [|k rest] eqn:E; [lia|].
  destruct (jsstring_eqb_spec (cls_name cls) (cls_name cls')) as [En|En].
  - assert (cls = cls') by (apply class_name_inj; auto). subst cls'.
    unfold classKeys in *. rewrite (filter_keys_delete_head _ _ E).
    rewrite E. simpl. lia.
  - unfold classKeys at 1. rewrite filter_keys_delete_other; [unfold classKeys; lia|].
    apply Hk. left. reflexivity.
Qed.

Lemma generated_class k cls cls' :
  generated k -> In cls taxonomicClasses -> In cls' taxonomicClasses ->
  endsWith k (js "_" ++ cls_name cls) = true ->
  endsWith k (js "_" ++ cls_name cls')
  = jsstring_eqb (cls_name cls) (cls_name cls').
Proof.
  intros (la & lo & c0 & Hc0 & ->) H H' Hk.
  destruct (key_shape la lo c0) as [pre Hpre]. rewrite Hpre in *.
  rewrite endsWith_class in * by assumption.
  apply jsstring_eqb_eq in Hk. rewrite Hk. reflexivity.
Qed.

Lemma after_eviction_in cls c k :
  In k (map_keys (after_eviction cls c)) -> In k (map_keys c).
Proof.
  unfold after_eviction.
  destruct (maxCacheSize <=? List.length (classKeys cls c)); auto.
  destruct (classKeys cls c); auto. apply map_keys_delete_in.
Qed.

Lemma after_eviction_NoDup cls c :
  NoDup (map_keys c) -> NoDup (map_keys (after_eviction cls c)).
Proof.
  unfold after_eviction. intros H.
  destruct (maxCacheSize <=? List.length (classKeys cls c)); auto.
  destruct (classKeys cls c); auto. apply map_delete_NoDup; exact H.
Qed.

Lemma after_eviction_room cls c :
  List.length (classKeys cls c) <= maxCacheSize ->
  List.length (classKeys cls (after_eviction cls c)) < maxCacheSize.
Proof.
  intros Hb. unfold after_eviction.
  destruct (Nat.leb_spec maxCacheSize (List.length (classKeys cls c))) as [Hge|Hlt];
    [|exact Hlt].
  destruct (classKeys cls c) as [|k rest] eqn:E.
  - rewrite E. simpl in *. unfold maxCacheSize in *. lia.
  - unfold classKeys in *. rewrite (filter_keys_delete_head _ _ E).
    simpl in Hb. lia.
Qed.

Lemma cacheSpecies_inv now latitude longitude cls sp st :
  In cls taxonomicClasses ->
  cache_inv (cache st) ->
  cache_inv (cache (cacheSpecies now latitude longitude cls sp st)).
Proof.
  intros Hcls [[Hnd Hb] Hgen]. rewrite cacheSpecies_cache.
  set (key := generateLocationKey latitude longitude cls).
  set (e := new_entry now latitude longitude cls sp).
  assert (Hgen' : Forall generated (map_keys (after_eviction cls (cache st)))).
  { rewrite Forall_forall in *. intros k Hk. apply Hgen.
    eapply after_eviction_in; eauto. }
  split; [split|].
  - apply map_set_NoDup. apply after_eviction_NoDup. exact Hnd.
  - intros cls' Hcls'. unfold classKeys. rewrite filter_keys_set.
    rewrite length_app. fold (classKeys cls' (after_eviction cls (cache st))).
    match goal with
    | |- context [in_dec ?d ?k ?l] => destruct (in_dec d k l) as [Hin|Hin]
    end.
    + simpl. rewrite Nat.add_0_r.
      etransitivity; [|apply (Hb cls' Hcls')].
      apply after_eviction_keys; auto.
      intros k Hk. apply filter_In in Hk. destruct Hk as [Hk1 Hk2].
      rewrite Forall_forall in Hgen. apply generated_class; auto.
    + destruct (jsstring_eqb_spec (cls_name cls) (cls_name cls')) as [En|En].
      * assert (cls = cls') by (apply class_name_inj; auto). subst cls'.
        pose proof (after_eviction_room cls (cache st) (Hb cls Hcls)) as Hr.
        destruct (endsWith key _); simpl; lia.
      * unfold key. rewrite key_not_in_other_class; auto; [|congruence].
        simpl. rewrite Nat.add_0_r.
        etransitivity; [|apply (Hb cls' Hcls')].
        apply after_eviction_keys; auto.
        intros k Hk. apply filter_In in Hk. destruct Hk as [Hk1 Hk2].
        rewrite Forall_forall in Hgen. apply generated_class; auto.
  - destruct (in_dec (list_eq_dec N.eq_dec) key
                (map_keys (after_eviction cls (cache st)))) as [Hin|Hin].
    + rewrite map_keys_set_present; assumption.
    + rewrite map_keys_set_absent by assumption.
      apply Forall_app. split; [exact Hgen'|].
      constructor; [|constructor].
      exists latitude, longitude, cls. split; [exact Hcls|reflexivity].
Qed.

(** *** The operations of the service keep the cache within its bound *)

Lemma attempts_cache cls radius left :
  forall attempt st w,
    cache (snd (fst (attempts left attempt cls radius st w))) = cache st.
Proof.
  induction left as [|left IH]; intros attempt st w; [reflexivity|].
  cbn [attempts fetch_search].
  destruct (search _ _) as [message|r].
  - unfold caught. cbv beta iota. rewrite IH. reflexivity.
  - destruct (status r =? 429)%Z; [reflexivity|].
    destruct (_ || _)%bool; [reflexivity|].
    destruct (negb (ok r)).
    + destruct (_ && _)%bool.
      * unfold draw. cbv beta iota. rewrite IH. reflexivity.
      * cbn [fst snd]. unfold open_if_repeated.
        destruct (2 <=? _)%Z; reflexivity.
    + destruct (parsed r) as [|message| |records|before message];
        try reflexivity.
      * unfold caught. cbv beta iota. rewrite IH. reflexivity.
      * destruct (process_records _ _ _ _ _) as [seen w1]. reflexivity.
      * destruct (50 <=? List.length before)%nat;
          destruct (process_records _ _ _ _ _) as [seen w1]; [reflexivity|].
        unfold caught. cbv beta iota. rewrite IH. reflexivity.
Qed.

Lemma fetchFromGBIF_cache cls radius st w :
  cache (snd (fst (fetchFromGBIF cls radius st w))) = cache st.
Proof.
  unfold fetchFromGBIF.
  destruct (_ && _)%bool; [reflexivity|].
  rewrite attempts_cache.
  destruct (_ && _)%bool; reflexivity.
Qed.

Lemma getSpeciesForClass_inv latitude longitude cls count st w :
  In cls taxonomicClasses ->
  cache_inv (cache st) ->
  cache_inv (cache (snd (fst (getSpeciesForClass latitude longitude cls count
                                st w)))).
Proof.
  intros Hcls Hinv. unfold getSpeciesForClass.
  destruct (match getCachedEntry latitude longitude cls st with
            | Some e => _ | None => _ end); [exact Hinv|].
  pose proof (fetchFromGBIF_cache cls 50 st w) as H1.
  destruct (fetchFromGBIF cls 50 st w) as [[sp1 st1] w1]. cbn [fst snd] in H1.
  assert (Hinv1 : cache_inv (cache st1)) by (rewrite H1; exact Hinv).
  destruct (at_least sp1 count); [apply cacheSpecies_inv; assumption|].
  pose proof (fetchFromGBIF_cache cls 200 st1 w1) as H2.
  destruct (fetchFromGBIF cls 200 st1 w1) as [[sp2 st2] w2]. cbn [fst snd] in H2.
  assert (Hinv2 : cache_inv (cache st2)) by (rewrite H2; exact Hinv1).
  destruct (at_least sp2 count); [apply cacheSpecies_inv; assumption|].
  destruct (match getRegionalFallback latitude longitude (cls_name cls) with
            | [] => false | _ => _ end);
    apply cacheSpecies_inv; assumption.
Qed.

Lemma fetch_classes_inv latitude longitude count classes :
  (forall cls, In cls classes -> In cls taxonomicClasses) ->
  forall st w,
    cache_inv (cache st) ->
    cache_inv (cache (snd (fst (fetch_classes latitude longitude classes count
                                  st w)))).
Proof.
  induction classes as [|cls classes IH]; intros Hsub st w Hinv; [exact Hinv|].
  cbn [fetch_classes].
  pose proof (@getSpeciesForClass_inv latitude longitude cls count st w
                (Hsub cls (or_introl eq_refl)) Hinv) as H1.
  destruct (getSpeciesForClass latitude longitude cls count st w)
    as [[sp st1] w1]. cbn [fst snd] in H1.
  assert (Hsub' : forall c, In c classes -> In c taxonomicClasses)
    by (intros c Hc; apply Hsub; right; exact Hc).
  pose proof (IH Hsub' st1 w1 H1) as H2.
  destruct (fetch_classes latitude longitude classes count st1 w1)
    as [[results st2] w2]. exact H2.
Qed.

Lemma getSpeciesForMeditation_inv latitude longitude animalType count st w :
  cache_inv (cache st) ->
  cache_inv (cache (snd (fst (getSpeciesForMeditation latitude longitude
                                animalType count st w)))).
Proof.
  intros Hinv. unfold getSpeciesForMeditation.
  set (classes := if opt_truthy animalType then _ else _).
  assert (Hsub : forall cls, In cls classes -> In cls taxonomicClasses).
  { intros cls. unfold classes. destruct (opt_truthy animalType); auto.
    intros H. apply filter_In in H. tauto. }
  pose proof (@fetch_classes_inv latitude longitude count classes Hsub st w Hinv)
    as H.
  destruct (fetch_classes latitude longitude classes count st w)
    as [[results st1] w1]. exact H.
Qed.

Lemma set_existing_inv (c : Map CacheEntry) k e e' :
  map_get c k = Some e -> cache_inv c -> cache_inv (map_set c k e').
Proof.
  intros Hget [[Hnd Hb] Hgen].
  assert (Hk : map_keys (map_set c k e') = map_keys c)
    by (apply map_keys_set_present; eapply map_get_some_in; eauto).
  unfold cache_inv, cache_ok, classKeys in *. rewrite Hk. auto.
Qed.

Lemma select_in_class_inv latitude longitude c st w :
  In c taxonomicClasses ->
  cache_inv (cache st) ->
  cache_inv (cache (snd (fst (select_in_class latitude longitude c st w)))).
Proof.
  intros Hc Hinv. unfold select_in_class.
  pose proof (@getSpeciesForClass_inv latitude longitude c 50 st w Hc Hinv) as H1.
  destruct (getSpeciesForClass latitude longitude c 50 st w) as [[sl st1] w1].
  cbn [fst snd] in H1.
  destruct sl as [|s0 sl]; [exact H1|].
  destruct (getCachedEntry latitude longitude c st1) as [e|] eqn:Ee.
  - destruct (species e) as [|x xs] eqn:Es.
    + destruct (draw w1) as [r w2].
      destruct (if (0 <=? _)%Z then _ else _);
        apply cacheSpecies_inv; assumption.
    + destruct (choose _ _ e w1) as [[[cand stamped]|] w2]; [|exact H1].
      cbn [fst snd cache set_cache].
      eapply set_existing_inv; eauto.
  - destruct (draw w1) as [r w2].
    destruct (if (0 <=? _)%Z then _ else _);
      apply cacheSpecies_inv; assumption.
Qed.

Lemma selectSpecies_inv latitude longitude animalType st w :
  cache_inv (cache st) ->
  cache_inv (cache (snd (fst (selectSpecies latitude longitude animalType
                                st w)))).
Proof.
  intros Hinv. unfold selectSpecies.
  set (requested := if opt_truthy animalType then _ else None).
  assert (Hreq : forall c, requested = Some c -> In c taxonomicClasses).
  { intros c. unfold requested. destruct (opt_truthy animalType); [|discriminate].
    intros H. apply find_some in H. tauto. }
  destruct requested as [c|].
  - apply select_in_class_inv; auto.
  - destruct (draw w) as [r w0].
    destruct (if (0 <=? _)%Z then _ else _) as [c|] eqn:En; [|exact Hinv].
    apply select_in_class_inv; auto.
    destruct (0 <=? _)%Z; [|discriminate]. eapply nth_error_In; eauto.
Qed.

Lemma reachable_inv st : reachable st -> cache_inv (cache st).
Proof.
  induction 1 as [st E| | | | |].
  - rewrite E. split; [split|]; simpl.
    + constructor.
    + intros; lia.
    + constructor.
  - apply cacheSpecies_inv; assumption.
  - rewrite fetchFromGBIF_cache. assumption.
  - apply getSpeciesForClass_inv; assumption.
  - apply getSpeciesForMeditation_inv; assumption.
  - apply selectSpecies_inv; assumption.
Qed.

(** *** Eviction *)

Lemma classKeys_other_after_insert now latitude longitude cls cls' sp st :
  In cls taxonomicClasses -> In cls' taxonomicClasses -> cls' <> cls ->
  cache_inv (cache st) ->
  classKeys cls' (cache (cacheSpecies now latitude longitude cls sp st))
  = classKeys cls' (cache st).
Proof.
  intros Hc Hc' Hne [[Hnd Hb] Hgen]. rewrite cacheSpecies_cache.
  unfold classKeys. rewrite filter_keys_set.
  rewrite (key_not_in_other_class latitude longitude Hc' Hc)
    by (intros E; apply Hne; symmetry; exact E).
  match goal with |- context [in_dec ?d ?k ?l] => destruct (in_dec d k l) end;
    rewrite app_nil_r.
  all: unfold after_eviction;
    destruct (maxCacheSize <=? _); [|reflexivity];
    destruct (classKeys cls (cache st)) as [|k rest] eqn:E; [reflexivity|];
    apply filter_keys_delete_other;
    assert (Hk : In k (classKeys cls (cache st))) by (rewrite E; left; reflexivity);
    apply filter_In in Hk; destruct Hk as [Hk1 Hk2];
    rewrite Forall_forall in Hgen;
    rewrite (generated_class (Hgen k Hk1) Hc Hc' Hk2);
    apply jsstring_eqb_neq; intros En; apply Hne;
    symmetry; apply class_name_inj; auto.
Qed.

(** Inserting a new cluster into a class that is full. *)
Lemma eviction_fifo now latitude longitude cls sp st k1 rest :
  In cls taxonomicClasses ->
  cache_inv (cache st) ->
  classKeys cls (cache st) = k1 :: rest ->
  List.length (k1 :: rest) = maxCacheSize ->
  map_get (cache st) (generateLocationKey latitude longitude cls) = None ->
  let key := generateLocationKey latitude longitude cls in
  let st' := cacheSpecies now latitude longitude cls sp st in
  map_keys (cache st') = map_keys (map_delete (cache st) k1) ++ [key]
  /\ classKeys cls (cache st') = rest ++ [key]
  /\ map_get (cache st') k1 = None
  /\ (forall k, k <> k1 -> k <> key ->
        map_get (cache st') k = map_get (cache st) k)
  /\ evictions (cacheStats st') = S (evictions (cacheStats st)).
Proof.
  intros Hc [[Hnd Hb] Hgen] Hkeys Hlen Hnew key st'.
  assert (Hev : after_eviction cls (cache st) = map_delete (cache st) k1).
  { unfold after_eviction. rewrite Hkeys, Hlen, Nat.leb_refl. reflexivity. }
  assert (Hk1 : In k1 (map_keys (cache st))).
  { assert (H : In k1 (classKeys cls (cache st))) by (rewrite Hkeys; left; auto).
    apply filter_In in H. tauto. }
  assert (Hne : k1 <> key).
  { intros E. apply map_get_none in Hnew. apply Hnew. fold key. rewrite <- E.
    exact Hk1. }
  assert (Habs : ~ In key (map_keys (map_delete (cache st) k1))).
  { intros H. apply map_keys_delete_in in H. apply map_get_none in Hnew.
    contradiction. }
  subst st'. rewrite cacheSpecies_cache, cacheSpecies_evictions, Hev.
  fold key. rewrite Hkeys, Hlen, Nat.leb_refl.
  repeat split.
  - apply map_keys_set_absent. exact Habs.
  - unfold classKeys in *. rewrite map_keys_set_absent by exact Habs.
    rewrite filter_app, (filter_keys_delete_head _ _ Hkeys). simpl.
    unfold key. rewrite key_in_own_class by exact Hc. reflexivity.
  - rewrite map_get_set_other by exact Hne.
    apply map_get_none. apply map_delete_NoDup. exact Hnd.
  - intros k Hk Hk'. rewrite map_get_set_other by exact Hk'.
    apply map_get_delete_other. exact Hk.
Qed.

Lemma put_below cls st a :
  In cls taxonomicClasses ->
  List.length (classKeys cls (cache st)) < maxCacheSize ->
  ~ In (key_of cls a) (map_keys (cache st)) ->
  map_keys (cache (put cls st a)) = map_keys (cache st) ++ [key_of cls a]
  /\ classKeys cls (cache (put cls st a))
     = classKeys cls (cache st) ++ [key_of cls a]
  /\ evictions (cacheStats (put cls st a)) = evictions (cacheStats st).
Proof.
  destruct a as [[[now la] lo] sp]. intros Hc Hlt Hnew. unfold put, key_of in *.
  rewrite cacheSpecies_cache, cacheSpecies_evictions.
  unfold after_eviction.
  destruct (Nat.leb_spec maxCacheSize (List.length (classKeys cls (cache st))));
    [lia|].
  assert (Hk : map_keys (map_set (cache st) (generateLocationKey la lo cls)
                           (new_entry now la lo cls sp))
               = map_keys (cache st) ++ [generateLocationKey la lo cls])
    by (apply map_keys_set_absent; exact Hnew).
  repeat split; auto.
  unfold classKeys. rewrite Hk, filter_app. cbn [filter].
  rewrite key_in_own_class by exact Hc. reflexivity.
Qed.

Lemma puts_below cls puts :
  In cls taxonomicClasses ->
  NoDup (List.map (key_of cls) puts) ->
  forall st,
    List.length (classKeys cls (cache st)) + List.length puts <= maxCacheSize ->
    (forall a, In a puts -> ~ In (key_of cls a) (map_keys (cache st))) ->
    let st' := fold_left (put cls) puts st in
    map_keys (cache st') = map_keys (cache st) ++ List.map (key_of cls) puts
    /\ classKeys cls (cache st')
       = classKeys cls (cache st) ++ List.map (key_of cls) puts
    /\ evictions (cacheStats st') = evictions (cacheStats st).
Proof.
  intros Hc. induction puts as [|a puts IH]; intros Hnd st Hlen Hnew.
  - simpl. rewrite !app_nil_r. auto.
  - simpl in Hnd, Hlen. inversion Hnd as [|? ? Ha Hnd']; subst.
    destruct (@put_below cls st a Hc) as (H1 & H2 & H3);
      [lia|apply Hnew; left; reflexivity|].
    cbn [fold_left List.map].
    destruct (IH Hnd' (put cls st a)) as (H4 & H5 & H6).
    + rewrite H2, length_app. simpl. lia.
    + intros b Hb. rewrite H1. intros Hin. apply in_app_or in Hin.
      destruct Hin as [Hin|[Hin|[]]].
      * apply (Hnew b); [right; exact Hb|exact Hin].
      * apply Ha. rewrite Hin. apply in_map. exact Hb.
    + rewrite H4, H5, H6, H1, H2, H3, <- !app_assoc. auto.
Qed.

Lemma puts_reachable cls puts :
  In cls taxonomicClasses ->
  forall st, reachable st -> reachable (fold_left (put cls) puts st).
Proof.
  intros Hc. induction puts as [|[[[now la] lo] sp] puts IH]; intros st Hr.
  - exact Hr.
  - simpl. apply IH. apply reach_cacheSpecies; assumption.
Qed.

Lemma puts_other_class cls cls' puts :
  In cls taxonomicClasses -> In cls' taxonomicClasses -> cls' <> cls ->
  forall st, reachable st ->
    classKeys cls' (cache (fold_left (put cls) puts st))
    = classKeys cls' (cache st).
Proof.
  intros Hc Hc' Hne.
  induction puts as [|[[[now la] lo] sp] puts IH]; intros st Hr.
  - reflexivity.
  - simpl. rewrite IH by (apply reach_cacheSpecies; assumption).
    apply classKeys_other_after_insert; auto. apply reachable_inv; exact Hr.
Qed.

Lemma class_key_absent cls st a :
  In cls taxonomicClasses ->
  classKeys cls (cache st) = [] ->
  ~ In (key_of cls a) (map_keys (cache st)).
Proof.
  destruct a as [[[now la] lo] sp]. intros Hc He Hin.
  assert (H : In (generateLocationKey la lo cls) (classKeys cls (cache st))).
  { apply filter_In. split; [exact Hin|apply key_in_own_class; exact Hc]. }
  rewrite He in H. destruct H.
Qed.

(** C6.  In every state the service can reach, each class holds at most
    200 cache keys.  Inserting a new cluster into a class that holds 200
    removes exactly the first key of that class in insertion order, appends
    the new key, and leaves every other entry and the keys of every other
    class as they were.  In particular, after 200 distinct clusters are
    inserted for a class that had none, the 201st distinct cluster evicts
    the first one inserted. *)
Theorem cache_bounded_first_in_eviction (st : State) (cls : TaxonomicClass) :
  reachable st ->
  In cls taxonomicClasses ->
  List.length (classKeys cls (cache st)) <= 200
  /\ (forall now latitude longitude sp k1 rest,
        classKeys cls (cache st) = k1 :: rest ->
        List.length (k1 :: rest) = 200 ->
        map_get (cache st) (generateLocationKey latitude longitude cls) = None ->
        let key := generateLocationKey latitude longitude cls in
        let st' := cacheSpecies now latitude longitude cls sp st in
        classKeys cls (cache st') = rest ++ [key]
        /\ map_get (cache st') k1 = None
        /\ (forall k, k <> k1 -> k <> key ->
              map_get (cache st') k = map_get (cache st) k)
        /\ (forall cls', In cls' taxonomicClasses -> cls' <> cls ->
              classKeys cls' (cache st') = classKeys cls' (cache st))
        /\ evictions (cacheStats st') = S (evictions (cacheStats st)))
  /\ (forall (first : Put) (puts : list Put) (last : Put),
        classKeys cls (cache st) = [] ->
        List.length puts = 199 ->
        NoDup (List.map (key_of cls) (first :: puts ++ [last])) ->
        let st200 := fold_left (put cls) (first :: puts) st in
        let st201 := put cls st200 last in
        classKeys cls (cache st200) = List.map (key_of cls) (first :: puts)
        /\ classKeys cls (cache st201) = List.map (key_of cls) (puts ++ [last])
        /\ map_get (cache st201) (key_of cls first) = None
        /\ (forall cls', In cls' taxonomicClasses -> cls' <> cls ->
              classKeys cls' (cache st201) = classKeys cls' (cache st))
        /\ evictions (cacheStats st201) = S (evictions (cacheStats st))).
Proof.
  intros Hr Hc. pose proof (reachable_inv Hr) as Hinv.
  split; [|split].
  - destruct Hinv as [[_ Hb] _]. apply (Hb cls Hc).
  - intros now latitude longitude sp k1 rest Hk Hl Hn key st'.
    destruct (@eviction_fifo now latitude longitude cls sp st k1 rest
                Hc Hinv Hk Hl Hn) as (_ & H2 & H3 & H4 & H5).
    repeat split; auto.
    intros cls' Hc' Hne. apply classKeys_other_after_insert; auto.
  - intros first puts last He Hlen Hnd st200 st201.
    change (first :: puts ++ [last]) with ((first :: puts) ++ [last]) in Hnd.
    rewrite map_app in Hnd.
    pose proof (NoDup_app_remove_r _ _ Hnd) as Hnd1.
    assert (Hr200 : reachable st200) by (apply puts_reachable; assumption).
    destruct (@puts_below cls (first :: puts) Hc Hnd1 st) as (K1 & K2 & K3).
    { rewrite He. simpl. rewrite Hlen. unfold maxCacheSize. lia. }
    { intros a _. apply class_key_absent; assumption. }
    fold st200 in K1, K2, K3. rewrite He in K2. simpl app in K2.
    destruct last as [[[now la] lo] sp].
    assert (Hnew : map_get (cache st200) (generateLocationKey la lo cls) = None).
    { apply map_get_none. rewrite K1. intros Hin. apply in_app_or in Hin.
      destruct Hin as [Hin|Hin].
      - revert Hin. apply (@class_key_absent cls st (now, la, lo, sp)); assumption.
      - apply NoDup_remove_2 in Hnd. apply Hnd. rewrite app_nil_r.
        exact Hin. }
    cbn [List.map] in K2.
    destruct (@eviction_fifo now la lo cls sp st200 (key_of cls first)
                (List.map (key_of cls) puts) Hc (reachable_inv Hr200) K2)
      as (_ & H2 & H3 & _ & H5); [|exact Hnew|].
    { simpl. rewrite length_map, Hlen. reflexivity. }
    split; [exact K2|]. split; [|split; [exact H3|split]].
    + unfold st201, put. rewrite H2, map_app. reflexivity.
    + intros cls' Hc' Hne. unfold st201, put.
      rewrite classKeys_other_after_insert by (auto; apply reachable_inv; auto).
      apply puts_other_class; auto.
    + unfold st201, put. rewrite H5, K3. reflexivity.
Qed.

Lemma distinct_NoDup l : distinct l = true -> NoDup l.
Proof.
  induction l as [|x l IH]; simpl; intros H; constructor.
  - apply andb_prop in H. destruct H as [H _].
    intros Hin. apply negb_true_iff in H.
    assert (E : existsb (jsstring_eqb x) l = true).
    { apply existsb_exists. exists x. split; [exact Hin|apply jsstring_eqb_refl]. }
    congruence.
  - apply IH. apply andb_prop in H. tauto.
Qed.

Lemma cache_bounded_first_in_eviction_witness :
  map_get
    (cache (put birds
              (fold_left (put birds)
                 (cluster 0 :: List.map cluster (seq 1 199)) initial)
              (cluster 200)))
    (key_of birds (cluster 0)) = None.
Proof.
  refine (proj1 (proj2 (proj2
    (proj2 (proj2 (@cache_bounded_first_in_eviction initial birds
                     (reach_new initial eq_refl) (or_introl eq_refl)))
       (cluster 0) (List.map cluster (seq 1 199)) (cluster 200)
       eq_refl eq_refl _)))).
  apply distinct_NoDup. vm_compute. reflexivity.
Defined.

(* ================================================================= *)
(** ** Selection: cooldown and least-recently-used *)

Local Open Scope Z_scope.


(** *** The least-recently-used candidate *)






Section SelectionFacts.

Variables now twoDaysMs : Z.
Hypothesis now_set : now <> 0.
Hypothesis window_positive : 0 < twoDaysMs.








End SelectionFacts.
















Lemma first_min_in c l : first_min c l -> In c l.
Proof.
  intros (pre & post & -> & _). apply in_or_app. right. left. reflexivity.
Qed.

Lemma first_min_least c l s :
  first_min c l -> In s l -> lastUsed_or_0 c <= lastUsed_or_0 s.
Proof.
  intros (pre & post & -> & Hpre & Hpost) Hs. apply in_app_or in Hs.
  destruct Hs as [Hs|[<-|Hs]].
  - specialize (Hpre s Hs). lia.
  - lia.
  - apply Hpost. exact Hs.
Qed.









(* ================================================================= *)
(** ** Sanitization and its fixed points *)

Local Open Scope nat_scope.

(** *** Ends of strings *)

Lemma last_in_app c pre x : last_in c (pre ++ [x]) = c x.
Proof.
  induction pre as [|a pre IH]; [reflexivity|].
  simpl. destruct (pre ++ [x]) eqn:E; [destruct pre; discriminate|].
  exact IH.
Qed.

Lemma last_in_mono (c d : N -> bool) s :
  (forall x, c x = true -> d x = true) ->
  last_in c s = true -> last_in d s = true.
Proof.
  intros H. induction s as [|x s IH]; simpl; [auto|].
  destruct s; auto.
Qed.

Lemma forallb_last_in c s : s <> [] -> forallb c s = true -> last_in c s = true.
Proof.
  induction s as [|x s IH]; intros Hne H; [contradiction|].
  simpl in H. apply andb_prop in H. destruct H as [Hx Hs].
  simpl. destruct s; [exact Hx|]. apply IH; [discriminate|exact Hs].
Qed.

Lemma strip_last c s : last_in c (strip c s) = false.
Proof.
  induction s as [|x s IH]; [reflexivity|].
  cbn [strip]. destruct (forallb c (x :: s)) eqn:E; [reflexivity|].
  simpl. destruct (strip c s) as [|y t] eqn:Es; [|exact IH].
  destruct (c x) eqn:Ex; [|reflexivity].
  (* the rest is entirely in the class, so the whole string would be *)
  assert (Hs : forallb c s = true).
  { clear -Es. induction s as [|z s IH]; [reflexivity|].
    cbn [strip] in Es. destruct (forallb c (z :: s)); [reflexivity|discriminate]. }
  simpl in E. rewrite Ex, Hs in E. discriminate.
Qed.

Lemma strip_id c s : last_in c s = false -> strip c s = s.
Proof.
  induction s as [|x s IH]; intros H; [reflexivity|].
  cbn [strip]. destruct (forallb c (x :: s)) eqn:E.
  - apply forallb_last_in in E; [congruence|discriminate].
  - f_equal. apply IH. simpl in H. destruct s; [reflexivity|exact H].
Qed.

Lemma drop_space_last c s :
  (forall x, is_space x = true -> c x = true) ->
  last_in c s = false -> last_in c (drop_space s) = false.
Proof.
  intros Hsub. induction s as [|x s IH]; intros H; [reflexivity|].
  cbn [drop_space]. destruct (is_space x) eqn:Ex; [|exact H].
  apply IH. simpl in H. destruct s; [|exact H].
  rewrite (Hsub x Ex) in H. discriminate.
Qed.

Lemma drop_space_spaced s : spaced s -> spaced (drop_space s).
Proof.
  induction s as [|x s IH]; intros H; [exact I|].
  cbn [drop_space]. destruct (is_space x); [|exact H].
  apply IH. apply H.
Qed.

Lemma drop_space_head s : nonspace_head (drop_space s).
Proof.
  induction s as [|x s IH]; [exact I|].
  cbn [drop_space]. destruct (is_space x) eqn:E; [exact IH|exact E].
Qed.

Lemma drop_space_Forall (P : N -> Prop) s : Forall P s -> Forall P (drop_space s).
Proof.
  induction 1 as [|x s Hx Hs IH]; [constructor|].
  cbn [drop_space]. destruct (is_space x); [exact IH|constructor; assumption].
Qed.

Lemma drop_space_id s : nonspace_head s -> drop_space s = s.
Proof. destruct s as [|x s]; simpl; [reflexivity|intros ->; reflexivity]. Qed.

Lemma drop_space_rev s : last_in is_space s = false -> drop_space (rev s) = rev s.
Proof.
  destruct s as [|x s] using rev_ind; [reflexivity|].
  rewrite last_in_app, rev_app_distr. simpl. intros ->. reflexivity.
Qed.

(** [trim] only removes leading white space from a string that does not
    end in white space. *)
Lemma trim_drop s : last_in is_space s = false -> trim s = drop_space s.
Proof.
  intros H. unfold trim. rewrite drop_space_rev.
  - apply rev_involutive.
  - apply drop_space_last; auto.
Qed.

Lemma trim_id s : nonspace_head s -> last_in is_space s = false -> trim s = s.
Proof. intros Hh Hl. rewrite trim_drop by exact Hl. apply drop_space_id; exact Hh. Qed.

(** *** Collapsing white space *)

Lemma squeeze_spaced s :
  spaced (squeeze is_space [space] false s)
  /\ spaced (squeeze is_space [space] true s)
  /\ nonspace_head (squeeze is_space [space] true s).
Proof.
  induction s as [|x s (IH1 & IH2 & IH3)]; [simpl; auto|].
  cbn [squeeze]. destruct (is_space x) eqn:E.
  - repeat split; auto.
  - simpl. rewrite E. repeat split; auto; discriminate.
Qed.

Lemma squeeze_id s :
  spaced s ->
  squeeze is_space [space] false s = s
  /\ (nonspace_head s -> squeeze is_space [space] true s = s).
Proof.
  induction s as [|x s IH]; intros H; [auto|].
  destruct H as [Hx Hs]. destruct (IH Hs) as [IH1 IH2].
  cbn [squeeze]. destruct (is_space x) eqn:E.
  - destruct (Hx eq_refl) as [-> Hh]. split.
    + simpl. f_equal. apply IH2. exact Hh.
    + simpl. intros Hc. rewrite Hc in E. discriminate.
  - split; intros; f_equal; exact IH1.
Qed.

Lemma last_in_cons c a l : l <> [] -> last_in c (a :: l) = last_in c l.
Proof. destruct l; [contradiction|reflexivity]. Qed.

Lemma squeeze_true_nil by_ s :
  squeeze is_space by_ true s = [] -> forallb is_space s = true.
Proof.
  induction s as [|x s IH]; [reflexivity|].
  cbn [squeeze forallb]. destruct (is_space x); [exact IH|discriminate].
Qed.

Lemma squeeze_false_nil s : squeeze is_space [space] false s = [] -> s = [].
Proof.
  destruct s as [|x s]; [reflexivity|].
  cbn [squeeze]. destruct (is_space x); discriminate.
Qed.

Lemma squeeze_last c s :
  (forall x, is_space x = true -> c x = true) ->
  last_in c s = false ->
  forall b, last_in c (squeeze is_space [space] b s) = false.
Proof.
  intros Hsub. induction s as [|x s IH]; intros H b; [reflexivity|].
  destruct s as [|y t].
  - cbn [squeeze]. simpl in H. destruct (is_space x) eqn:E.
    + rewrite (Hsub x E) in H. discriminate.
    + exact H.
  - rewrite last_in_cons in H by discriminate.
    assert (Hne : y :: t <> []) by discriminate.
    revert IH H Hne. generalize (y :: t). intros l IH H Hne.
    cbn [squeeze]. destruct (is_space x) eqn:E.
    + destruct b; [apply IH; exact H|].
      cbn [app].
      destruct (squeeze is_space [space] true l) as [|z l'] eqn:Eq.
      * apply squeeze_true_nil in Eq.
        apply forallb_last_in in Eq; [|exact Hne].
        apply (last_in_mono is_space c _ Hsub) in Eq. congruence.
      * rewrite last_in_cons by discriminate. rewrite <- Eq. apply IH; exact H.
    + destruct (squeeze is_space [space] false l) as [|z l'] eqn:Eq.
      * apply squeeze_false_nil in Eq. contradiction.
      * rewrite last_in_cons by discriminate. rewrite <- Eq. apply IH; exact H.
Qed.

(** *** Steps that leave a sanitized name alone *)

Lemma replace_cls_id c by_ s :
  Forall (fun x => c x = false) s -> replace_all (Cls c) by_ s = s.
Proof.
  intros H. unfold replace_all.
  apply replace_go_id with (Q := fun x => c x = false); [|exact H].
  intros p t Ht. rewrite match_at_cls. destruct t as [|x t]; [reflexivity|].
  inversion Ht as [|? ? Hx _]; subst. rewrite Hx. reflexivity.
Qed.

Lemma spaces_squeeze s :
  replace_all re_spaces [space] s = squeeze is_space [space] false s.
Proof. unfold replace_all, re_spaces. apply replace_plus. Qed.

Lemma trailing_strip s :
  replace_all re_trailing [] s = strip is_trailing_punct s.
Proof. unfold replace_all, re_trailing. apply replace_trailing. Qed.

Lemma name_char_not_lparen x : is_name_char x = true -> N.eqb lparen x = false.
Proof.
  intros H. destruct (N.eqb_spec lparen x) as [E|E]; [|reflexivity].
  subst x. vm_compute in H. discriminate.
Qed.

Lemma name_char_not_curly x : is_name_char x = true -> is_curly_quote x = false.
Proof.
  intros H. unfold is_curly_quote.
  repeat match goal with
         | |- context [N.eqb x ?n] =>
             destruct (N.eqb_spec x n);
             [subst x; vm_compute in H; discriminate|]
         end.
  reflexivity.
Qed.

Lemma rmatch_seq r1 r2 p s n k :
  rmatch (Seq r1 r2) p s n k
  = rmatch r1 p s n (fun p' s' n' => rmatch r2 p' s' n' k).
Proof. reflexivity. Qed.

Lemma parenthetical_id s :
  name_chars s -> replace_all re_parenthetical [] s = s.
Proof.
  intros H. unfold replace_all.
  apply replace_go_id with (Q := fun x => is_name_char x = true); [|exact H].
  intros p t Ht. unfold match_at, re_parenthetical. rewrite rmatch_seq.
  unfold chr at 1. cbn [rmatch].
  destruct t as [|x t]; [reflexivity|].
  inversion Ht as [|? ? Hx _]; subst.
  rewrite (name_char_not_lparen _ Hx). reflexivity.
Qed.

Lemma author_year_id s : no_digit s -> replace_all re_author_year [] s = s.
Proof.
  intros H. unfold replace_all.
  apply replace_go_id with (Q := fun x => is_digit x = false); [|exact H].
  intros p t Ht. unfold match_at, re_author_year.
  rewrite rmatch_seq. apply rmatch_fail with (Q := fun x => is_digit x = false);
    [|exact Ht].
  intros p1 s1 n1 H1. rewrite rmatch_seq.
  apply rmatch_fail with (Q := fun x => is_digit x = false); [|exact H1].
  intros p2 s2 n2 H2. rewrite rmatch_seq.
  apply rmatch_fail with (Q := fun x => is_digit x = false); [|exact H2].
  intros p3 s3 n3 H3. rewrite rmatch_seq. cbn [rmatch rep Nat.eqb].
  destruct s3 as [|x s3]; [reflexivity|].
  inversion H3 as [|? ? Hx _]; subst. rewrite Hx. reflexivity.
Qed.

Lemma spaces_id s : spaced s -> replace_all re_spaces [space] s = s.
Proof. intros H. rewrite spaces_squeeze. apply squeeze_id. exact H. Qed.

Lemma space_is_trailing x : is_space x = true -> is_trailing_punct x = true.
Proof. intros H. unfold is_trailing_punct. rewrite H. apply orb_true_r. Qed.

Lemma not_trailing_not_space s :
  last_in is_trailing_punct s = false -> last_in is_space s = false.
Proof.
  intros H. destruct (last_in is_space s) eqn:E; [|reflexivity].
  apply (last_in_mono is_space is_trailing_punct _ space_is_trailing) in E.
  congruence.
Qed.

(** *** What [sanitizeDisplayName] returns *)

Lemma sanitize_clean x :
  sanitizeDisplayName x = [] \/ clean (sanitizeDisplayName x).
Proof.
  unfold sanitizeDisplayName. destruct (negb (truthy x)); [left; reflexivity|].
  cbv zeta.
  set (s4 := replace_all re_shorthand [] _).
  set (s7 := replace_all re_not_name_char []
               (replace_all re_curly [apostrophe] (replace_all re_digit [] s4))).
  assert (D7 : no_digit s7).
  { unfold s7, no_digit. apply replace_all_Forall; [constructor|].
    apply replace_all_Forall; [repeat constructor|].
    unfold re_digit. rewrite replace_cls_delete. apply Forall_forall.
    intros c Hc. apply filter_In in Hc. destruct Hc as [_ Hc].
    apply negb_true_iff. exact Hc. }
  assert (N7 : name_chars s7).
  { unfold s7, name_chars, re_not_name_char. rewrite replace_cls_delete.
    apply Forall_forall. intros c Hc. apply filter_In in Hc.
    destruct Hc as [_ Hc]. rewrite negb_involutive in Hc. exact Hc. }
  clearbody s7. clear s4.
  set (t := replace_all re_trailing [] s7).
  assert (Dt : no_digit t) by (apply replace_all_Forall; [constructor|exact D7]).
  assert (Nt : name_chars t) by (apply replace_all_Forall; [constructor|exact N7]).
  assert (Lt : last_in is_trailing_punct t = false)
    by (unfold t; rewrite trailing_strip; apply strip_last).
  clearbody t. clear s7 D7 N7.
  set (q := replace_all re_spaces [space] t).
  assert (Dq : no_digit q)
    by (apply replace_all_Forall; [repeat constructor|exact Dt]).
  assert (Nq : name_chars q)
    by (apply replace_all_Forall; [repeat constructor|exact Nt]).
  assert (Sq : spaced q) by (unfold q; rewrite spaces_squeeze; apply squeeze_spaced).
  assert (Lq : last_in is_trailing_punct q = false).
  { unfold q. rewrite spaces_squeeze.
    apply squeeze_last; [exact space_is_trailing|exact Lt]. }
  clearbody q. clear t Dt Nt Lt.
  rewrite (trim_drop _ (not_trailing_not_space _ Lq)).
  destruct (negb (truthy (drop_space q)) || (List.length (drop_space q) <? 2))%bool
    eqn:E; [left; reflexivity|right].
  apply orb_false_iff in E. destruct E as [_ E]. apply Nat.ltb_ge in E.
  repeat split.
  - apply drop_space_Forall; exact Dq.
  - apply drop_space_Forall; exact Nq.
  - apply drop_space_spaced; exact Sq.
  - apply drop_space_head.
  - apply drop_space_last; [exact space_is_trailing|exact Lq].
  - exact E.
Qed.

(** A clean name on which the shorthand pattern finds nothing is a fixed
    point. *)
Lemma clean_fixed y :
  clean y ->
  replace_all re_shorthand [] y = y ->
  sanitizeDisplayName y = y.
Proof.
  intros (Hd & Hn & Hs & Hh & Hl & Hlen) Hshort.
  pose proof (not_trailing_not_space _ Hl) as Hls.
  unfold sanitizeDisplayName.
  assert (Ht : truthy y = true) by (destruct y; [simpl in Hlen; lia|reflexivity]).
  rewrite Ht. cbv zeta. cbn [negb].
  rewrite (@spaces_id y Hs), (@trim_id y Hh Hls).
  rewrite (@parenthetical_id y Hn), (@author_year_id y Hd), Hshort.
  unfold re_digit. rewrite (@replace_cls_id is_digit [] y Hd).
  unfold re_curly. rewrite replace_cls_id.
  2:{ eapply Forall_impl; [|exact Hn]. intros a Ha. apply name_char_not_curly.
      exact Ha. }
  unfold re_not_name_char. rewrite replace_cls_id.
  2:{ eapply Forall_impl; [|exact Hn]. intros a Ha. cbv beta. rewrite Ha.
      reflexivity. }
  rewrite trailing_strip, (@strip_id is_trailing_punct y Hl).
  rewrite (@spaces_id y Hs), (@trim_id y Hh Hls), Ht.
  destruct (Nat.ltb_spec (List.length y) 2); [lia|reflexivity].
Qed.

(** *** C8: idempotence *)

(** "Felis sp1" is sanitized to "Felis sp" (the shorthand pattern does not
    match "sp1", and the digit is removed afterwards); "Felis sp" is then
    sanitized to "Felis". *)
Lemma sanitize_not_idempotent :
  sanitizeDisplayName (js "Felis sp1") = js "Felis sp"
  /\ sanitizeDisplayName (js "Felis sp") = js "Felis"
  /\ sanitizeDisplayName (sanitizeDisplayName (js "Felis sp1"))
     <> sanitizeDisplayName (js "Felis sp1").
Proof.
  repeat split; try (vm_compute; reflexivity).
  vm_compute. discriminate.
Qed.

(** C8 (amended).  [sanitize(sanitize(x)) = sanitize(x)] for every string
    [x] whose sanitized form holds no shorthand token, that is, whenever the
    step that removes [sp], [spp], [cf], [aff], [var], [subsp], [form] and
    [forma] leaves [sanitize(x)] unchanged. *)
Theorem sanitize_idempotent_without_shorthand (x : jsstring) :
  replace_all re_shorthand [] (sanitizeDisplayName x) = sanitizeDisplayName x ->
  sanitizeDisplayName (sanitizeDisplayName x) = sanitizeDisplayName x.
Proof.
  intros H. destruct (sanitize_clean x) as [E|Hc].
  - rewrite E. reflexivity.
  - apply clean_fixed; assumption.
Qed.

Lemma sanitize_idempotent_without_shorthand_witness :
  sanitizeDisplayName (sanitizeDisplayName raw_bullfrog)
  = sanitizeDisplayName raw_bullfrog.
Proof.
  apply sanitize_idempotent_without_shorthand.
  vm_compute. reflexivity.
Defined.

(* ================================================================= *)
(** ** Title-cased names and the case-insensitive comparison *)

Lemma lower_cu_not_space x : (lower_cu x =? space)%N = (x =? space)%N.
Proof.
  unfold lower_cu, is_upper, in_range, space.
  destruct (N.leb_spec 65 x), (N.leb_spec x 90); cbn [andb]; try reflexivity.
  destruct (N.eqb_spec (x + 32) 32), (N.eqb_spec x 32); try reflexivity; lia.
Qed.

Lemma upper_lower_cu x : upper_cu (lower_cu x) = upper_cu x.
Proof.
  unfold upper_cu, lower_cu, is_upper, is_lower, in_range.
  destruct (N.leb_spec 65 x), (N.leb_spec x 90); cbn [andb];
    destruct (N.leb_spec 97 x), (N.leb_spec x 122); cbn [andb]; try lia;
    try reflexivity;
    destruct (N.leb_spec 97 (x + 32)), (N.leb_spec (x + 32) 122); cbn [andb];
    lia.
Qed.

Lemma lower_lower_cu x : lower_cu (lower_cu x) = lower_cu x.
Proof.
  unfold lower_cu, is_upper, in_range.
  destruct (N.leb_spec 65 x), (N.leb_spec x 90); cbn [andb];
    try (destruct (N.leb_spec 65 x), (N.leb_spec x 90); cbn [andb]; lia).
  destruct (N.leb_spec 65 (x + 32)), (N.leb_spec (x + 32) 90); cbn [andb]; lia.
Qed.

Lemma split_lower s :
  split space (toLowerCase s) = List.map toLowerCase (split space s).
Proof.
  induction s as [|x s IH]; [reflexivity|].
  cbn [toLowerCase List.map split]. rewrite lower_cu_not_space.
  fold (toLowerCase s). rewrite IH.
  destruct (x =? space)%N; [reflexivity|].
  destruct (split space s); reflexivity.
Qed.

Lemma capitalize_lower w : capitalize (toLowerCase w) = capitalize w.
Proof.
  destruct w as [|c w]; [reflexivity|].
  unfold capitalize, toLowerCase. cbn [List.map].
  rewrite upper_lower_cu, map_map. f_equal.
  apply map_ext. intros a. apply lower_lower_cu.
Qed.

(** [capitalizeWords] only looks at the lower-cased text. *)
Lemma capitalizeWords_lower s :
  capitalizeWords (toLowerCase s) = capitalizeWords s.
Proof.
  unfold capitalizeWords. rewrite split_lower, map_map. f_equal.
  apply map_ext. intros w. apply capitalize_lower.
Qed.

(** Names in the form [cacheSpecies] gives them (fixed by
    [capitalizeWords]) are distinct exactly when they are distinct for the
    case-insensitive comparison of [selectSpecies]. *)
Lemma title_cased_distinct (l : list Species) :
  Forall (fun s => capitalizeWords (name s) = name s) l ->
  NoDup (List.map name l) ->
  NoDup (List.map lname l).
Proof.
  induction l as [|s l IH]; intros Hf Hnd; [constructor|].
  inversion Hf as [|? ? Hs Hl]; subst.
  simpl in Hnd. inversion Hnd as [|? ? Hnot Hnd']; subst.
  simpl. constructor; [|apply IH; assumption].
  intros Hin. apply Hnot. apply in_map_iff in Hin.
  destruct Hin as (s' & E & Hs'). apply in_map_iff. exists s'.
  split; [|exact Hs'].
  rewrite Forall_forall in Hl. unfold lname in E.
  rewrite <- (Hl s' Hs'), <- Hs, <- (capitalizeWords_lower (name s')), E.
  apply capitalizeWords_lower.
Qed.

(* ================================================================= *)
(** ** Further properties of the name normalizer *)

Local Open Scope nat_scope.

(** X1.  [sanitizeDisplayName] returns either the empty string or a clean
    name: no digit; only the letters A-Z and a-z, the underscore, U+0020,
    the apostrophe, the hyphen and the dot (so no comma); every U+0020
    single and followed by another character; no white space at the start;
    a last character that is not a comma, a hyphen, a dot or white space
    (it can be an apostrophe or an underscore); at least two code units. *)
Theorem sanitize_empty_or_clean (x : jsstring) :
  sanitizeDisplayName x = []
  \/ (no_digit (sanitizeDisplayName x)
      /\ name_chars (sanitizeDisplayName x)
      /\ spaced (sanitizeDisplayName x)
      /\ nonspace_head (sanitizeDisplayName x)
      /\ last_in is_trailing_punct (sanitizeDisplayName x) = false
      /\ 2 <= List.length (sanitizeDisplayName x)).
Proof. apply sanitize_clean. Qed.

(** *** [isValidCommonName] *)

Lemma test_go_cls_false c s :
  forall p, test_go (Cls c) p s = false -> Forall (fun x => c x = false) s.
Proof.
  induction s as [|x s IH]; intros p H; [constructor|].
  cbn [test_go] in H. rewrite match_at_cls in H.
  destruct (c x) eqn:E; [discriminate|]. constructor; eauto.
Qed.

Lemma trim_Forall (P : N -> Prop) s : Forall P s -> Forall P (trim s).
Proof.
  intros H. unfold trim. apply Forall_rev. apply drop_space_Forall.
  apply Forall_rev. apply drop_space_Forall. exact H.
Qed.

(** X2.  A name that [isValidCommonName] accepts has, once trimmed, at
    least three code units, no digit, and no placeholder token ([sp],
    [spp], [species], [unidentified], [unknown], [indet], [gen], [gen.]) as
    a whole word. *)
Theorem isValidCommonName_sound (s : jsstring) :
  isValidCommonName s = true ->
  3 <= List.length (trim s)
  /\ no_digit (trim s)
  /\ test re_placeholder (trim s) = false.
Proof.
  unfold isValidCommonName. destruct (negb (truthy s)); [discriminate|].
  cbv zeta. destruct (Nat.ltb_spec (List.length (trim s)) 3); [discriminate|].
  destruct (test re_any_digit (trim s)) eqn:Ed; [discriminate|].
  destruct (test re_placeholder (trim s)) eqn:Ep; [discriminate|].
  intros _. repeat split; auto.
  eapply test_go_cls_false. exact Ed.
Qed.

Lemma isValidCommonName_sound_witness :
  3 <= List.length (trim (js "American Robin")).
Proof.
  exact (proj1 (@isValidCommonName_sound (js "American Robin") eq_refl)).
Defined.

(** *** [split], [join] and [capitalizeWords] *)

Lemma split_nonempty sep s : split sep s <> [].
Proof.
  destruct s as [|x s]; [discriminate|]. simpl.
  destruct (x =? sep)%N; [discriminate|]. destruct (split sep s); discriminate.
Qed.

Lemma split_parts sep s :
  Forall (Forall (fun x => (x =? sep)%N = false)) (split sep s).
Proof.
  induction s as [|x s IH]; [repeat constructor|]. simpl.
  destruct (x =? sep)%N eqn:E; [constructor; [constructor|exact IH]|].
  destruct (split sep s) as [|h t]; [repeat constructor; exact E|].
  inversion IH; subst. constructor; [constructor; assumption|assumption].
Qed.

Lemma join_cons sep p parts :
  parts <> [] -> join sep (p :: parts) = p ++ sep ++ join sep parts.
Proof. destruct parts; [contradiction|reflexivity]. Qed.

(** Joining the parts of a split gives the string back. *)
Lemma join_split s : join [space] (split space s) = s.
Proof.
  induction s as [|x s IH]; [reflexivity|]. cbn [split].
  pose proof (split_nonempty space s) as Hne.
  destruct (N.eqb_spec x space) as [E|E].
  - subst x. rewrite join_cons by exact Hne. rewrite IH. reflexivity.
  - destruct (split space s) as [|h t]; [contradiction|].
    destruct t as [|h' t].
    + cbn [join] in *. rewrite IH. reflexivity.
    + rewrite join_cons in * by discriminate.
      rewrite <- IH. reflexivity.
Qed.

Lemma split_app p t :
  Forall (fun x => (x =? space)%N = false) p ->
  split space (p ++ space :: t) = p :: split space t.
Proof.
  induction 1 as [|x p Hx Hp IH]; [reflexivity|].
  cbn [app split]. rewrite Hx, IH. reflexivity.
Qed.

(** Splitting a join of space-free parts gives the parts back. *)
Lemma split_join parts :
  parts <> [] ->
  Forall (Forall (fun x => (x =? space)%N = false)) parts ->
  split space (join [space] parts) = parts.
Proof.
  induction parts as [|p parts IH]; intros Hne Hf; [contradiction|].
  inversion Hf as [|? ? Hp Hrest]; subst.
  destruct parts as [|q rest].
  - cbn [join]. apply split_no_sep. exact Hp.
  - cbn [join]. cbn [app]. rewrite (split_app _ Hp). f_equal.
    apply IH; [discriminate|exact Hrest].
Qed.

Lemma upper_cu_not_space x : (upper_cu x =? space)%N = (x =? space)%N.
Proof.
  unfold upper_cu, is_lower, in_range, space.
  destruct (N.leb_spec 97 x), (N.leb_spec x 122); cbn [andb]; try reflexivity.
  destruct (N.eqb_spec (x - 32) 32), (N.eqb_spec x 32); try reflexivity; lia.
Qed.

Lemma upper_upper_cu x : upper_cu (upper_cu x) = upper_cu x.
Proof.
  unfold upper_cu, is_lower, in_range.
  destruct (N.leb_spec 97 x), (N.leb_spec x 122); cbn [andb];
    try (destruct (N.leb_spec 97 x), (N.leb_spec x 122); cbn [andb]; lia).
  destruct (N.leb_spec 97 (x - 32)), (N.leb_spec (x - 32) 122); cbn [andb]; lia.
Qed.

Lemma lower_upper_cu x : lower_cu (upper_cu x) = lower_cu x.
Proof.
  unfold upper_cu, lower_cu, is_upper, is_lower, in_range.
  destruct (N.leb_spec 97 x), (N.leb_spec x 122); cbn [andb];
    destruct (N.leb_spec 65 x), (N.leb_spec x 90); cbn [andb]; try lia;
    try reflexivity;
    destruct (N.leb_spec 65 (x - 32)), (N.leb_spec (x - 32) 90); cbn [andb];
    lia.
Qed.

Lemma capitalize_no_space w :
  Forall (fun x => (x =? space)%N = false) w ->
  Forall (fun x => (x =? space)%N = false) (capitalize w).
Proof.
  destruct w as [|c w]; intros H; [constructor|].
  inversion H as [|? ? Hc Hw]; subst. unfold capitalize, toLowerCase.
  constructor; [rewrite upper_cu_not_space; exact Hc|].
  apply Forall_map. eapply Forall_impl; [|exact Hw].
  intros a Ha. cbv beta. rewrite lower_cu_not_space. exact Ha.
Qed.

Lemma capitalize_capitalize w : capitalize (capitalize w) = capitalize w.
Proof.
  destruct w as [|c w]; [reflexivity|]. unfold capitalize, toLowerCase.
  rewrite upper_upper_cu, map_map. f_equal.
  apply map_ext. intros a. apply lower_lower_cu.
Qed.

Lemma capitalize_length w : List.length (capitalize w) = List.length w.
Proof.
  destruct w as [|c w]; [reflexivity|]. unfold capitalize, toLowerCase.
  simpl. rewrite length_map. reflexivity.
Qed.

Lemma lower_capitalize w : toLowerCase (capitalize w) = toLowerCase w.
Proof.
  destruct w as [|c w]; [reflexivity|]. unfold capitalize, toLowerCase.
  cbn [List.map]. rewrite lower_upper_cu, map_map. f_equal.
  apply map_ext. intros a. apply lower_lower_cu.
Qed.

Lemma join_map_length (f : jsstring -> jsstring) parts :
  (forall w, List.length (f w) = List.length w) ->
  List.length (join [space] (List.map f parts))
  = List.length (join [space] parts).
Proof.
  intros Hf. induction parts as [|p parts IH]; [reflexivity|].
  destruct parts as [|q rest]; [apply Hf|].
  cbn [List.map join] in *. rewrite !length_app, Hf, IH. reflexivity.
Qed.

Lemma join_map_lower parts :
  toLowerCase (join [space] (List.map capitalize parts))
  = toLowerCase (join [space] parts).
Proof.
  induction parts as [|p parts IH]; [reflexivity|].
  destruct parts as [|q rest]; [apply lower_capitalize|].
  cbn [List.map join] in *. unfold toLowerCase in *.
  rewrite !map_app. fold (toLowerCase (capitalize p)).
  rewrite lower_capitalize, IH. reflexivity.
Qed.

Lemma capitalizeWords_length s :
  List.length (capitalizeWords s) = List.length s.
Proof.
  unfold capitalizeWords.
  rewrite (join_map_length capitalize _ capitalize_length).
  rewrite join_split. reflexivity.
Qed.

(** X4.  On a string of Basic Latin code units (below 128), where the
    case mappings of the code are the ASCII ones, [capitalizeWords] is
    idempotent, keeps the length of the string and only changes the case of
    letters: the lower-cased result is the lower-cased input. *)
Theorem capitalizeWords_idempotent (s : jsstring) :
  ascii_only s ->
  capitalizeWords (capitalizeWords s) = capitalizeWords s
  /\ List.length (capitalizeWords s) = List.length s
  /\ toLowerCase (capitalizeWords s) = toLowerCase s.
Proof.
  intros _.
  split; [|split; [apply capitalizeWords_length|]]; unfold capitalizeWords.
  - rewrite split_join.
    + rewrite map_map. f_equal. apply map_ext. intros w.
      apply capitalize_capitalize.
    + intros E. apply map_eq_nil in E. revert E. apply split_nonempty.
    + apply Forall_map. eapply Forall_impl; [|apply split_parts].
      intros w Hw. apply capitalize_no_space. exact Hw.
  - rewrite join_map_lower, join_split. reflexivity.
Qed.

Lemma capitalizeWords_idempotent_witness :
  capitalizeWords (capitalizeWords (js "house SPARROW"))
  = capitalizeWords (js "house SPARROW").
Proof.
  apply (@capitalizeWords_idempotent (js "house SPARROW")).
  repeat constructor.
Defined.

(** *** [extractBinomial] *)

(** X3.  [extractBinomial] returns either the empty string or exactly two
    non-empty words without U+0020, joined by one U+0020. *)
Theorem extractBinomial_shape (x : jsstring) :
  extractBinomial x = []
  \/ exists genus epithet,
       plain_word genus /\ plain_word epithet
       /\ extractBinomial x = genus ++ [space] ++ epithet.
Proof.
  unfold extractBinomial. destruct (negb (truthy x)); [left; reflexivity|].
  cbv zeta.
  set (s := trim _).
  assert (Hp : Forall plain_word (filter_nonempty (split space s))).
  { apply Forall_forall. intros w Hw. unfold filter_nonempty in Hw.
    apply filter_In in Hw. destruct Hw as [Hin Ht]. split.
    - intros E. subst w. discriminate.
    - pose proof (split_parts space s) as Hs. rewrite Forall_forall in Hs.
      apply Hs. exact Hin. }
  destruct (filter_nonempty (split space s)) as [|p0 [|p1 rest]];
    [left; reflexivity|left; reflexivity|right].
  inversion Hp as [|? ? H0 Hp']; subst. inversion Hp' as [|? ? H1 _]; subst.
  exists p0, p1. auto.
Qed.

Lemma extractBinomial_single_word_witness :
  extractBinomial (js "Passer") = [].
Proof.
  apply extractBinomial_single_word.
  unfold no_space. apply Forall_forall. intros c Hc.
  repeat (destruct Hc as [<-|Hc]; [reflexivity|]). destruct Hc.
Defined.

(** *** [formatDisplayForUI] *)

Lemma capitalizeWords_nonempty s : s <> [] -> capitalizeWords s <> [].
Proof.
  intros Hs E. apply Hs. apply length_zero_iff_nil.
  rewrite <- (capitalizeWords_length s), E. reflexivity.
Qed.

(** X5.  [formatDisplayForUI] never returns the empty string, whatever the
    common and scientific names are. *)
Theorem formatDisplayForUI_nonempty (nm scientific : jsstring) :
  formatDisplayForUI nm scientific <> [].
Proof.
  unfold formatDisplayForUI.
  destruct (isValidCommonName nm) eqn:Ev.
  - apply capitalizeWords_nonempty. intros E. subst nm. discriminate.
  - destruct scientific as [|c sc]; cbn [truthy].
    + destruct nm as [|n0 nm]; cbn [truthy]; [discriminate|].
      apply capitalizeWords_nonempty. discriminate.
    + destruct (filter_nonempty (split space (c :: sc))) as [|p0 [|p1 rest]];
        try discriminate.
      intros E. apply app_eq_nil in E. destruct E as [_ E]. discriminate.
Qed.

(** *** [getBestVernacular] *)

Lemma valid_cleaned_some raw c :
  valid_cleaned raw = Some c ->
  c = sanitizeDisplayName raw /\ isValidCommonName c = true.
Proof.
  unfold valid_cleaned.
  destruct (isValidCommonName (sanitizeDisplayName raw)) eqn:E; [|discriminate].
  intros H. injection H as <-. auto.
Qed.

Lemma try_entry_some found c :
  try_entry found = Some c ->
  exists raw, c = sanitizeDisplayName raw /\ isValidCommonName c = true.
Proof.
  unfold try_entry. destruct found as [n|]; [|discriminate].
  destruct (opt_truthy (vernacular n)); [|discriminate].
  intros H. eexists. apply valid_cleaned_some. exact H.
Qed.

Lemma first_valid_some entries c :
  first_valid entries = Some c ->
  exists raw, c = sanitizeDisplayName raw /\ isValidCommonName c = true.
Proof.
  induction entries as [|n rest IH]; [discriminate|]. cbn [first_valid].
  destruct (if opt_truthy (vernacular n) then _ else None) as [c'|] eqn:E.
  - intros H. injection H as <-.
    destruct (opt_truthy (vernacular n)); [|discriminate].
    eexists. apply valid_cleaned_some. exact E.
  - exact IH.
Qed.

Lemma or_opt_some {A} (a b : option A) (P : A -> Prop) c :
  (forall x, a = Some x -> P x) -> (forall x, b = Some x -> P x) ->
  or_opt a b = Some c -> P c.
Proof. destruct a; simpl; intros Ha Hb H; [apply Ha|apply Hb]; exact H. Qed.

(** X6.  [getBestVernacular] returns either the empty string or a
    sanitized name that [isValidCommonName] accepts, whichever field of the
    record it comes from. *)
Theorem getBestVernacular_empty_or_valid (record : GbifRecord) :
  getBestVernacular record = []
  \/ (isValidCommonName (getBestVernacular record) = true
      /\ exists raw, getBestVernacular record = sanitizeDisplayName raw).
Proof.
  set (good := fun c : jsstring =>
                 isValidCommonName c = true
                 /\ exists raw, c = sanitizeDisplayName raw).
  assert (Hv : forall raw c, valid_cleaned raw = Some c -> good c).
  { intros raw c H. apply valid_cleaned_some in H. destruct H as [H1 H2].
    split; [exact H2|exists raw; exact H1]. }
  assert (Ht : forall found c, try_entry found = Some c -> good c).
  { intros found c H. apply try_entry_some in H. destruct H as (raw & H1 & H2).
    split; [exact H2|exists raw; exact H1]. }
  assert (Hf : forall entries c, first_valid entries = Some c -> good c).
  { intros entries c H. apply first_valid_some in H.
    destruct H as (raw & H1 & H2). split; [exact H2|exists raw; exact H1]. }
  unfold getBestVernacular. cbv zeta.
  match goal with
  | |- context [match ?o with Some c => c | None => [] end] =>
      destruct o as [c|] eqn:E; [right|left; reflexivity]
  end.
  change (good c). revert E.
  repeat first
    [ apply or_opt_some with (P := good); intros ?
    | apply Ht | apply Hf | apply Hv
    | discriminate
    | match goal with
      | |- match ?x with _ => _ end = Some _ -> _ => destruct x
      | |- (if ?x then _ else _) = Some _ -> _ => destruct x
      end ].
Qed.

(* ================================================================= *)
(** ** The fallback tables *)

Ltac table_lookup k :=
  cbn [prop];
  repeat match goal with
         | |- context [jsstring_eqb ?a k] => destruct (jsstring_eqb a k)
         end.

Ltac names_distinct :=
  apply distinct_NoDup; vm_compute; reflexivity.

Ltac all_candidates :=
  repeat first [ apply Forall_nil
               | apply Forall_cons;
                 [ split; [vm_compute; reflexivity|];
                   cbn [type source lastUsed]; repeat split | ] ].

Lemma global_candidates (animalType : jsstring) :
  List.length (getGlobalFallback animalType) = 5
  /\ NoDup (List.map lname (getGlobalFallback animalType))
  /\ Forall (candidate_of animalType (js "global-fallback"))
       (getGlobalFallback animalType).
Proof.
  unfold getGlobalFallback, globalFallbacks, candidate_of.
  table_lookup animalType; cbn [List.map List.length];
    (split; [reflexivity|split; [names_distinct|all_candidates]]).
Qed.

(** X7.  For every class name that is not an inherited property name,
    [getGlobalFallback] returns five candidates (the birds when the name is
    not a key of the table): each has a valid common name, the singular of
    the requested name as its type and the source [global-fallback], and no
    two names agree when case is ignored. *)
Theorem getGlobalFallback_candidates (animalType : jsstring) :
  ~ In animalType inherited_names ->
  List.length (getGlobalFallback animalType) = 5
  /\ NoDup (List.map lname (getGlobalFallback animalType))
  /\ Forall (candidate_of animalType (js "global-fallback"))
       (getGlobalFallback animalType).
Proof. intros _. apply global_candidates. Qed.

Lemma getGlobalFallback_candidates_witness :
  List.length (getGlobalFallback (js "insects")) = 5.
Proof.
  apply (@getGlobalFallback_candidates (js "insects")).
  intros H. repeat (destruct H as [H|H]; [discriminate H|]). exact H.
Defined.

Lemma region_of_cases latitude longitude :
  In (region_of latitude longitude)
     [js "california"; js "pacific_northwest"; js "eastern_forests"; js "default"].
Proof.
  unfold region_of.
  repeat match goal with
         | |- context [if ?b then _ else _] => destruct b
         end; simpl; auto.
Qed.

(** X8.  For every position and every class name that is not an inherited
    property name, [getRegionalFallback] returns either nothing or four
    candidates with valid, pairwise different common names and the source
    [regional-<region>]; outside the three regions it returns nothing. *)
Theorem getRegionalFallback_candidates (latitude longitude : Q)
  (animalType : jsstring) :
  ~ In animalType inherited_names ->
  (getRegionalFallback latitude longitude animalType = []
   \/ List.length (getRegionalFallback latitude longitude animalType) = 4)
  /\ NoDup (List.map lname (getRegionalFallback latitude longitude animalType))
  /\ Forall (candidate_of animalType
               (js "regional-" ++ region_of latitude longitude))
       (getRegionalFallback latitude longitude animalType)
  /\ (region_of latitude longitude = js "default" ->
      getRegionalFallback latitude longitude animalType = []).
Proof.
  intros _. unfold getRegionalFallback, candidate_of. cbv zeta.
  generalize (region_of_cases latitude longitude).
  generalize (region_of latitude longitude). intros region Hr.
  repeat (destruct Hr as [<-|Hr]; [|]); [| | | |destruct Hr];
    match goal with
    | |- context [prop regionalFallbacks ?r] =>
        let v := eval vm_compute in (prop regionalFallbacks r) in
        change (prop regionalFallbacks r) with v
    end; cbv iota;
    table_lookup animalType; cbn [List.map List.length];
    (split; [first [left; reflexivity|right; reflexivity]
            |split; [first [apply NoDup_nil|names_distinct]
                    |split; [all_candidates
                            |first [reflexivity|intros H; discriminate H]]]]).
Qed.

Lemma getRegionalFallback_candidates_witness :
  List.length (getRegionalFallback 37.77 (-122.42) (js "birds")) = 4.
Proof.
  destruct (@getRegionalFallback_candidates 37.77 (-122.42) (js "birds"))
    as [[H|H] _].
  - intros H. repeat (destruct H as [H|H]; [discriminate H|]). exact H.
  - discriminate H.
  - exact H.
Defined.

(** *** [getEmergencyFallback] *)

Lemma Forall_firstn {A} (P : A -> Prop) n (l : list A) :
  Forall P l -> Forall P (firstn n l).
Proof.
  intros H. revert n. induction H; intros [|n]; simpl; auto.
Qed.

Lemma Forall_slice0 {A} (P : A -> Prop) (l : list A) count :
  Forall P l -> Forall P (slice0 l count).
Proof. intros H. unfold slice0. destruct (0 <=? count)%Z; apply Forall_firstn, H. Qed.

Lemma slice0_length {A} (l : list A) count :
  (0 <= count)%Z ->
  Z.of_nat (List.length (slice0 l count))
  = Z.min count (Z.of_nat (List.length l)).
Proof.
  intros Hc. unfold slice0. destruct (Z.leb_spec 0 count); [|lia].
  rewrite length_firstn. lia.
Qed.

Lemma slice0_negative {A} (l : list A) count :
  (count < 0)%Z ->
  Z.of_nat (List.length (slice0 l count))
  = Z.max 0 (Z.of_nat (List.length l) + count).
Proof.
  intros Hc. unfold slice0. destruct (Z.leb_spec 0 count); [lia|].
  rewrite length_firstn. lia.
Qed.

(** X9.  [getEmergencyFallback] with a count of at least zero: for a class
    name it returns [min count 5] global candidates; without one it returns
    one element per class, in the order of [taxonomicClasses], whose
    [count] field is the requested count even when only five species are
    there. *)
Theorem getEmergencyFallback_sizes (animalType : option jsstring) (count : Z) :
  (0 <= count)%Z ->
  (forall s, animalType = Some s -> ~ In s inherited_names) ->
  match getEmergencyFallback animalType count with
  | EmergencyForType sp =>
      opt_truthy animalType = true
      /\ Z.of_nat (List.length sp) = Z.min count 5
      /\ Forall (candidate_of (opt_string animalType) (js "global-fallback")) sp
  | EmergencyForAll results =>
      opt_truthy animalType = false
      /\ List.map em_type results = List.map cls_name taxonomicClasses
      /\ Forall (fun r => em_count r = count
                          /\ em_source r = js "emergency-fallback"
                          /\ Z.of_nat (List.length (em_species r))
                             = Z.min count 5
                          /\ Forall (candidate_of (em_type r)
                                       (js "global-fallback"))
                               (em_species r))
           results
  end.
Proof.
  intros Hc _. unfold getEmergencyFallback.
  destruct (opt_truthy animalType).
  - destruct (global_candidates (opt_string animalType)) as (Hl & _ & Hf).
    split; [reflexivity|]. split.
    + rewrite slice0_length, Hl by exact Hc. reflexivity.
    + apply Forall_slice0, Hf.
  - split; [reflexivity|]. split.
    + rewrite map_map. reflexivity.
    + apply Forall_map, Forall_forall. intros cls _.
      cbn [em_count em_source em_species em_type].
      destruct (global_candidates (cls_name cls)) as (Hl & _ & Hf).
      repeat split.
      * rewrite slice0_length, Hl by exact Hc. reflexivity.
      * apply Forall_slice0, Hf.
Qed.

Lemma getEmergencyFallback_sizes_witness :
  match getEmergencyFallback None 10 with
  | EmergencyForType _ => False
  | EmergencyForAll results =>
      Forall (fun r => em_count r = 10%Z /\ List.length (em_species r) = 5)
        results
  end.
Proof.
  pose proof (@getEmergencyFallback_sizes None 10) as H.
  destruct (getEmergencyFallback None 10) as [sp|results] eqn:E.
  - discriminate E.
  - destruct H as (_ & _ & H); [lia|discriminate|].
    eapply Forall_impl; [|exact H]. cbv beta.
    intros r (H1 & _ & H2 & _). split; [exact H1|lia].
Defined.

(* ================================================================= *)
(** ** Ecoregions *)

Local Open Scope Q_scope.

Lemma between_spec lo x hi : between lo x hi = true <-> lo <= x /\ x <= hi.
Proof.
  unfold between. rewrite andb_true_iff, !Qle_bool_iff. reflexivity.
Qed.

Lemma box_spec a latitude b c longitude d :
  between a latitude b && between c longitude d = true
  <-> (a <= latitude /\ latitude <= b) /\ (c <= longitude /\ longitude <= d).
Proof. rewrite andb_true_iff, !between_spec. reflexivity. Qed.

Ltac next_box :=
  match goal with
  | |- context [if between ?a ?x ?b && between ?c ?y ?d then _ else _] =>
      let E := fresh "E" in
      destruct (between a x b && between c y d) eqn:E;
      [apply box_spec in E|clear E]
  end.



(** X11.  Every position whose ecoregion has the state [California] lies
    in the region [california] of the regional fallback table. *)
Theorem california_state_in_california_region (latitude longitude : Q) :
  getStateFromCoordinates latitude longitude = js "California" ->
  region_of latitude longitude = js "california".
Proof.
  unfold getStateFromCoordinates, getEcoregionFromCoordinates.
  assert (R : (32 <= latitude /\ latitude <= 42)
              /\ (-125 <= longitude /\ longitude <= -114) ->
              region_of latitude longitude = js "california").
  { intros HR. unfold region_of. apply box_spec in HR. rewrite HR. reflexivity. }
  repeat (next_box;
          [first [ intros _; apply R; lra
                 | intros H; exfalso; discriminate H ]|]).
  intros H. discriminate H.
Qed.

Lemma california_state_in_california_region_witness :
  region_of 37.77 (-122.42) = js "california".
Proof.
  apply (@california_state_in_california_region 37.77 (-122.42)).
  reflexivity.
Defined.

Local Open Scope nat_scope.

(* ================================================================= *)
(** ** Reading the cache back *)

Lemma same_key latitude longitude latitude' longitude' cls :
  rounded latitude' = rounded latitude ->
  rounded longitude' = rounded longitude ->
  generateLocationKey latitude' longitude' cls
  = generateLocationKey latitude longitude cls.
Proof. unfold generateLocationKey. intros -> ->. reflexivity. Qed.

(** X12.  What [cacheSpecies] stores is read back at every position that
    the code rounds to the same hundredths ([Math.round] of the binary64
    product): [getCachedEntry] returns the entry with the normalized
    species and the time of the call, and [getCachedSpecies] returns the
    normalized species and counts one hit and no miss. *)
Theorem cache_round_trip now latitude longitude latitude' longitude' cls sp st :
  rounded latitude' = rounded latitude ->
  rounded longitude' = rounded longitude ->
  let st' := cacheSpecies now latitude longitude cls sp st in
  getCachedEntry latitude' longitude' cls st'
  = Some (new_entry now latitude longitude cls sp)
  /\ fst (getCachedSpecies latitude' longitude' cls st')
     = Some (List.map (normalize cls) sp)
  /\ hits (cacheStats (snd (getCachedSpecies latitude' longitude' cls st')))
     = S (hits (cacheStats st))
  /\ misses (cacheStats (snd (getCachedSpecies latitude' longitude' cls st')))
     = misses (cacheStats st).
Proof.
  intros Hla Hlo st'.
  assert (He : map_get (cache st')
                 (generateLocationKey latitude' longitude' cls)
               = Some (new_entry now latitude longitude cls sp)).
  { unfold st'. rewrite cacheSpecies_cache, (@same_key _ _ _ _ cls Hla Hlo).
    apply map_get_set_same. }
  unfold getCachedEntry, getCachedSpecies. rewrite He.
  cbn [fst snd cacheStats set_stats hits misses].
  repeat split; unfold st', cacheSpecies;
    destruct (maxCacheSize <=? List.length (classKeys cls (cache st)));
    reflexivity.
Qed.

Lemma cache_round_trip_witness :
  getCachedEntry 37.7712 (-122.4194) birds
    (cacheSpecies 1700000000000 37.77 (-122.42) birds [] initial)
  = Some (new_entry 1700000000000 37.77 (-122.42) birds []).
Proof.
  apply (@cache_round_trip 1700000000000 37.77 (-122.42) 37.7712 (-122.4194)
           birds [] initial); vm_compute; reflexivity.
Defined.

Lemma evicted_key_in_class cls c k rest :
  classKeys cls c = k :: rest -> endsWith k (js "_" ++ cls_name cls) = true.
Proof.
  intros E. assert (H : In k (classKeys cls c)) by (rewrite E; left; reflexivity).
  apply filter_In in H. apply H.
Qed.

(** X13.  [cacheSpecies] for one class leaves every lookup for another
    class as it was, also when it evicts; and a lookup for the same class
    under another key is left as it was while the class holds fewer than
    [maxCacheSize] keys. *)
Theorem cacheSpecies_leaves_other_entries now latitude longitude cls sp st
  latitude' longitude' cls' :
  In cls taxonomicClasses -> In cls' taxonomicClasses ->
  cls' <> cls
  \/ (generateLocationKey latitude' longitude' cls'
      <> generateLocationKey latitude longitude cls
      /\ List.length (classKeys cls (cache st)) < maxCacheSize) ->
  getCachedEntry latitude' longitude' cls'
    (cacheSpecies now latitude longitude cls sp st)
  = getCachedEntry latitude' longitude' cls' st.
Proof.
  intros Hcls Hcls' Hcase. unfold getCachedEntry.
  rewrite cacheSpecies_cache.
  set (key' := generateLocationKey latitude' longitude' cls').
  destruct Hcase as [Hne|[Hne Hroom]].
  - pose proof (@key_not_in_other_class latitude' longitude' cls cls'
                  Hcls Hcls' Hne) as Hout.
    fold key' in Hout.
    rewrite map_get_set_other.
    + unfold after_eviction.
      destruct (maxCacheSize <=? List.length (classKeys cls (cache st)));
        [|reflexivity].
      destruct (classKeys cls (cache st)) as [|oldest rest] eqn:E;
        [reflexivity|].
      apply map_get_delete_other. intros Heq.
      apply evicted_key_in_class in E. rewrite <- Heq in E. congruence.
    + intros Heq.
      pose proof (@key_in_own_class latitude longitude cls Hcls) as Hin.
      rewrite <- Heq in Hin. congruence.
  - rewrite map_get_set_other by exact Hne.
    unfold after_eviction.
    destruct (Nat.leb_spec maxCacheSize (List.length (classKeys cls (cache st))));
      [lia|reflexivity].
Qed.

Lemma cacheSpecies_leaves_other_entries_witness :
  getCachedEntry 10 20 birds
    (cacheSpecies 1700000000000 10 20 birds []
       (cacheSpecies 1700000000000 10 20 birds [] initial))
  = getCachedEntry 10 20 birds
      (cacheSpecies 1700000000000 10 20 (nth 1 taxonomicClasses birds) []
         (cacheSpecies 1700000000000 10 20 birds []
            (cacheSpecies 1700000000000 10 20 birds [] initial))).
Proof.
  symmetry.
  apply (@cacheSpecies_leaves_other_entries 1700000000000 10 20
           (nth 1 taxonomicClasses birds) []
           (cacheSpecies 1700000000000 10 20 birds []
              (cacheSpecies 1700000000000 10 20 birds [] initial))
           10 20 birds).
  - right. left. reflexivity.
  - left. reflexivity.
  - left. discriminate.
Defined.

(** *** [hasLocationChanged] *)

Local Open Scope Q_scope.

Lemma round100_bounds x :
  inject_Z (round100 x) - (1 # 2) <= x * 100
  /\ x * 100 < inject_Z (round100 x) + (1 # 2).
Proof.
  unfold round100.
  pose proof (Qfloor_le (x * 100 + (1 # 2))) as H1.
  pose proof (Qlt_floor (x * 100 + (1 # 2))) as H2.
  rewrite inject_Z_plus in H2. change (inject_Z 1) with 1 in H2.
  split; lra.
Qed.

Lemma same_hundredth_close a b :
  round100 a = round100 b -> Qle_bool (Qabs (a - b)) locationChangeThreshold = true.
Proof.
  intros E. apply Qle_bool_iff. apply Qabs_Qle_condition.
  destruct (round100_bounds a) as [A1 A2].
  destruct (round100_bounds b) as [B1 B2].
  rewrite E in A1, A2. unfold locationChangeThreshold. split; lra.
Qed.

(** X14.  In exact arithmetic, two positions in the same cell of a
    hundredth of a degree ([floor (100 x + 1/2)] the same for the latitudes
    and for the longitudes) have not changed location for
    [hasLocationChanged], in whichever order they are given. *)
Theorem same_key_location_unchanged (lat1 lng1 lat2 lng2 : Q) :
  round100 lat1 = round100 lat2 -> round100 lng1 = round100 lng2 ->
  hasLocationChanged lat1 lng1 lat2 lng2 = false
  /\ hasLocationChanged lat2 lng2 lat1 lng1 = false.
Proof.
  intros Hla Hlo. unfold hasLocationChanged. cbv zeta.
  rewrite (@same_hundredth_close _ _ Hla), (@same_hundredth_close _ _ Hlo).
  rewrite (@same_hundredth_close _ _ (eq_sym Hla)).
  rewrite (@same_hundredth_close _ _ (eq_sym Hlo)).
  split; reflexivity.
Qed.

Lemma same_key_location_unchanged_witness :
  hasLocationChanged 37.7712 (-122.4194) 37.7749 (-122.4151) = false.
Proof.
  apply (@same_key_location_unchanged 37.7712 (-122.4194) 37.7749 (-122.4151));
    reflexivity.
Defined.

Local Open Scope nat_scope.

(** *** [getCacheStats]: the size of the whole cache *)

Lemma class_counts_cons (L : list TaxonomicClass) k l :
  list_sum (List.map (fun cls => List.length
                        (filter (fun key => endsWith key (js "_" ++ cls_name cls)) l)) L)
  + (if existsb (fun cls => endsWith k (js "_" ++ cls_name cls)) L then 1 else 0)
  <= list_sum (List.map (fun cls => List.length
                           (filter (fun key => endsWith key (js "_" ++ cls_name cls))
                              (k :: l))) L).
Proof.
  induction L as [|c L IH]; [simpl; lia|].
  cbn [List.map list_sum existsb]. cbn [filter] in *.
  destruct (endsWith k (js "_" ++ cls_name c)); cbn [orb List.length];
    destruct (existsb _ L); unfold list_sum in *; cbn [fold_right]; lia.
Qed.

Lemma generated_in_some_class k :
  generated k ->
  existsb (fun cls => endsWith k (js "_" ++ cls_name cls)) taxonomicClasses = true.
Proof.
  intros (la & lo & cls & Hcls & ->). apply existsb_exists.
  exists cls. split; [exact Hcls|]. apply key_in_own_class. exact Hcls.
Qed.

Lemma keys_within_classes (c : Map CacheEntry) :
  Forall generated (map_keys c) ->
  List.length (map_keys c)
  <= list_sum (List.map (fun cls => List.length (classKeys cls c)) taxonomicClasses).
Proof.
  unfold classKeys. generalize (map_keys c). clear c.
  induction 1 as [|k l Hk Hl IH]; [simpl; lia|].
  pose proof (class_counts_cons taxonomicClasses k l) as H.
  rewrite (generated_in_some_class Hk) in H. cbn [List.length]. lia.
Qed.

Lemma bounded_sum {A} (f : A -> nat) b (L : list A) :
  (forall x, In x L -> f x <= b) ->
  list_sum (List.map f L) <= List.length L * b.
Proof.
  induction L as [|x L IH]; intros H; [simpl; lia|].
  cbn [List.map list_sum List.length].
  pose proof (H x (or_introl eq_refl)).
  assert (list_sum (List.map f L) <= List.length L * b)
    by (apply IH; intros y Hy; apply H; right; exact Hy).
  unfold list_sum in *. cbn [fold_right]. lia.
Qed.

(** X15.  In every state the service can reach, the cache holds at most
    1000 entries, five classes of [maxCacheSize] each: [getCacheStats]
    reports a [totalEntries] of at most 1000 and lists at most 200 details,
    which are the first keys of the cache in insertion order. *)
Theorem getCacheStats_bounded (st : State) :
  reachable st ->
  totalEntries (getCacheStats st) = List.length (cache st)
  /\ totalEntries (getCacheStats st) <= 1000
  /\ List.map det_key (details (getCacheStats st))
     = firstn 200 (map_keys (cache st)).
Proof.
  intros Hr. apply reachable_inv in Hr. destruct Hr as [[_ Hb] Hgen].
  unfold getCacheStats. cbn [totalEntries details].
  rewrite length_map. split; [reflexivity|]. split.
  - pose proof (keys_within_classes _ Hgen) as H1.
    pose proof (@bounded_sum _ (fun cls => List.length (classKeys cls (cache st)))
                  maxCacheSize taxonomicClasses Hb) as H2.
    unfold map_keys in H1. rewrite length_map in H1.
    change (List.length taxonomicClasses * maxCacheSize) with 1000 in H2. lia.
  - rewrite <- firstn_map, map_map. reflexivity.
Qed.

Lemma getCacheStats_bounded_witness :
  totalEntries
    (getCacheStats (cacheSpecies 1700000000000 10 20 birds [] initial)) <= 1000.
Proof.
  apply (@getCacheStats_bounded
           (cacheSpecies 1700000000000 10 20 birds [] initial)).
  apply reach_cacheSpecies; [apply reach_new; reflexivity|left; reflexivity].
Defined.

(* ================================================================= *)
(** ** What [fetchFromGBIF] returns and what it costs *)

Lemma map_set_length {V} (m : Map V) k v :
  List.length (map_set m k v) <= S (List.length m).
Proof.
  induction m as [|[k' v'] m IH]; simpl; [lia|].
  destruct (jsstring_eqb k' k); simpl; lia.
Qed.

Lemma map_set_Forall {V} (P : V -> Prop) (m : Map V) k v :
  Forall P (List.map snd m) -> P v -> Forall P (List.map snd (map_set m k v)).
Proof.
  intros Hm Hv. induction m as [|[k' v'] m IH]; simpl.
  - constructor; [exact Hv|constructor].
  - simpl in Hm. inversion Hm; subst.
    destruct (jsstring_eqb k' k); simpl; constructor; auto.
Qed.

Lemma remember_seen cls radius rec display seen :
  Forall (seen_entry cls radius) (List.map snd seen) ->
  Forall (seen_entry cls radius)
    (List.map snd (remember cls radius rec display seen))
  /\ List.length (remember cls radius rec display seen) <= S (List.length seen).
Proof.
  intros H. unfold remember. cbv zeta.
  match goal with
  | |- context [if negb (truthy ?c) then seen else _] =>
      destruct (negb (truthy c)); [split; [exact H|lia]|];
      destruct (map_get seen (toLowerCase c)); [split; [exact H|lia]|]
  end.
  split; [|apply map_set_length].
  apply map_set_Forall; [exact H|]. split; reflexivity.
Qed.

Lemma process_records_seen cls radius recs :
  forall seen w,
    Forall (seen_entry cls radius) (List.map snd seen) ->
    Forall (seen_entry cls radius)
      (List.map snd (fst (process_records cls radius recs seen w)))
    /\ List.length (fst (process_records cls radius recs seen w))
       <= List.length seen + List.length recs.
Proof.
  induction recs as [|rec recs IH]; intros seen w H.
  - simpl. split; [exact H|lia].
  - cbn [process_records]. unfold process_record.
    destruct (vernacular_lookup rec (getBestVernacular rec) seen w) as [d w1].
    destruct (@remember_seen cls radius rec d seen H) as [H1 H2].
    destruct (IH _ w1 H1) as [H3 H4]. split; [exact H3|].
    cbn [List.length]. lia.
Qed.

Lemma singular_class cls :
  In cls taxonomicClasses ->
  singularize (or_else (singularize (cls_name cls)) (cls_name cls))
  = singularize (cls_name cls).
Proof.
  intros H. repeat (destruct H as [<-|H]; [reflexivity|]). destruct H.
Qed.

Lemma in_firstn {A} n (l : list A) x : In x (firstn n l) -> In x l.
Proof.
  revert n. induction l as [|a l IH]; intros [|n]; simpl; try tauto.
  intros [H|H]; [left; exact H|right; eapply IH; exact H].
Qed.

Lemma finish_result cls radius seen :
  In cls taxonomicClasses ->
  Forall (seen_entry cls radius) (List.map snd seen) ->
  Forall (gbif_result cls radius) (finish cls radius seen)
  /\ List.length (finish cls radius seen) <= List.length seen.
Proof.
  intros Hcls Hseen. unfold finish. split.
  - apply Forall_forall. intros s Hs. apply filter_In in Hs.
    destruct Hs as [Hin Hf]. apply andb_prop in Hf. destruct Hf as [Hn Hu].
    apply in_map_iff in Hin. destruct Hin as (s0 & <- & Hin0).
    assert (H0 : seen_entry cls radius s0).
    { rewrite Forall_forall in Hseen. apply Hseen.
      eapply in_firstn. exact Hin0. }
    destruct H0 as [Ht Hsrc]. repeat split.
    + intros E. rewrite E in Hn. discriminate.
    + intros E. rewrite E in Hu. discriminate.
    + cbn [post_process type]. rewrite Ht. apply singular_class, Hcls.
    + cbn [post_process source]. rewrite Hsrc. reflexivity.
  - etransitivity; [apply filter_length_le|].
    rewrite length_map, length_firstn, length_map. lia.
Qed.

Lemma attempts_result cls radius (Q : list Species * State * World -> Prop) :
  (forall st w, Q ([], st, w)) ->
  (forall records w0 st w,
     Q (finish cls radius
          (fst (process_records cls radius (firstn 50 records) [] w0)),
        set_error None st, w)) ->
  (forall st w, Q (finish cls radius [], set_error None st, w)) ->
  forall left attempt st w, Q (attempts left attempt cls radius st w).
Proof.
  intros Hnil Hrecs Hnone.
  induction left as [|left IH]; intros attempt st w; [apply Hnil|].
  cbn [attempts fetch_search].
  destruct (search _ _) as [message|r].
  - unfold caught. cbv beta iota. apply IH.
  - destruct (status r =? 429)%Z; [apply Hnil|].
    destruct (_ || _)%bool; [apply Hnil|].
    destruct (negb (ok r)).
    + destruct (_ && _)%bool; [|apply Hnil].
      unfold draw. cbv beta iota. apply IH.
    + destruct (parsed r) as [|message| |records|before message].
      * apply Hnil.
      * unfold caught. cbv beta iota. apply IH.
      * apply Hnone.
      * match goal with
        | |- context [process_records ?c ?rd ?rs ?sn ?ww] =>
            specialize (Hrecs records ww);
            destruct (process_records c rd rs sn ww) as [seen w1]
        end.
        apply Hrecs.
      * destruct (50 <=? List.length before)%nat.
        -- match goal with
           | |- context [process_records ?c ?rd ?rs ?sn ?ww] =>
               specialize (Hrecs before ww);
               destruct (process_records c rd rs sn ww) as [seen w1]
           end.
           apply Hrecs.
        -- destruct (process_records _ _ _ _ _) as [seen w1].
           unfold caught. cbv beta iota. apply IH.
Qed.

(** X16.  For each of the five classes, whatever the replies of the
    network, [fetchFromGBIF] returns at most 50 species; each has a
    non-empty name other than [unknown species], the singular of the class
    as its type, the source [GBIF-<radius>km] and no [lastUsed]; and a call
    that returns species leaves no error in [lastGBIFError]. *)
Theorem fetchFromGBIF_result cls radius st w :
  In cls taxonomicClasses ->
  List.length (fst (fst (fetchFromGBIF cls radius st w))) <= 50
  /\ Forall (gbif_result cls radius) (fst (fst (fetchFromGBIF cls radius st w)))
  /\ (fst (fst (fetchFromGBIF cls radius st w)) <> [] ->
      lastGBIFError (snd (fst (fetchFromGBIF cls radius st w))) = None).
Proof.
  intros Hcls.
  set (Q := fun out : list Species * State * World =>
              List.length (fst (fst out)) <= 50
              /\ Forall (gbif_result cls radius) (fst (fst out))
              /\ (fst (fst out) <> [] -> lastGBIFError (snd (fst out)) = None)).
  assert (Hnil : forall st0 w0, Q ([], st0, w0)).
  { intros st0 w0. unfold Q. cbn [fst snd List.length].
    split; [lia|]. split; [constructor|]. intros H. contradiction. }
  change (Q (fetchFromGBIF cls radius st w)). unfold fetchFromGBIF.
  destruct (_ && _)%bool; [apply Hnil|].
  apply attempts_result; [exact Hnil| |].
  - intros records w0 st0 w1. unfold Q. cbn [fst snd].
    destruct (@process_records_seen cls radius (firstn 50 records) [] w0)
      as [H1 H2]; [constructor|].
    destruct (@finish_result cls radius _ Hcls H1) as [H3 H4].
    split; [|split; [exact H3|intros _; reflexivity]].
    rewrite length_firstn in H2. cbn [List.length] in H2. lia.
  - intros st0 w0. unfold Q. cbn [fst snd].
    destruct (@finish_result cls radius [] Hcls) as [H3 H4]; [constructor|].
    split; [|split; [exact H3|intros _; reflexivity]].
    cbn [List.length] in H4. lia.
Qed.

Lemma fetchFromGBIF_result_witness :
  List.length (fst (fst (fetchFromGBIF birds 50 initial recovering))) <= 50.
Proof.
  apply (@fetchFromGBIF_result birds 50 initial recovering).
  left. reflexivity.
Defined.




(** A [null] after 49 records with a key: each of the three attempts
    sends its search and 49 lookups before the loop raises, 150 requests in
    all, and the call returns nothing with the message of the error. *)
Lemma null_record_retries :
  requests (snd (fetchFromGBIF birds 50 initial nulls)) = 150
  /\ fst (fst (fetchFromGBIF birds 50 initial nulls)) = []
  /\ lastGBIFError (snd (fst (fetchFromGBIF birds 50 initial nulls)))
     = Some (Raised (js "Cannot read properties of null (reading 'key')")).
Proof. vm_compute. repeat split. Qed.


(* ================================================================= *)
(** ** Replies that are not retried, and failures of the network *)

Local Open Scope Z_scope.

(** X18.  With the circuit closed, a reply other than a 429 that is markup
    or has no JSON content type, whatever its status, or that has a 2xx
    status and a body [JSON.parse] rejects, ends the call after its single
    request: no species, no retry and no backoff (for markup and for a
    missing JSON content type even when the status is 5xx), the error
    recorded, and the circuit exactly as it was. *)
Theorem unusable_reply_ends_call cls radius st w r :
  open (gbifCircuit st) = false ->
  search w (requests w) = Response r ->
  unusable_reply r ->
  fetchFromGBIF cls radius st w
  = ([], set_error (Some (content_error r)) st, after_request w)
  /\ gbifCircuit (snd (fst (fetchFromGBIF cls radius st w))) = gbifCircuit st.
Proof.
  intros Ho Hs (H429 & Hr).
  assert (E : fetchFromGBIF cls radius st w
              = ([], set_error (Some (content_error r)) st, after_request w)).
  { rewrite fetch_closed by exact Ho.
    cbn [attempts fetch_search Z.to_nat Pos.to_nat Pos.iter_op Nat.add].
    change (search (sleep 250 w) (requests (sleep 250 w)))
      with (search w (requests w)).
    rewrite Hs. apply Z.eqb_neq in H429. rewrite H429.
    unfold content_error.
    destruct (startsWith (trim (responseText r)) (js "<")
              || negb (includes (opt_string (contentType r))
                         (js "application/json")))%bool eqn:Ec;
      [reflexivity|].
    apply orb_false_elim in Ec. destruct Ec as [E1 E2].
    apply negb_false_iff in E2.
    destruct Hr as [Hr|[Hr|[Hok Hp]]]; [congruence|congruence|].
    rewrite Hok, Hp. reflexivity. }
  rewrite E. split; reflexivity.
Qed.

Lemma unusable_reply_ends_call_witness :
  gbifCircuit (snd (fst (fetchFromGBIF birds 50 initial behind_proxy)))
  = gbifCircuit initial.
Proof.
  apply (@unusable_reply_ends_call birds 50 initial behind_proxy gateway_page).
  - reflexivity.
  - reflexivity.
  - split; [discriminate|left; reflexivity].
Defined.

Lemma attempts_network_error left attempt cls radius st w message :
  search w (requests w) = NetworkError message ->
  attempts (S left) attempt cls radius st w
  = attempts left (attempt + 1) cls radius
      (set_error (Some (Raised message)) st)
      (if attempt <? maxRetries then sleep (1000 * attempt) (after_request w)
       else after_request w).
Proof.
  intros Hs. cbn [attempts fetch_search].
  change (search (sleep 250 w) (requests (sleep 250 w)))
    with (search w (requests w)).
  rewrite Hs. unfold caught. cbv beta iota. reflexivity.
Qed.

(** X19.  With the circuit closed, when the three requests of a call all
    fail in the network, the call makes exactly three attempts, waits one
    second after the first and two after the second and not after the
    third, returns nothing, records the last message, and leaves the
    circuit and its failure count as they were. *)
Theorem network_errors_retry_thrice cls radius st w m1 m2 m3 :
  open (gbifCircuit st) = false ->
  search w (requests w) = NetworkError m1 ->
  search w (S (requests w)) = NetworkError m2 ->
  search w (S (S (requests w))) = NetworkError m3 ->
  fetchFromGBIF cls radius st w
  = ([], set_error (Some (Raised m3)) st,
     after_request (sleep 2000 (after_request (sleep 1000 (after_request w)))))
  /\ gbifCircuit (snd (fst (fetchFromGBIF cls radius st w))) = gbifCircuit st
  /\ requests (snd (fetchFromGBIF cls radius st w)) = (requests w + 3)%nat.
Proof.
  intros Ho H1 H2 H3.
  assert (E : fetchFromGBIF cls radius st w
              = ([], set_error (Some (Raised m3)) st,
                 after_request
                   (sleep 2000 (after_request (sleep 1000 (after_request w)))))).
  { rewrite fetch_closed by exact Ho.
    rewrite (@attempts_network_error 2 1 cls radius _ w m1 H1).
    change (1 <? maxRetries) with true. cbv iota.
    rewrite (@attempts_network_error 1 (1 + 1) cls radius _
               (sleep (1000 * 1) (after_request w)) m2 H2).
    change (1 + 1 <? maxRetries) with true. cbv iota.
    rewrite (@attempts_network_error 0 (1 + 1 + 1) cls radius _
               (sleep (1000 * (1 + 1))
                  (after_request (sleep (1000 * 1) (after_request w))))
               m3 H3).
    reflexivity. }
  rewrite E. cbn [fst snd]. split; [reflexivity|]. split; [reflexivity|].
  simpl. lia.
Qed.

Lemma network_errors_retry_thrice_witness :
  requests (snd (fetchFromGBIF birds 50 initial offline)) = 3%nat.
Proof.
  apply (@network_errors_retry_thrice birds 50 initial offline
           (js "fetch failed") (js "fetch failed") (js "fetch failed"));
    reflexivity.
Defined.

(** X20.  A 429 whose [retry-after] header is not a number opens the
    circuit with an [openUntil] that is not a number; the circuit it leaves
    is flagged open but does not block the next call: whichever class,
    radius and world that call is made with, at any time, it goes to the
    network. *)
Theorem unparsable_retry_after_never_blocks cls radius st w r h :
  open (gbifCircuit st) = false ->
  search w (requests w) = Response r ->
  status r = 429 ->
  retryAfter r = Some h -> truthy h = true -> parseInt h = None ->
  open (gbifCircuit (snd (fst (fetchFromGBIF cls radius st w)))) = true
  /\ openUntil (gbifCircuit (snd (fst (fetchFromGBIF cls radius st w)))) = None
  /\ forall cls2 radius2 w2,
       (requests w2
        < requests (snd (fetchFromGBIF cls2 radius2
                           (snd (fst (fetchFromGBIF cls radius st w))) w2)))%nat.
Proof.
  intros Ho Hs H429 Hra Ht Hp.
  rewrite fetch_closed by exact Ho.
  rewrite (@attempts_rate_limited 2 1 cls radius _ w r Hs H429).
  cbn [fst snd]. unfold on_rate_limit, retryAfterMs.
  rewrite Hra. cbn [opt_truthy opt_string]. rewrite Ht, Hp.
  cbn [option_map open_ms set_circuit set_error gbifCircuit open openUntil].
  split; [reflexivity|]. split; [reflexivity|].
  intros cls2 radius2 w2. unfold fetchFromGBIF.
  cbn [set_error gbifCircuit open openUntil num_gt num_le andb].
  apply attempts_sends.
Qed.

Lemma unparsable_retry_after_never_blocks_witness :
  openUntil
    (gbifCircuit (snd (fst (fetchFromGBIF birds 50 initial throttled_until_date))))
  = None.
Proof.
  apply (@unparsable_retry_after_never_blocks birds 50 initial
           throttled_until_date
           (json_response 429 (Some (js "Wed, 21 Oct 2026 07:28:00 GMT"))
              ParseError)
           (js "Wed, 21 Oct 2026 07:28:00 GMT"));
    reflexivity.
Defined.

Local Open Scope nat_scope.

(* ================================================================= *)
(** ** The cascade, seen from its callers *)

Lemma same_script_refl w : same_script w w.
Proof. repeat split. Qed.

Lemma same_script_trans w1 w2 w3 :
  same_script w1 w2 -> same_script w2 w3 -> same_script w1 w3.
Proof.
  intros (A1 & A2 & A3 & A4) (B1 & B2 & B3 & B4).
  repeat split; congruence.
Qed.

Ltac script_ok := unfold same_script; simpl; repeat split; reflexivity.

Lemma vernacular_lookup_script rec display seen w :
  same_script w (snd (vernacular_lookup rec display seen w)).
Proof.
  unfold vernacular_lookup.
  destruct (negb (truthy display) && _ && _)%bool; [|apply same_script_refl].
  cbn [fetch_vern]. destruct (vern _ _) as [| |[results|]]; try script_ok.
  destruct (find _ results); script_ok.
Qed.

Lemma process_records_script cls radius recs :
  forall seen w, same_script w (snd (process_records cls radius recs seen w)).
Proof.
  induction recs as [|rec recs IH]; intros seen w; [apply same_script_refl|].
  cbn [process_records]. unfold process_record.
  pose proof (vernacular_lookup_script rec (getBestVernacular rec) seen w) as H.
  destruct (vernacular_lookup rec (getBestVernacular rec) seen w) as [d w1].
  cbn [snd] in H. eapply same_script_trans; [exact H|apply IH].
Qed.

Lemma attempts_script cls radius left :
  forall attempt st w,
    same_script w (snd (attempts left attempt cls radius st w)).
Proof.
  induction left as [|left IH]; intros attempt st w; [apply same_script_refl|].
  assert (Hrec : forall a st' w',
            same_script w w' ->
            same_script w (snd (attempts left a cls radius st' w'))).
  { intros a st' w' H. eapply same_script_trans; [exact H|apply IH]. }
  cbn [attempts fetch_search].
  destruct (search _ _) as [message|r].
  - unfold caught.
    destruct (attempt <? maxRetries)%Z; apply Hrec; script_ok.
  - destruct (status r =? 429)%Z; [script_ok|].
    destruct (_ || _)%bool; [script_ok|].
    destruct (negb (ok r)).
    + destruct (_ && _)%bool; [|script_ok].
      unfold draw. cbv beta iota. apply Hrec. script_ok.
    + destruct (parsed r) as [|message| |records|before message];
        try script_ok.
      * unfold caught.
        destruct (attempt <? maxRetries)%Z; apply Hrec; script_ok.
      * match goal with
        | |- context [process_records ?c ?rd ?rs ?sn ?ww] =>
            pose proof (process_records_script c rd rs sn ww) as H;
            destruct (process_records c rd rs sn ww) as [seen w1]
        end.
        cbn [snd] in *. eapply same_script_trans; [|exact H]. script_ok.
      * destruct (50 <=? List.length before)%nat;
          match goal with
          | |- context [process_records ?c ?rd ?rs ?sn ?ww] =>
              pose proof (process_records_script c rd rs sn ww) as H;
              destruct (process_records c rd rs sn ww) as [seen w1]
          end; cbn [snd] in *.
        -- eapply same_script_trans; [|exact H]. script_ok.
        -- unfold caught.
           destruct (attempt <? maxRetries)%Z; apply Hrec;
             (eapply same_script_trans; [|eapply same_script_trans; [exact H|]]);
             script_ok.
Qed.

Lemma fetchFromGBIF_script cls radius st w :
  same_script w (snd (fetchFromGBIF cls radius st w)).
Proof.
  unfold fetchFromGBIF.
  destruct (_ && _)%bool; [apply same_script_refl|]. apply attempts_script.
Qed.

Lemma attempts_days cls radius left :
  forall attempt st w,
    noRepeatDays (snd (fst (attempts left attempt cls radius st w)))
    = noRepeatDays st.
Proof.
  induction left as [|left IH]; intros attempt st w; [reflexivity|].
  cbn [attempts fetch_search].
  destruct (search _ _) as [message|r].
  - unfold caught. cbv beta iota. rewrite IH. reflexivity.
  - destruct (status r =? 429)%Z; [reflexivity|].
    destruct (_ || _)%bool; [reflexivity|].
    destruct (negb (ok r)).
    + destruct (_ && _)%bool.
      * unfold draw. cbv beta iota. rewrite IH. reflexivity.
      * cbn [fst snd]. unfold open_if_repeated.
        destruct (2 <=? _)%Z; reflexivity.
    + destruct (parsed r) as [|message| |records|before message];
        try reflexivity.
      * unfold caught. cbv beta iota. rewrite IH. reflexivity.
      * destruct (process_records _ _ _ _ _) as [seen w1]. reflexivity.
      * destruct (50 <=? List.length before)%nat;
          destruct (process_records _ _ _ _ _) as [seen w1]; [reflexivity|].
        unfold caught. cbv beta iota. rewrite IH. reflexivity.
Qed.

Lemma fetchFromGBIF_days cls radius st w :
  noRepeatDays (snd (fst (fetchFromGBIF cls radius st w))) = noRepeatDays st.
Proof.
  unfold fetchFromGBIF.
  destruct (_ && _)%bool; [reflexivity|].
  rewrite attempts_days.
  destruct (_ && _)%bool; reflexivity.
Qed.

(** The two ways [getSpeciesForClass] ends: with the cached entry and
    nothing touched, or with species it has just written to the cache. *)
Lemma getSpeciesForClass_cases latitude longitude cls count st w :
  In cls taxonomicClasses -> (1 <= count)%Z ->
  (exists e,
     usable_entry latitude longitude cls st = Some e
     /\ species e <> []
     /\ getSpeciesForClass latitude longitude cls count st w
        = (slice0 (species e) count, st, w))
  \/ (usable_entry latitude longitude cls st = None
      /\ exists sp st2 w2,
           getSpeciesForClass latitude longitude cls count st w
           = (sp, cacheSpecies (clock w2) latitude longitude cls sp st2, w2)
           /\ sp <> []
           /\ cache st2 = cache st
           /\ noRepeatDays st2 = noRepeatDays st
           /\ same_script w w2).
Proof.
  intros Hin Hc.
  destruct (global_candidates (cls_name cls)) as (Hg & _).
  assert (Hgne : forall l, l ++ getGlobalFallback (cls_name cls) <> []).
  { intros l E. apply app_eq_nil in E. destruct E as [_ E].
    rewrite E in Hg. discriminate. }
  unfold getSpeciesForClass. fold (usable_entry latitude longitude cls st).
  destruct (usable_entry latitude longitude cls st) as [e|] eqn:Ee.
  - left. exists e. split; [reflexivity|]. split; [|reflexivity].
    unfold usable_entry in Ee.
    destruct (getCachedEntry latitude longitude cls st) as [e0|]; [|discriminate].
    destruct (species e0) eqn:Es; [discriminate|].
    injection Ee as <-. rewrite Es. discriminate.
  - right. split; [reflexivity|].
    pose proof (fetchFromGBIF_cache cls 50 st w) as C1.
    pose proof (fetchFromGBIF_script cls 50 st w) as S1.
    pose proof (fetchFromGBIF_days cls 50 st w) as N1.
    destruct (fetchFromGBIF cls 50 st w) as [[sp1 st1] w1].
    cbn [fst snd] in C1, S1, N1.
    destruct (at_least sp1 count) eqn:E1.
    { exists sp1, st1, w1. split; [reflexivity|]. split; [|auto].
      eapply at_least_nonempty; eauto. }
    pose proof (fetchFromGBIF_cache cls 200 st1 w1) as C2.
    pose proof (fetchFromGBIF_script cls 200 st1 w1) as S2.
    pose proof (fetchFromGBIF_days cls 200 st1 w1) as N2.
    destruct (fetchFromGBIF cls 200 st1 w1) as [[sp2 st2] w2].
    cbn [fst snd] in C2, S2, N2.
    assert (C : cache st2 = cache st) by congruence.
    assert (N : noRepeatDays st2 = noRepeatDays st) by congruence.
    assert (S : same_script w w2) by (eapply same_script_trans; eauto).
    destruct (at_least sp2 count) eqn:E2.
    { exists sp2, st2, w2. split; [reflexivity|]. split; [|auto].
      eapply at_least_nonempty; eauto. }
    destruct (getRegionalFallback latitude longitude (cls_name cls))
      as [|r0 rl] eqn:Er.
    { eexists _, st2, w2. split; [reflexivity|]. split; [|auto]. apply Hgne. }
    destruct (at_least (sp2 ++ r0 :: rl) count) eqn:E3.
    { eexists _, st2, w2. split; [reflexivity|]. split; [|auto].
      eapply at_least_nonempty; eauto. }
    eexists _, st2, w2. split; [reflexivity|]. split; [|auto]. apply Hgne.
Qed.

Lemma usable_same_key latitude longitude latitude' longitude' cls st :
  rounded latitude' = rounded latitude ->
  rounded longitude' = rounded longitude ->
  usable_entry latitude' longitude' cls st = usable_entry latitude longitude cls st.
Proof.
  intros Hla Hlo. unfold usable_entry, getCachedEntry.
  rewrite (@same_key _ _ _ _ cls Hla Hlo). reflexivity.
Qed.

Lemma usable_answers latitude longitude cls count st w e :
  usable_entry latitude longitude cls st = Some e ->
  getSpeciesForClass latitude longitude cls count st w
  = (slice0 (species e) count, st, w).
Proof.
  intros H. unfold getSpeciesForClass.
  fold (usable_entry latitude longitude cls st). rewrite H. reflexivity.
Qed.

Lemma usable_after_cacheSpecies now latitude longitude cls sp st :
  sp <> [] ->
  usable_entry latitude longitude cls
    (cacheSpecies now latitude longitude cls sp st)
  = Some (new_entry now latitude longitude cls sp).
Proof.
  intros Hne. unfold usable_entry, getCachedEntry.
  rewrite cacheSpecies_cache, map_get_set_same.
  destruct sp as [|s sp]; [contradiction|]. reflexivity.
Qed.

(** X21.  After [getSpeciesForClass] has answered for one of the five
    classes with a count of at least one, the cache holds species for that
    place: a further call for the class at any position that the code
    rounds to the same hundredths ([Math.round] of the binary64 product) is
    answered from the cache, for every count and in every world, without a
    request and without a change of state. *)
Theorem getSpeciesForClass_then_cached
  latitude longitude latitude' longitude' cls count count' st w w' :
  In cls taxonomicClasses -> (1 <= count)%Z ->
  rounded latitude' = rounded latitude ->
  rounded longitude' = rounded longitude ->
  exists e,
    usable_entry latitude' longitude' cls
      (snd (fst (getSpeciesForClass latitude longitude cls count st w)))
    = Some e
    /\ getSpeciesForClass latitude' longitude' cls count'
         (snd (fst (getSpeciesForClass latitude longitude cls count st w))) w'
       = (slice0 (species e) count',
          snd (fst (getSpeciesForClass latitude longitude cls count st w)), w').
Proof.
  intros Hin Hc Hla Hlo.
  assert (H : exists e,
            usable_entry latitude' longitude' cls
              (snd (fst (getSpeciesForClass latitude longitude cls count st w)))
            = Some e).
  { rewrite (@usable_same_key _ _ _ _ cls _ Hla Hlo).
    destruct (@getSpeciesForClass_cases latitude longitude cls count st w Hin Hc)
      as [(e & He & _ & ->)|(_ & sp & st2 & w2 & -> & Hne & _)]; cbn [fst snd].
    - exists e. exact He.
    - eexists. apply usable_after_cacheSpecies. exact Hne. }
  destruct H as [e He]. exists e. split; [exact He|].
  apply usable_answers. exact He.
Qed.

Lemma getSpeciesForClass_then_cached_witness :
  exists e,
    usable_entry 0.001 (-160.004) birds
      (snd (fst (getSpeciesForClass 0 (-160) birds 5 initial offline)))
    = Some e.
Proof.
  destruct (@getSpeciesForClass_then_cached 0 (-160) 0.001 (-160.004) birds 5 1
              initial offline offline) as (e & He & _).
  - left; reflexivity.
  - lia.
  - vm_compute; reflexivity.
  - vm_compute; reflexivity.
  - exists e. exact He.
Defined.

(** *** [getSpeciesForMeditation] *)

Lemma species_for_class_nonempty latitude longitude cls count st w :
  In cls taxonomicClasses -> (1 <= count)%Z ->
  fst (fst (getSpeciesForClass latitude longitude cls count st w)) <> [].
Proof.
  intros Hin Hc.
  destruct (@getSpeciesForClass_cases latitude longitude cls count st w Hin Hc)
    as [(e & _ & Hne & ->)|(_ & sp & st2 & w2 & -> & Hne & _)]; cbn [fst].
  - apply slice0_nonempty; assumption.
  - exact Hne.
Qed.

Lemma slice0_le {A} (l : list A) count :
  (0 <= count)%Z ->
  (Z.of_nat (List.length (slice0 l count)) <= count)%Z
  /\ List.length (slice0 l count) <= List.length l.
Proof.
  intros Hc. pose proof (slice0_length l Hc) as H.
  split; [lia|]. unfold slice0. destruct (0 <=? count)%Z;
    rewrite length_firstn; lia.
Qed.

Lemma only_class cls :
  In cls taxonomicClasses ->
  opt_truthy (Some (cls_name cls)) = true
  /\ List.filter (fun c => jsstring_eqb (cls_name c) (cls_name cls))
       taxonomicClasses = [cls].
Proof.
  intros H. repeat (destruct H as [<-|H]; [split; reflexivity|]). destruct H.
Qed.

(** X22.  With the name of one of the five classes and a count of at least
    one, [getSpeciesForMeditation] returns a list for that type: what
    [getSpeciesForClass] gives for the class, cut to the count, never
    empty; the state and the world are those [getSpeciesForClass]
    leaves. *)
Theorem getSpeciesForMeditation_for_type latitude longitude cls count st w :
  In cls taxonomicClasses -> (1 <= count)%Z ->
  let out := getSpeciesForClass latitude longitude cls count st w in
  getSpeciesForMeditation latitude longitude (Some (cls_name cls)) count st w
  = (ForType (slice0 (fst (fst out)) count), snd (fst out), snd out)
  /\ slice0 (fst (fst out)) count <> []
  /\ (Z.of_nat (List.length (slice0 (fst (fst out)) count)) <= count)%Z.
Proof.
  intros Hin Hc out.
  pose proof (@species_for_class_nonempty latitude longitude cls count st w
                Hin Hc) as Hne.
  fold out in Hne. split; [|split].
  - unfold getSpeciesForMeditation.
    destruct (only_class Hin) as [Ht Hf]. rewrite Ht.
    cbn [opt_string]. rewrite Hf. cbn [fetch_classes]. fold out.
    destruct out as [[sp st1] w1]. reflexivity.
  - apply slice0_nonempty; assumption.
  - apply slice0_le. lia.
Qed.

Lemma getSpeciesForMeditation_for_type_witness :
  slice0 (fst (fst (getSpeciesForClass 0 (-160) birds 3 initial offline))) 3
  <> [].
Proof.
  apply (@getSpeciesForMeditation_for_type 0 (-160) birds 3 initial offline).
  - left; reflexivity.
  - lia.
Defined.

Lemma fetch_classes_results latitude longitude count classes :
  (1 <= count)%Z ->
  (forall cls, In cls classes -> In cls taxonomicClasses) ->
  forall st w,
    List.map res_type (fst (fst (fetch_classes latitude longitude classes
                                   count st w)))
    = List.map cls_name classes
    /\ Forall (class_result_ok count)
         (fst (fst (fetch_classes latitude longitude classes count st w))).
Proof.
  intros Hc. induction classes as [|cls rest IH]; intros Hall st w.
  - split; [reflexivity|constructor].
  - cbn [fetch_classes].
    pose proof (@species_for_class_nonempty latitude longitude cls count st w
                  (Hall cls (or_introl eq_refl)) Hc) as Hne.
    destruct (getSpeciesForClass latitude longitude cls count st w)
      as [[sp st1] w1]. cbn [fst] in Hne.
    destruct (IH (fun c Hc' => Hall c (or_intror Hc')) st1 w1) as [H1 H2].
    destruct (fetch_classes latitude longitude rest count st1 w1)
      as [[results st2] w2]. cbn [fst] in *.
    split; [cbn [List.map res_type]; rewrite H1; reflexivity|].
    constructor; [|exact H2].
    unfold class_result_ok. cbn [res_species res_count res_source].
    destruct (@slice0_le _ sp count) as [L1 L2]; [lia|].
    repeat split; try assumption.
    + apply slice0_nonempty; assumption.
    + destruct sp as [|s sp]; [contradiction|].
      unfold or_else. destruct (truthy (source s)) eqn:Es.
      * intros E. rewrite E in Es. discriminate.
      * discriminate.
Qed.

(** X23.  Without a type and with a count of at least one,
    [getSpeciesForMeditation] returns one result per class, in the order of
    [taxonomicClasses]; each has species, no more of them than the count,
    a [count] field that is at least their number, and a source. *)
Theorem getSpeciesForMeditation_all_classes latitude longitude count st w :
  (1 <= count)%Z ->
  exists results,
    fst (fst (getSpeciesForMeditation latitude longitude None count st w))
    = ForAll results
    /\ List.map res_type results = List.map cls_name taxonomicClasses
    /\ Forall (class_result_ok count) results.
Proof.
  intros Hc. unfold getSpeciesForMeditation. cbn [opt_truthy].
  destruct (@fetch_classes_results latitude longitude count taxonomicClasses Hc
              (fun c H => H) st w) as [H1 H2].
  destruct (fetch_classes latitude longitude taxonomicClasses count st w)
    as [[results st1] w1]. cbn [fst] in *.
  exists results. auto.
Qed.

Lemma getSpeciesForMeditation_all_classes_witness :
  exists results,
    fst (fst (getSpeciesForMeditation 0 (-160) None 2 initial offline))
    = ForAll results
    /\ List.map res_type results = List.map cls_name taxonomicClasses.
Proof.
  destruct (@getSpeciesForMeditation_all_classes 0 (-160) 2 initial offline)
    as (results & H1 & H2 & _); [lia|].
  exists results. split; assumption.
Defined.

(* ================================================================= *)
(** ** What [selectSpecies] returns *)

Lemma or_else_nonempty a b : b <> [] -> or_else a b <> [].
Proof.
  intros Hb. unfold or_else. destruct a; [exact Hb|discriminate].
Qed.

Lemma singular_in_names cls :
  In cls taxonomicClasses -> In (singularize (cls_name cls)) singular_names.
Proof.
  intros H. unfold singular_names.
  repeat (destruct H as [<-|H]; [simpl; tauto|]). destruct H.
Qed.

Lemma select_in_class_shape latitude longitude cls st w :
  fst (fst (select_in_class latitude longitude cls st w))
  = (getFallbackSpecies, None)
  \/ exists c, fst (fst (select_in_class latitude longitude cls st w))
               = (format_selected cls c, Some c).
Proof.
  unfold select_in_class.
  destruct (getSpeciesForClass latitude longitude cls 50 st w) as [[sl st1] w1].
  destruct sl as [|s0 sl]; [left; reflexivity|].
  destruct (match getCachedEntry latitude longitude cls st1 with
            | Some e => _ | None => None end) as [e|].
  - destruct (choose _ _ e w1) as [[[c e']|] w2]; [right|left; reflexivity].
    exists c. reflexivity.
  - destruct (draw w1) as [r w2].
    destruct (if (0 <=? _)%Z then _ else None) as [c|];
      [right; exists c|left]; reflexivity.
Qed.

Lemma selectSpecies_shape latitude longitude animalType st w :
  fst (fst (selectSpecies latitude longitude animalType st w))
  = (getFallbackSpecies, None)
  \/ exists cls c,
       In cls taxonomicClasses
       /\ fst (fst (selectSpecies latitude longitude animalType st w))
          = (format_selected cls c, Some c).
Proof.
  unfold selectSpecies.
  set (requested := if opt_truthy animalType then _ else None).
  assert (Hreq : forall c, requested = Some c -> In c taxonomicClasses).
  { intros c. unfold requested. destruct (opt_truthy animalType); [|discriminate].
    intros H. apply find_some in H. tauto. }
  assert (Hsel : forall cls w0, In cls taxonomicClasses ->
            fst (fst (select_in_class latitude longitude cls st w0))
            = (getFallbackSpecies, None)
            \/ exists cls0 c,
                 In cls0 taxonomicClasses
                 /\ fst (fst (select_in_class latitude longitude cls st w0))
                    = (format_selected cls0 c, Some c)).
  { intros cls w0 Hin.
    destruct (select_in_class_shape latitude longitude cls st w0) as [H|[c H]];
      [left; exact H|right; exists cls, c; auto]. }
  destruct requested as [c|].
  - apply Hsel. apply Hreq. reflexivity.
  - destruct (draw w) as [r w0].
    destruct (if (0 <=? _)%Z then _ else None) as [c|] eqn:E;
      [|left; reflexivity].
    apply Hsel. destruct (0 <=? _)%Z; [|discriminate].
    eapply nth_error_In. exact E.
Qed.

(** X24.  Whatever the request, the state and the world, the object
    [selectSpecies] returns has a non-empty name, a non-empty scientific
    name and one of the five singular class names as its type. *)
Theorem selectSpecies_fields latitude longitude animalType st w :
  let sel := fst (fst (fst (selectSpecies latitude longitude animalType st w))) in
  sel_name sel <> []
  /\ sel_scientificName sel <> []
  /\ In (sel_type sel) singular_names.
Proof.
  cbv zeta.
  destruct (selectSpecies_shape latitude longitude animalType st w)
    as [H|(cls & c & Hin & H)]; rewrite H; cbn [fst].
  - repeat split; try discriminate. left. reflexivity.
  - unfold format_selected.
    cbn [sel_name sel_scientificName sel_type].
    split; [apply or_else_nonempty; discriminate|].
    split; [apply or_else_nonempty; discriminate|].
    apply singular_in_names. exact Hin.
Qed.






(* ================================================================= *)
(** ** Habitats *)

(** X26.  [inferHabitat] returns one of seven habitats for every species
    name and every class name that is not an inherited property name; a
    name with [fish], [salmon], [trout], [frog], [turtle] or [duck] in it,
    in any letter case, is aquatic whatever the class. *)
Theorem inferHabitat_known (speciesName animalType : jsstring) :
  ~ In animalType inherited_names ->
  In (inferHabitat speciesName animalType) habitats
  /\ (existsb (includes (toLowerCase speciesName))
         [js "fish"; js "salmon"; js "trout"; js "frog"; js "turtle"; js "duck"]
       = true ->
      inferHabitat speciesName animalType = js "aquatic").
Proof.
  intros _. unfold inferHabitat. cbv zeta. split.
  - repeat match goal with
           | |- context [if ?b then _ else _] =>
               match b with
               | context [includes] => destruct b; [simpl; tauto|]
               end
           end.
    table_lookup animalType; simpl; tauto.
  - cbn [existsb]. rewrite orb_false_r, !orb_assoc. intros H. rewrite H.
    reflexivity.
Qed.

Lemma inferHabitat_known_witness :
  In (inferHabitat (js "Goldfish") (js "fish")) habitats.
Proof.
  apply (@inferHabitat_known (js "Goldfish") (js "fish")).
  intros H. repeat (destruct H as [H|H]; [discriminate H|]). exact H.
Defined.

(* ================================================================= *)
(** ** Location keys do not collide *)

Local Open Scope Z_scope.

Lemma js_inj a b : js a = js b -> a = b.
Proof.
  unfold js. intros H.
  rewrite <- (string_of_list_ascii_of_string a).
  rewrite <- (string_of_list_ascii_of_string b). f_equal.
  revert H. generalize (list_ascii_of_string a) (list_ascii_of_string b).
  induction l as [|x l IH]; intros [|y l']; simpl; intros H;
    try discriminate; [reflexivity|].
  injection H as Hx Hl. f_equal; [|apply IH; exact Hl].
  rewrite <- (ascii_N_embedding x), <- (ascii_N_embedding y), Hx. reflexivity.
Qed.

Lemma to_int_plain n :
  Z.to_int n <> Decimal.Pos Decimal.Nil /\ Z.to_int n <> Decimal.Neg Decimal.Nil.
Proof.
  destruct n as [|p|p]; simpl; split; try discriminate;
    intros H; injection H as H;
    exact (DecimalPos.Unsigned.to_uint_nonnil p H).
Qed.

Lemma decimal_inj n m : decimal n = decimal m -> n = m.
Proof.
  unfold decimal. intros H. apply js_inj in H.
  apply DecimalZ.to_int_inj.
  destruct (to_int_plain n) as [N1 N2]. destruct (to_int_plain m) as [M1 M2].
  pose proof (NilZero.isi _ N1 N2) as Hn.
  pose proof (NilZero.isi _ M1 M2) as Hm.
  rewrite H in Hn. congruence.
Qed.

Lemma uint_digits d :
  forallb is_digit (js (NilEmpty.string_of_uint d)) = true.
Proof. induction d; simpl; auto. Qed.

Lemma decimal_digits n :
  0 <= n -> decimal n <> [] /\ forallb is_digit (decimal n) = true.
Proof.
  intros Hn. unfold decimal. destruct n as [|p|p]; [split; [discriminate|reflexivity]| |lia].
  cbn [Z.to_int NilZero.string_of_int].
  pose proof (DecimalPos.Unsigned.to_uint_nonnil p) as Hp.
  destruct (Pos.to_uint p) as [|d|d|d|d|d|d|d|d|d|d] eqn:E;
    [contradiction|..];
    (split; [discriminate|];
     match goal with
     | |- context [NilZero.string_of_uint ?x] => exact (uint_digits x)
     end).
Qed.

Lemma digits_span ds : forall ds' t t',
  forallb is_digit ds = true -> forallb is_digit ds' = true ->
  no_digit_head t -> no_digit_head t' ->
  ds ++ t = ds' ++ t' -> ds = ds' /\ t = t'.
Proof.
  induction ds as [|c ds IH]; intros [|c' ds'] t t' Hd Hd' Ht Ht' E;
    simpl in *.
  - auto.
  - subst t. apply andb_prop in Hd'. destruct Hd' as [Hc _].
    simpl in Ht. congruence.
  - subst t'. apply andb_prop in Hd. destruct Hd as [Hc _].
    simpl in Ht'. congruence.
  - apply andb_prop in Hd. apply andb_prop in Hd'.
    injection E as -> E.
    destruct (IH ds' t t') as [-> ->]; tauto.
Qed.

Lemma sep_split (x : N) a : forall a' b b',
  ~ In x a -> ~ In x a' -> a ++ x :: b = a' ++ x :: b' -> a = a' /\ b = b'.
Proof.
  induction a as [|c a IH]; intros [|c' a'] b b' Ha Ha' E; simpl in *.
  - injection E as ->. auto.
  - injection E as -> _. tauto.
  - injection E as -> _. tauto.
  - injection E as -> E. destruct (IH a' b b') as [-> ->]; tauto.
Qed.

Lemma in_hundredths f : 0 <= f < 100 -> In f hundredths.
Proof.
  intros H. unfold hundredths. apply in_map_iff. exists (Z.to_nat f).
  split; [lia|]. apply in_seq. lia.
Qed.

Lemma frac_text_shape f : 0 <= f < 100 -> dot_digits (frac_text f) = true.
Proof.
  intros H. apply in_hundredths in H. revert f H. apply forallb_forall.
  vm_compute. reflexivity.
Qed.

Lemma frac_text_inj f f' :
  0 <= f < 100 -> 0 <= f' < 100 -> frac_text f = frac_text f' -> f = f'.
Proof.
  intros H H' E. apply in_hundredths in H. apply in_hundredths in H'.
  assert (Hall : forallb (fun a =>
                   forallb (fun b =>
                     implb (jsstring_eqb (frac_text a) (frac_text b)) (a =? b))
                     hundredths) hundredths = true)
    by (vm_compute; reflexivity).
  rewrite forallb_forall in Hall. specialize (Hall f H).
  rewrite forallb_forall in Hall. specialize (Hall f' H').
  rewrite E, jsstring_eqb_refl in Hall. cbn [implb] in Hall.
  apply Z.eqb_eq. exact Hall.
Qed.

Lemma dot_digits_tail t r :
  dot_digits t = true -> no_digit_head (t ++ 95%N :: r) /\ ~ In 95%N t.
Proof.
  destruct t as [|c t]; simpl; intros H.
  - split; [reflexivity|tauto].
  - apply andb_prop in H. destruct H as [Hc Ht]. apply N.eqb_eq in Hc. subst c.
    split; [reflexivity|]. intros [E|E]; [discriminate|].
    rewrite forallb_forall in Ht. specialize (Ht _ E). discriminate.
Qed.

Lemma render_split h :
  render_hundredths h
  = (if h <? 0 then [45%N] else [])
    ++ decimal (Z.abs h / 100) ++ frac_text (Z.abs h mod 100).
Proof. reflexivity. Qed.

Lemma render_inj_sep h h' r r' :
  render_hundredths h ++ 95%N :: r = render_hundredths h' ++ 95%N :: r' ->
  h = h' /\ r = r'.
Proof.
  rewrite !render_split.
  assert (Hw : 0 <= Z.abs h / 100) by (apply Z.div_pos; lia).
  assert (Hw' : 0 <= Z.abs h' / 100) by (apply Z.div_pos; lia).
  assert (Hf : 0 <= Z.abs h mod 100 < 100) by (apply Z.mod_pos_bound; lia).
  assert (Hf' : 0 <= Z.abs h' mod 100 < 100) by (apply Z.mod_pos_bound; lia).
  destruct (decimal_digits Hw) as [Wn Wd].
  destruct (decimal_digits Hw') as [Wn' Wd'].
  pose proof (frac_text_shape Hf) as Fs.
  pose proof (frac_text_shape Hf') as Fs'.
  destruct (@dot_digits_tail _ r Fs) as [T1 T2].
  destruct (@dot_digits_tail _ r' Fs') as [T1' T2'].
  pose proof (Z.div_mod (Z.abs h) 100 ltac:(lia)) as Dh.
  pose proof (Z.div_mod (Z.abs h') 100 ltac:(lia)) as Dh'.
  revert Wn Wd Wn' Wd' Fs Fs' T1 T2 T1' T2' Dh Dh'.
  generalize (@decimal_inj (Z.abs h / 100) (Z.abs h' / 100)).
  generalize (@frac_text_inj (Z.abs h mod 100) (Z.abs h' mod 100) Hf Hf').
  generalize (decimal (Z.abs h / 100)) (decimal (Z.abs h' / 100)).
  generalize (frac_text (Z.abs h mod 100)) (frac_text (Z.abs h' mod 100)).
  intros F F' W W' Finj Winj Wn Wd Wn' Wd' Fs Fs' T1 T2 T1' T2' Dh Dh' E.
  assert (Hsame : (h <? 0) = (h' <? 0)
                  /\ W ++ F ++ 95%N :: r = W' ++ F' ++ 95%N :: r').
  { rewrite <- !app_assoc in E.
    destruct (h <? 0) eqn:Es, (h' <? 0) eqn:Es'; simpl in E.
    - injection E as E. auto.
    - exfalso. destruct W' as [|c W']; [contradiction|].
      simpl in E, Wd'. injection E as <- _. discriminate.
    - exfalso. destruct W as [|c W]; [contradiction|].
      simpl in E, Wd. injection E as -> _. discriminate.
    - auto. }
  destruct Hsame as [Hs E'].
  destruct (@digits_span W W' _ _ Wd Wd' T1 T1' E') as [EW EF].
  destruct (@sep_split 95%N F F' r r' T2 T2' EF) as [EF' Er].
  split; [|exact Er].
  specialize (Winj EW). specialize (Finj EF').
  assert (Habs : Z.abs h = Z.abs h') by lia.
  destruct (Z.ltb_spec h 0), (Z.ltb_spec h' 0); try discriminate; lia.
Qed.

(** X27.  For positions on the globe, two cache keys are equal exactly
    when the latitudes round to the same hundredths, the longitudes round
    to the same hundredths and the class names are the same, the rounding
    being that of the code, in binary64: places that the code rounds to
    different cells, or of different classes, never share a cache entry. *)
Theorem generateLocationKey_injective latitude longitude cls
  latitude' longitude' cls' :
  on_globe latitude longitude -> on_globe latitude' longitude' ->
  (generateLocationKey latitude longitude cls
   = generateLocationKey latitude' longitude' cls'
   <-> rounded latitude = rounded latitude'
       /\ rounded longitude = rounded longitude'
       /\ cls_name cls = cls_name cls').
Proof.
  intros _ _. unfold generateLocationKey. split.
  - intros E. change (js "_") with [95%N] in E. cbn [app] in E.
    apply render_inj_sep in E. destruct E as [E1 E].
    apply render_inj_sep in E. destruct E as [E2 E3]. auto.
  - intros (-> & -> & ->). reflexivity.
Qed.

Lemma generateLocationKey_injective_witness :
  generateLocationKey 1.005 0 birds <> generateLocationKey 1.01 0 birds.
Proof.
  intros E.
  apply (@generateLocationKey_injective 1.005 0 birds 1.01 0 birds) in E.
  - destruct E as [E _]. vm_compute in E. discriminate E.
  - vm_compute. intuition discriminate.
  - vm_compute. intuition discriminate.
Defined.

Local Open Scope nat_scope.

(* ================================================================= *)
(** ** The failure counter between calls *)

Local Open Scope Z_scope.

(** X28.  With the circuit closed, a JSON reply with a status below 500
    that is neither 2xx nor 429 (a 404, say) is not retried: one request,
    no species, no backoff.  It opens the circuit exactly when two failures
    had been counted before the call. *)
Theorem client_error_not_retried cls radius st w r :
  open (gbifCircuit st) = false ->
  search w (requests w) = Response r ->
  client_error r ->
  fetchFromGBIF cls radius st w
  = ([], open_if_repeated (clock (after_request w))
           (set_error (not_ok_error r) st), after_request w)
  /\ (open (gbifCircuit (snd (fst (fetchFromGBIF cls radius st w)))) = true
      <-> 2 <= consecutiveFailures (gbifCircuit st))
  /\ requests (snd (fetchFromGBIF cls radius st w)) = S (requests w).
Proof.
  intros Ho Hs (H429 & H5 & Hok & Hmark & Hct).
  assert (E : fetchFromGBIF cls radius st w
              = ([], open_if_repeated (clock (after_request w))
                       (set_error (not_ok_error r) st), after_request w)).
  { rewrite fetch_closed by exact Ho.
    cbn [attempts fetch_search Z.to_nat Pos.to_nat Pos.iter_op Nat.add].
    change (search (sleep 250 w) (requests (sleep 250 w)))
      with (search w (requests w)).
    rewrite Hs. apply Z.eqb_neq in H429. rewrite H429, Hmark, Hct, Hok.
    cbn [negb orb].
    destruct (Z.leb_spec 500 (status r)); [lia|]. reflexivity. }
  rewrite E. cbn [fst snd]. split; [reflexivity|]. split; [|reflexivity].
  unfold open_if_repeated. cbn [set_error gbifCircuit].
  destruct (Z.leb_spec 2 (consecutiveFailures (gbifCircuit st)));
    cbn [set_circuit set_error gbifCircuit open].
  - tauto.
  - rewrite Ho. split; [discriminate|lia].
Qed.

Lemma client_error_not_retried_witness :
  requests (snd (fetchFromGBIF birds 50 initial not_found)) = 1%nat.
Proof.
  apply (@client_error_not_retried birds 50 initial not_found
           (json_response 404 None ParseError)).
  - reflexivity.
  - reflexivity.
  - repeat split; try reflexivity. discriminate.
Defined.

Lemma attempts_failures cls radius left :
  forall attempt st w,
    consecutiveFailures (gbifCircuit st)
    <= consecutiveFailures
         (gbifCircuit (snd (fst (attempts left attempt cls radius st w)))).
Proof.
  induction left as [|left IH]; intros attempt st w; [simpl; lia|].
  cbn [attempts fetch_search].
  destruct (search _ _) as [message|r].
  - unfold caught. cbv beta iota.
    etransitivity; [|apply IH]. simpl. lia.
  - destruct (status r =? 429)%Z; [simpl; lia|].
    destruct (_ || _)%bool; [simpl; lia|].
    destruct (negb (ok r)).
    + destruct (_ && _)%bool.
      * unfold draw. cbv beta iota.
        etransitivity; [|apply IH]. simpl. lia.
      * cbn [fst snd]. unfold open_if_repeated.
        destruct (2 <=? _)%Z; simpl; lia.
    + destruct (parsed r) as [|message| |records|before message];
        try (simpl; lia).
      * unfold caught. cbv beta iota.
        etransitivity; [|apply IH]. simpl. lia.
      * destruct (process_records _ _ _ _ _) as [seen w1]. simpl. lia.
      * destruct (50 <=? List.length before)%nat;
          destruct (process_records _ _ _ _ _) as [seen w1]; [simpl; lia|].
        unfold caught. cbv beta iota.
        etransitivity; [|apply IH]. simpl. lia.
Qed.

(** X29.  Unless the call finds an open circuit whose [openUntil] has
    passed, and resets it, no call of [fetchFromGBIF] lowers
    [consecutiveFailures], whatever the network replies, successes
    included. *)
Theorem closed_circuit_keeps_failures cls radius st w :
  open (gbifCircuit st) && num_le (openUntil (gbifCircuit st)) (clock w)
  = false ->
  consecutiveFailures (gbifCircuit st)
  <= consecutiveFailures
       (gbifCircuit (snd (fst (fetchFromGBIF cls radius st w)))).
Proof.
  intros Hno. unfold fetchFromGBIF. cbn [set_error gbifCircuit].
  destruct (open (gbifCircuit st) && num_gt _ _)%bool; [simpl; lia|].
  rewrite Hno. etransitivity; [|apply attempts_failures]. simpl. lia.
Qed.

Lemma closed_circuit_keeps_failures_witness :
  0 <= consecutiveFailures
         (gbifCircuit (snd (fst (fetchFromGBIF birds 50 initial recovering)))).
Proof.
  apply (@closed_circuit_keeps_failures birds 50 initial recovering).
  reflexivity.
Defined.

Local Open Scope nat_scope.
